(** * diptorch: Gaussian derivative filters, Hessian eigenvalues and the
      Frangi vesselness filter

    A shallow embedding of [diptorch/filters.py] and [diptorch/linalg.py].

    Numbers.  The program computes with float32 tensors (the default
    dtype of torch, and the one [frangi] converts its image to).  The
    embedding keeps the IEEE special values and drops rounding: a scalar is
    an extended real [xreal], either a finite real [Fin r] or one of
    [PInf], [NInf], [NaN], and every operation follows the IEEE rules for
    these values (0/0 and inf-inf are NaN, NaN is absorbing, x/0 is an
    infinity for x <> 0).  Zero carries no sign: a zero divisor is taken as
    +0.  One operation leaves the float32 range on ordinary arguments and
    is modelled with its range: [exp] returns 0 when its value rounds to 0
    (an argument below about -104) and +inf when it overflows.

    Tensors.  The functions of [linalg.py], and those of [filters.py]
    below [hessian_eigenvalues], treat the images of a batch one by one:
    the same steps on every image, and checks that read the shape only.
    They are given on one image: a tensor of shape [1, C, *spatial] is the
    list of its C channels, each an [arr xreal n], a nested list over the
    n spatial axes, outermost axis first.  [hessian_eigenvalues] and
    [frangi] read the batch axis ([len], [squeeze], indexing along axis
    0): they are given on a [batch], the images of a tensor
    [B, C, *spatial] with B >= 1.  What [frangi] computes after
    [squeeze] has a rank that depends on the sizes of the axes: such
    tensors are [shaped], a shape and the entries in row-major order.

    Errors.  A Python exception is a [Raise e] result. *)

From Stdlib Require Import String.
From Stdlib Require Import Reals Lra Lia List ZArith Bool Zfloor.
From Stdlib Require Import Sorted Permutation.
Import ListNotations.
Open Scope R_scope.

(* ================================================================= *)
(** ** Exceptions *)

Inductive exn : Type :=
| ValueError (msg : string)
| RuntimeError (msg : string)
| NotImplementedError (msg : string)
| AssertionError (msg : string)
| IndexError (msg : string).

Inductive res (A : Type) : Type :=
| Ok (a : A)
| Raise (e : exn).

Arguments Ok {A} a.
Arguments Raise {A} e.

Definition bind {A B : Type} (m : res A) (k : A -> res B) : res B :=
  match m with
  | Ok a => k a
  | Raise e => Raise e
  end.

Notation "x <- m ;; k" := (bind m (fun x => k))
  (at level 61, m at next level, right associativity).

Fixpoint mapM {A B : Type} (f : A -> res B) (l : list A) : res (list B) :=
  match l with
  | [] => Ok []
  | a :: t => b <- f a ;; bs <- mapM f t ;; Ok (b :: bs)
  end.

(* ================================================================= *)
(** ** Extended reals: IEEE arithmetic without rounding *)

Inductive xreal : Type :=
| Fin (r : R)
| PInf
| NInf
| NaN.

Definition Rltb (a b : R) : bool := if Rlt_dec a b then true else false.
Definition Rleb (a b : R) : bool := if Rle_dec a b then true else false.
Definition Reqb (a b : R) : bool := if Req_dec_T a b then true else false.

(** The infinity with the sign of [r]; NaN for [r = 0]. *)
Definition inf_of_sign (r : R) : xreal :=
  if Rltb 0 r then PInf else if Rltb r 0 then NInf else NaN.

Definition xneg (a : xreal) : xreal :=
  match a with
  | Fin x => Fin (- x)
  | PInf => NInf
  | NInf => PInf
  | NaN => NaN
  end.

Definition xadd (a b : xreal) : xreal :=
  match a, b with
  | NaN, _ | _, NaN => NaN
  | Fin x, Fin y => Fin (x + y)
  | PInf, NInf | NInf, PInf => NaN
  | PInf, _ | _, PInf => PInf
  | NInf, _ | _, NInf => NInf
  end.

Definition xsub (a b : xreal) : xreal := xadd a (xneg b).

Definition xmul (a b : xreal) : xreal :=
  match a, b with
  | NaN, _ | _, NaN => NaN
  | Fin x, Fin y => Fin (x * y)
  | Fin x, PInf | PInf, Fin x => inf_of_sign x
  | Fin x, NInf | NInf, Fin x => inf_of_sign (- x)
  | PInf, PInf | NInf, NInf => PInf
  | PInf, NInf | NInf, PInf => NInf
  end.

Definition xdiv (a b : xreal) : xreal :=
  match a, b with
  | NaN, _ | _, NaN => NaN
  | Fin x, Fin y => if Reqb y 0 then inf_of_sign x else Fin (x / y)
  | Fin _, PInf | Fin _, NInf => Fin 0
  | PInf, Fin y => if Rltb y 0 then NInf else PInf
  | NInf, Fin y => if Rltb y 0 then PInf else NInf
  | _, _ => NaN
  end.

Definition xabs (a : xreal) : xreal :=
  match a with
  | Fin x => Fin (Rabs x)
  | PInf | NInf => PInf
  | NaN => NaN
  end.

Definition xsquare (a : xreal) : xreal := xmul a a.

(** [t.pow(3)] *)
Definition xpow3 (a : xreal) : xreal := xmul (xmul a a) a.

Definition xsqrt (a : xreal) : xreal :=
  match a with
  | Fin x => if Rltb x 0 then NaN else Fin (sqrt x)
  | PInf => PInf
  | NInf | NaN => NaN
  end.

(** Half the smallest positive float32, and the float32 overflow
    threshold: rounding to nearest, a value at or below the first becomes
    0 and a value at or above the second becomes +inf. *)
Definition float32_tiny : R := / 2 ^ 150.
Definition float32_huge : R := (2 - / 2 ^ 24) * 2 ^ 127.

(** [t.exp()] on float32. *)
Definition xexp (a : xreal) : xreal :=
  match a with
  | Fin x => if Rleb (exp x) float32_tiny then Fin 0
             else if Rleb float32_huge (exp x) then PInf
             else Fin (exp x)
  | PInf => PInf
  | NInf => Fin 0
  | NaN => NaN
  end.

Definition xcos (a : xreal) : xreal :=
  match a with
  | Fin x => Fin (cos x)
  | _ => NaN
  end.

Definition xarccos (a : xreal) : xreal :=
  match a with
  | Fin x => if Rleb (-1) x && Rleb x 1 then Fin (acos x) else NaN
  | _ => NaN
  end.

(** IEEE [<] : false as soon as one side is NaN. *)
Definition xltb (a b : xreal) : bool :=
  match a, b with
  | NaN, _ | _, NaN => false
  | Fin x, Fin y => Rltb x y
  | NInf, NInf | PInf, PInf => false
  | NInf, _ | _, PInf => true
  | _, _ => false
  end.

(** IEEE [==]. *)
Definition xeqb (a b : xreal) : bool :=
  match a, b with
  | Fin x, Fin y => Reqb x y
  | PInf, PInf | NInf, NInf => true
  | _, _ => false
  end.

(** [torch.maximum]: the larger value, NaN if either is NaN. *)
Definition xmaximum (a b : xreal) : xreal :=
  match a, b with
  | NaN, _ | _, NaN => NaN
  | _, _ => if xltb a b then b else a
  end.

Definition xminimum (a b : xreal) : xreal :=
  match a, b with
  | NaN, _ | _, NaN => NaN
  | _, _ => if xltb b a then b else a
  end.

(** [t.clamp(lo)] and [t.clamp(lo, hi)] with scalar bounds. *)
Definition xclamp_min (lo : R) (a : xreal) : xreal := xmaximum a (Fin lo).
Definition xclamp (lo hi : R) (a : xreal) : xreal :=
  xminimum (xmaximum a (Fin lo)) (Fin hi).

(** Largest finite float32, the value [torch.nan_to_num] gives to +inf. *)
Definition float32_max : R := (2 - / 2 ^ 23) * 2 ^ 127.

(** [torch.nan_to_num(t, nan=0.0)] on a float32 tensor. *)
Definition nan_to_num (a : xreal) : xreal :=
  match a with
  | NaN => Fin 0
  | PInf => Fin float32_max
  | NInf => Fin (- float32_max)
  | Fin x => Fin x
  end.

(** The order [torch.sort] uses: -inf < finite < +inf < NaN. *)
Definition sort_leb (a b : xreal) : bool :=
  match a, b with
  | _, NaN => true
  | NaN, _ => false
  | _, _ => negb (xltb b a)
  end.

Definition xsum (l : list xreal) : xreal := fold_left xadd l (Fin 0).

Definition xmean (l : list xreal) : xreal :=
  xdiv (xsum l) (Fin (INR (length l))).

(* ================================================================= *)
(** ** linalg.py *)

(** Every statement of [eigvalsh2], [eigvalsh3] and [deth3] is
    elementwise over the pixels, and [torch.concat(..., dim=1)] lists the
    channels of one pixel: the functions are given on the scalars of one
    pixel, a channel vector being a list. *)

Definition eigvalsh2 (ii ij jj : xreal) : list xreal :=
  let tr := xadd ii jj in
  let det := xsub (xmul ii jj) (xsquare ij) in
  let disc := xsqrt (xclamp_min 0 (xsub (xsquare tr) (xmul (Fin 4) det))) in
  let disc := [xneg disc; disc] in
  let eigvals := map (fun d => xdiv (xadd tr d) (Fin 2)) disc in
  eigvals.

Definition deth3 (ii ij ik jj jk kk : xreal) : xreal :=
  xsub (xsub (xsub
    (xadd (xmul (xmul ii jj) kk) (xmul (xmul (xmul (Fin 2) ij) ik) jk))
    (xmul ii (xsquare jk)))
    (xmul jj (xsquare ik)))
    (xmul kk (xsquare ij)).

Definition eigvalsh3 (ii ij ik jj jk kk : xreal) (eps : R) : list xreal :=
  let diag := [ii; jj; kk] in
  let triu := [ij; ik; jk] in
  let q := xdiv (xsum diag) (Fin 3) in
  let p1 := xsum (map xsquare triu) in
  let p2 := xsum (map (fun d => xsquare (xsub d q)) diag) in
  let p := xsqrt (xdiv (xadd (xmul (Fin 2) p1) p2) (Fin 6)) in
  let r := xdiv (xdiv (deth3 (xsub ii q) ij ik (xsub jj q) jk (xsub kk q))
                      (xadd (xpow3 p) (Fin eps))) (Fin 2) in
  let r := xclamp (-1) 1 r in
  let phi := xdiv (xarccos r) (Fin 3) in
  let eig3 := xadd q (xmul (xmul (Fin 2) p) (xcos phi)) in
  let eig1 := xadd q (xmul (xmul (Fin 2) p)
                           (xcos (xadd phi (Fin (2 * PI / 3))))) in
  let eig2 := xsub (xsub (xmul (Fin 3) q) eig1) eig3 in
  [eig1; eig2; eig3].

(** Default of the [eps] keyword of [eigvalsh3]. *)
Definition eigvalsh3_eps : R := / 10 ^ 8.

(* ================================================================= *)
(** ** Arrays over the spatial axes *)

Fixpoint arr (A : Type) (n : nat) : Type :=
  match n with
  | O => A
  | S m => list (arr A m)
  end.

(** One image, a tensor of shape [1, C, *spatial]: its C channels. *)
Definition tensor (n : nat) : Type := list (arr xreal n).

(** A batch of B >= 1 images, a tensor of shape [B, C, *spatial]. *)
Record batch (n : nat) : Type := Batch {
  first_image : tensor n;
  other_images : list (tensor n)
}.

Arguments Batch {n} first_image other_images.
Arguments first_image {n} b.
Arguments other_images {n} b.

Definition images {n : nat} (b : batch n) : list (tensor n) :=
  first_image b :: other_images b.

(** The batch of one image. *)
Definition single {n : nat} (img : tensor n) : batch n := Batch img [].

(** A tensor of any rank: its shape and its entries in row-major order. *)
Record shaped : Type := Shaped {
  dims : list nat;
  entries : list xreal
}.

(** The number of entries of a shape. *)
Definition numel (dims : list nat) : nat := fold_right Nat.mul 1%nat dims.

Fixpoint amap {A B : Type} (f : A -> B) (n : nat) : arr A n -> arr B n :=
  match n with
  | O => fun x => f x
  | S m => fun x => map (amap f m) x
  end.

Fixpoint map2 {A B C : Type} (f : A -> B -> C) (l1 : list A) (l2 : list B)
  : list C :=
  match l1, l2 with
  | a :: t1, b :: t2 => f a b :: map2 f t1 t2
  | _, _ => []
  end.

Fixpoint amap2 {A B C : Type} (f : A -> B -> C) (n : nat)
  : arr A n -> arr B n -> arr C n :=
  match n with
  | O => fun x y => f x y
  | S m => fun x y => map2 (amap2 f m) x y
  end.

(** All entries, in row-major order. *)
Fixpoint aflat {A : Type} (n : nat) : arr A n -> list A :=
  match n with
  | O => fun x => [x]
  | S m => fun x => flat_map (aflat m) x
  end.

(** Sizes of the axes (read along the first slices). *)
Fixpoint ashape {A : Type} (n : nat) : arr A n -> list nat :=
  match n with
  | O => fun _ => []
  | S m => fun x =>
      length x :: match x with
                  | [] => repeat 0%nat m
                  | s :: _ => ashape m s
                  end
  end.

Definition adefault (n : nat) : arr xreal n :=
  match n with
  | O => Fin 0
  | S m => []
  end.

Definition azeros_like (n : nat) (x : arr xreal n) : arr xreal n :=
  amap (fun _ => Fin 0) n x.

(** Entry at a multi-index. *)
Fixpoint aget (n : nat) : arr xreal n -> list nat -> xreal :=
  match n with
  | O => fun x _ => x
  | S m => fun x idx =>
      aget m (nth (hd 0%nat idx) x (adefault m)) (tl idx)
  end.

(** Elementwise sum of a list of arrays of one shape. *)
Definition asum (n : nat) (terms : list (arr xreal n)) : arr xreal n :=
  match terms with
  | [] => adefault n
  | t :: ts => fold_left (amap2 xadd n) ts t
  end.

(** The channel vector of every pixel of a tensor, and back. *)
Fixpoint pixels (n : nat) (t : tensor n) : arr (list xreal) n :=
  match t with
  | [] => amap (fun _ => []) n (adefault n)
  | [c] => amap (fun v => [v]) n c
  | c :: rest => amap2 cons n c (pixels n rest)
  end.

Definition channels (n : nat) (k : nat) (p : arr (list xreal) n) : tensor n :=
  map (fun c => amap (fun px => nth c px NaN) n p) (seq 0 k).

(** The values a list of arrays of one shape holds at every position. *)
Definition aempty {A : Type} (n : nat) : arr (list A) n :=
  match n return arr (list A) n with
  | O => []
  | S m => []
  end.

Fixpoint azip {A : Type} (n : nat) (l : list (arr A n)) : arr (list A) n :=
  match l with
  | [] => aempty n
  | [c] => amap (fun v => [v]) n c
  | c :: rest => amap2 cons n c (azip n rest)
  end.

(* ----------------------------------------------------------------- *)
(** *** Broadcasting *)

(** The multi-indices of a shape in row-major order, and the position of
    a multi-index among the entries. *)
Fixpoint indices (dims : list nat) : list (list nat) :=
  match dims with
  | [] => [[]]
  | d :: rest => flat_map (fun i => map (cons i) (indices rest)) (seq 0 d)
  end.

Fixpoint ravel (dims idx : list nat) : nat :=
  match dims, idx with
  | d :: rest, i :: idx' => (i * numel rest + ravel rest idx')%nat
  | _, _ => 0%nat
  end.

(** Shapes are aligned on their last axis, the shorter one completed by
    leading axes of size 1; two sizes are compatible when they are equal
    or one of them is 1, which is then expanded to the other. *)
Definition unsqueeze_to (k : nat) (dims : list nat) : list nat :=
  repeat 1%nat (k - length dims) ++ dims.

Fixpoint broadcast_dims (a b : list nat) : option (list nat) :=
  match a, b with
  | [], [] => Some []
  | x :: a', y :: b' =>
      match broadcast_dims a' b' with
      | Some r =>
          if (x =? y)%nat then Some (x :: r)
          else if (x =? 1)%nat then Some (y :: r)
          else if (y =? 1)%nat then Some (x :: r)
          else None
      | None => None
      end
  | _, _ => None
  end.

Definition broadcast_shapes (a b : list nat) : option (list nat) :=
  let k := Nat.max (length a) (length b) in
  broadcast_dims (unsqueeze_to k a) (unsqueeze_to k b).

(** The entry of [t] that position [idx] of a broadcast result reads: an
    axis of size 1 is read at 0. *)
Definition broadcast_get (t : shaped) (idx : list nat) : xreal :=
  let d := unsqueeze_to (length idx) (dims t) in
  nth (ravel d (map2 (fun s i => if (s =? 1)%nat then 0%nat else i) d idx))
      (entries t) NaN.

(** An elementwise operation of two tensors, with broadcasting. *)
Definition broadcast2 (f : xreal -> xreal -> xreal) (a b : shaped)
  : res shaped :=
  match broadcast_shapes (dims a) (dims b) with
  | Some d =>
      Ok (Shaped d (map (fun idx => f (broadcast_get a idx)
                                      (broadcast_get b idx))
                        (indices d)))
  | None => Raise (RuntimeError "The size of tensor a must match the size of tensor b at non-singleton dimension")
  end.

(** [t.squeeze()]: the axes of size 1 are removed. *)
Definition squeeze (t : shaped) : shaped :=
  Shaped (filter (fun d => negb (d =? 1)%nat) (dims t)) (entries t).

(* ----------------------------------------------------------------- *)
(** *** torch.nn.functional.pad *)

Inductive pad_mode : Type := Constant | Reflect | Replicate | Circular.

(** Where position [j] of the padded axis reads from ([j] counted from the
    first original entry, so the left margin is negative); [None] is the
    constant fill. *)
Definition pad_source (mode : pad_mode) (len : nat) (j : Z) : option nat :=
  let n := Z.of_nat len in
  if ((0 <=? j) && (j <? n))%Z then Some (Z.to_nat j)
  else match mode with
       | Constant => None
       | Reflect =>
           Some (Z.to_nat (if (j <? 0)%Z then - j else 2 * (n - 1) - j))
       | Replicate => Some (Z.to_nat (if (j <? 0)%Z then 0 else n - 1))
       | Circular => Some (Z.to_nat (j mod n))
       end.

(** The size checks of [F.pad]. *)
Definition pad_ok (mode : pad_mode) (l r len : nat) : bool :=
  match mode with
  | Constant => true
  | Reflect => (l <? len)%nat && (r <? len)%nat
  | Replicate => (0 <? len)%nat
  | Circular => (l <=? len)%nat && (r <=? len)%nat
  end.

Definition pad_list {B : Type} (mode : pad_mode) (l r : nat) (fill : B)
  (xs : list B) : res (list B) :=
  let len := length xs in
  if pad_ok mode l r len then
    Ok (map (fun i =>
               match pad_source mode len (Z.of_nat i - Z.of_nat l) with
               | Some k => nth k xs fill
               | None => fill
               end) (seq 0 (l + len + r)))
  else Raise (RuntimeError "Padding size should be less than the corresponding input dimension").

(** [F.pad(x, pad, mode)] on one channel: [pad] lists (left, right) pairs
    starting from the LAST axis. *)
Fixpoint F_pad (n : nat) : arr xreal n -> list nat -> pad_mode ->
                           res (arr xreal n) :=
  match n with
  | O => fun x _ _ => Ok x
  | S m => fun x pad mode =>
      let l := nth (2 * m) pad 0%nat in
      let r := nth (2 * m + 1) pad 0%nat in
      xs <- mapM (fun s => F_pad m s pad mode) x ;;
      pad_list mode l r
        (match xs with [] => adefault m | s :: _ => azeros_like m s end) xs
  end.

(* ----------------------------------------------------------------- *)
(** *** torch.nn.functional.conv{n}d *)

(** Cross-correlation of one channel with one kernel, no padding, stride 1:
    [out[i..] = sum_a w[a..] * x[i+a..]]. *)
Fixpoint corr (n : nat) : arr xreal n -> arr xreal n -> arr xreal n :=
  match n with
  | O => fun w x => xmul x w
  | S m => fun w x =>
      map (fun i =>
             asum m (map (fun a => corr m (nth a w (adefault m))
                                          (nth (i + a) x (adefault m)))
                         (seq 0 (length w))))
          (seq 0 (length x + 1 - length w))
  end.

Fixpoint forallb2 {A B : Type} (f : A -> B -> bool) (l1 : list A)
  (l2 : list B) : bool :=
  match l1, l2 with
  | [], [] => true
  | a :: t1, b :: t2 => f a b && forallb2 f t1 t2
  | _, _ => false
  end.

Definition corr_checked (n : nat) (w x : arr xreal n) : res (arr xreal n) :=
  if forallb2 (fun k d => (1 <=? k)%nat && (k <=? d)%nat)
              (ashape n w) (ashape n x)
  then Ok (corr n w x)
  else Raise (RuntimeError "Kernel size can't be greater than actual input size").

(** [F.conv{n}d(x, weight, padding=padding, groups=groups)], stride and
    dilation 1, no bias.  [weight] has shape [C_out, C_in/groups, *kernel];
    [padding] gives the zero padding of each spatial axis, first axis
    first. *)
Definition F_conv (n : nat) (x : tensor n) (weight : list (list (arr xreal n)))
  (padding : list nat) (groups : nat) : res (tensor n) :=
  let c_in := length x in
  let c_out := length weight in
  let per_group := (c_in / groups)%nat in
  if ((groups =? 0) || negb (c_in mod groups =? 0)
      || negb (c_out mod groups =? 0)
      || negb (forallb (fun w => length w =? per_group) weight))%nat
  then Raise (RuntimeError "invalid channels or groups for convolution")
  else
    let pad := flat_map (fun p => [p; p]) (rev padding) in
    xp <- mapM (fun c => F_pad n c pad Constant) x ;;
    mapM (fun o =>
            let g := (o / (c_out / groups))%nat in
            let w := nth o weight [] in
            terms <- mapM (fun c =>
                             corr_checked n (nth c w (adefault n))
                               (nth (g * per_group + c) xp (adefault n)))
                          (seq 0 per_group) ;;
            Ok (asum n terms))
         (seq 0 c_out).

(** [kernel.view(1, 1, ..., -1, ..., 1)]: a 1D kernel laid along spatial
    axis [dim] of an [n]-axis weight. *)
Fixpoint aconst (n : nat) (v : xreal) : arr xreal n :=
  match n with
  | O => v
  | S m => [aconst m v]
  end.

Fixpoint view_axis (n : nat) (dim : nat) (k : list xreal) : arr xreal n :=
  match n with
  | O => hd (Fin 0) k
  | S m => match dim with
           | O => map (aconst m) k
           | S d => [view_axis m d k]
           end
  end.

(* ================================================================= *)
(** ** filters.py: kernels and separable filtering *)

(** [torch.arange(a, b)] with integer bounds. *)
Definition arange_int (a b : Z) : res (list xreal) :=
  if (b <? a)%Z
  then Raise (RuntimeError "upper bound and larger bound inconsistent with step sign")
  else Ok (map (fun i => Fin (IZR (a + Z.of_nat i)))
               (seq 0 (Z.to_nat (b - a)))).

Definition _gaussian_kernel_1d (sigma : R) (order : Z) (truncate : R)
  : res (list xreal) :=
  (* Set the size of the kernel according to the sigma *)
  let radius := Zceil (sigma * truncate) in
  x <- arange_int (- radius) (radius + 1) ;;
  (* Initialize the zeroth-order Gaussian kernel *)
  let var := Fin (sigma ^ 2) in
  let g := map (fun xi =>
                  xdiv (xexp (xdiv (xneg (xsquare xi)) (xmul (Fin 2) var)))
                       (Fin (sqrt (2 * PI) * sigma))) x in
  (* Optionally convert to a higher-order kernel *)
  if (order =? 0)%Z then Ok g
  else if (order =? 1)%Z then
    let g1 := map2 xmul g (map (fun xi => xdiv (xneg xi) var) x) in
    let m := xmean g1 in
    let g1 := map (fun v => xsub v m) g1 in
    let c := xdiv (xsum (map2 xmul g1 x)) (Fin (-1)) in
    let g1 := map (fun v => xdiv v c) g1 in
    Ok g1
  else if (order =? 2)%Z then
    let g2 := map2 (fun gi xi =>
                      xdiv (xmul gi (xsub (xdiv (xsquare xi) var) (Fin 1))) var)
                   g x in
    let m := xmean g2 in
    let g2 := map (fun v => xsub v m) g2 in
    let c := xdiv (xsum (map2 xmul g2 (map xsquare x))) (Fin 2) in
    let g2 := map (fun v => xdiv v c) g2 in
    Ok g2
  else Raise (NotImplementedError "Only supports order in [0, 1, 2]").

(** [l[idx] = v] (inside the list). *)
Fixpoint list_set {A : Type} (l : list A) (idx : nat) (v : A) : list A :=
  match l, idx with
  | [], _ => []
  | _ :: t, O => v :: t
  | a :: t, S i => a :: list_set t i v
  end.

Definition _conv (n : nat) (img : tensor n) (sigma : R) (order : Z)
  (truncate : R) (mode : pad_mode) (dim : nat) : res (tensor n) :=
  (* Make a 1D kernel and pad such that the image size remains the same *)
  kernel <- _gaussian_kernel_1d sigma order truncate ;;
  let padding := (length kernel / 2)%nat in
  (* Specify the padding dimensions *)
  let pad := repeat 0%nat (2 * n) in
  let pad := fold_left (fun p idx => list_set p idx padding)
                       (seq (2 * dim) 2) pad in
  let pad := rev pad in
  x <- mapM (fun c => F_pad n c pad mode) img ;;
  (* Specify the dimension along which to do the convolution *)
  F_conv n x [[view_axis n dim kernel]] (repeat 0%nat n) 1.

(** The [order] argument: one integer for all axes, or one per axis. *)
Definition gaussian_filter (n : nat) (img : tensor n) (sigma : R)
  (order : Z + list Z) (mode : pad_mode) (truncate : R) : res (tensor n) :=
  let ndim := n in
  order <- match order with
           | inl o => Ok (repeat o ndim)
           | inr l =>
               if (length l =? ndim)%nat then Ok l
               else Raise (AssertionError "Specify the Gaussian derivative order for each dim")
           end ;;
  (* Convolve along the rows, columns, and depth (optional) *)
  fold_left (fun acc '(dim, derivative_order) =>
               img <- acc ;;
               _conv n img sigma derivative_order truncate mode dim)
            (combine (seq 0 (length order)) order) (Ok img).

(* ================================================================= *)
(** ** filters.py: the Hessian *)

Definition _hessian_2d (n : nat) (img : tensor n) (sigma : R)
  (truncate : R) (mode : pad_mode) : res (list (tensor n)) :=
  xx <- gaussian_filter n img sigma (inr [0; 2]%Z) mode truncate ;;
  yy <- gaussian_filter n img sigma (inr [2; 0]%Z) mode truncate ;;
  xy <- gaussian_filter n img sigma (inr [1; 1]%Z) mode truncate ;;
  Ok [xx; xy; yy].

(** [img.expand(-1, k, -1, -1, -1)]: only a size-1 channel axis expands. *)
Definition expand_channels (n : nat) (k : nat) (img : tensor n)
  : res (tensor n) :=
  match img with
  | [c] => Ok (repeat c k)
  | _ => if (length img =? k)%nat then Ok img
         else Raise (RuntimeError "The expanded size of the tensor must match the existing size")
  end.

Definition _hessian_3d (img : tensor 3) (sigma : R) (truncate : R)
  (mode : pad_mode) : res (list (tensor 3)) :=
  (* Precompute 1D kernels for the zeroth, first, and second derivatives *)
  g0 <- _gaussian_kernel_1d sigma 0 truncate ;;
  g1 <- _gaussian_kernel_1d sigma 1 truncate ;;
  g2 <- _gaussian_kernel_1d sigma 2 truncate ;;
  let padding := (length g0 / 2)%nat in
  (* Fuse individual kernels into a multi-channel 1D kernel *)
  let kx := map (fun g => [view_axis 3 2 g]) [g2; g1; g1; g0; g0; g0] in
  let ky := map (fun g => [view_axis 3 1 g]) [g0; g1; g0; g2; g1; g0] in
  let kz := map (fun g => [view_axis 3 0 g]) [g0; g0; g1; g0; g1; g2] in
  (* Run vectorized convolutions over each dimension *)
  x <- expand_channels 3 6 img ;;
  x <- F_conv 3 x kx [padding; 0; 0]%nat 6 ;;
  x <- F_conv 3 x ky [0; padding; 0]%nat 6 ;;
  x <- F_conv 3 x kz [0; 0; padding]%nat 6 ;;
  Ok (map (fun c => [c]) x).

Definition _hessian_as_matrix (n : nat) (args : list (tensor n))
  : res (list (tensor n)) :=
  match args with
  | [xx; xy; yy] =>
      Ok [ xx ++ xy;
           xy ++ yy ]
  | [xx; xy; xz; yy; yz; zz] =>
      Ok [ xx ++ xy ++ xz;
           xy ++ yy ++ yz;
           xz ++ yz ++ zz ]
  | _ => Raise (ValueError "Invalid number of arguments")
  end.

(** What [hessian] returns: the tuple of triangular components, or (with
    [as_matrix]) the tensor of shape [1, C, C, *spatial], a list of rows. *)
Inductive hessian_result (n : nat) : Type :=
| Components (H : list (tensor n))
| Matrix (A : list (tensor n)).

Arguments Components {n} H.
Arguments Matrix {n} A.

(** The dispatch of [hessian] on [img.ndim] (here [n + 2]). *)
Definition hessian_components (n : nat)
  : tensor n -> R -> R -> pad_mode -> res (list (tensor n)) :=
  match n with
  | 2%nat => fun img sigma truncate mode => _hessian_2d 2 img sigma truncate mode
  | 3%nat => fun img sigma truncate mode => _hessian_3d img sigma truncate mode
  | _ => fun _ _ _ _ => Raise (ValueError "img can only be 2D or 3D")
  end.

Definition hessian (n : nat) (img : tensor n) (sigma : R) (as_matrix : bool)
  (truncate : R) (mode : pad_mode) : res (hessian_result n) :=
  hessian <- hessian_components n img sigma truncate mode ;;
  if as_matrix then
    A <- _hessian_as_matrix n hessian ;; Ok (Matrix A)
  else Ok (Components hessian).

(* ================================================================= *)
(** ** linalg.py on tensors, and hessian_eigenvalues *)

(** A pixelwise function of the channels of single-channel tensors,
    applied at every pixel.  The result is the tensor [1, C, *spatial] read
    pixel by pixel: an array of channel vectors. *)
Definition at_pixels (n : nat) (f : list xreal -> list xreal)
  (args : list (tensor n)) : arr (list xreal) n :=
  amap f n (pixels n (concat args)).

Definition eigvalsh2_px (px : list xreal) : list xreal :=
  match px with
  | [ii; ij; jj] => eigvalsh2 ii ij jj
  | _ => []
  end.

Definition eigvalsh3_px (px : list xreal) : list xreal :=
  match px with
  | [ii; ij; ik; jj; jk; kk] => eigvalsh3 ii ij ik jj jk kk eigvalsh3_eps
  | _ => []
  end.

(** [torch.triu_indices(k, k)], as (row, column) pairs. *)
Definition triu_indices (k : nat) : list (nat * nat) :=
  flat_map (fun i => map (fun j => (i, j)) (seq i (k - i))) (seq 0 k).

(** [A[:, *torch.triu_indices(k, k)].split(1, dim=1)] *)
Definition triu_split (n : nat) (k : nat) (A : list (tensor n))
  : res (list (tensor n)) :=
  mapM (fun '(i, j) =>
          match nth_error A i with
          | Some row => match nth_error row j with
                        | Some c => Ok [c]
                        | None => Raise (IndexError "index out of range")
                        end
          | None => Raise (IndexError "index out of range")
          end) (triu_indices k).

Definition _is_square (n : nat) (A : list (tensor n)) : res unit :=
  let i := length A in
  let j := length (hd [] A) in
  if (i =? j)%nat then Ok tt else Raise (AssertionError "Matrix is not square").

(** [torch.testing.assert_close] on float32: rtol 1.3e-6, atol 1e-5. *)
Definition is_close (a b : xreal) : bool :=
  match a, b with
  | Fin x, Fin y => Rleb (Rabs (x - y)) (/ 10 ^ 5 + 13 / 10 ^ 7 * Rabs y)
  | PInf, PInf | NInf, NInf => true
  | _, _ => false
  end.

Definition _is_hermitian (n : nat) (A : list (tensor n)) : res unit :=
  let k := length A in
  let entry i j := nth j (nth i A []) (adefault n) in
  if forallb (fun '(i, j) =>
                forallb2 is_close (aflat n (entry i j)) (aflat n (entry j i)))
             (list_prod (seq 0 k) (seq 0 k))
  then Ok tt else Raise (AssertionError "Matrix is not Hermitian").

Definition eigvalsh (n : nat) (A : list (tensor n)) (check_valid : bool)
  : res (arr (list xreal) n) :=
  _ <- (if check_valid
        then _ <- _is_square n A ;; _is_hermitian n A
        else Ok tt) ;;
  if (length A =? 2)%nat then
    H <- triu_split n 2 A ;; Ok (at_pixels n eigvalsh2_px H)
  else if (length A =? 3)%nat then
    H <- triu_split n 3 A ;; Ok (at_pixels n eigvalsh3_px H)
  else Raise (ValueError "Only supports 2x2 and 3x3 matrices").

(** [keys.argsort()] : indices in ascending order of the keys (insertion
    sort, stable; NaN last as [torch.sort] has it). *)
Fixpoint insert_by (key : nat -> xreal) (i : nat) (l : list nat) : list nat :=
  match l with
  | [] => [i]
  | j :: t => if sort_leb (key i) (key j) then i :: l
              else j :: insert_by key i t
  end.

Definition argsort (keys : list xreal) : list nat :=
  fold_right (insert_by (fun k => nth k keys NaN)) []
             (seq 0 (length keys)).

(** [torch.take_along_dim(vals, idx, dim)] on the channels of one pixel. *)
Definition take_along_dim (vals : list xreal) (idx : list nat) : list xreal :=
  map (fun i => nth i vals NaN) idx.

Definition sort_by_abs (eig : list xreal) : list xreal :=
  take_along_dim eig (argsort (map xabs eig)).

(** [hessian_eigenvalues] passes its keywords on to [hessian]; with
    [as_matrix = True] among them it calls [eigvalsh2] or [eigvalsh3] on
    blocks that have more than one channel.  The two functions on such
    blocks, at one pixel: each block gives the vector of its [c] channels,
    [concat] and [sum] run along the channels, and an operation between
    tensors of [c] and of another number of channels broadcasts. *)
Definition channels_compatible (c1 c2 : nat) : bool :=
  ((c1 =? c2) || (c1 =? 1) || (c2 =? 1))%nat.

Definition broadcast_channels (f : xreal -> xreal -> xreal)
  (a b : list xreal) : list xreal :=
  if (length a =? length b)%nat then map2 f a b
  else if (length a =? 1)%nat then map (f (hd NaN a)) b
  else map (fun x => f x (hd NaN b)) a.

Definition eigvalsh2_blocks (ii ij jj : list xreal) : list xreal :=
  let tr := map2 xadd ii jj in
  let det := map2 xsub (map2 xmul ii jj) (map xsquare ij) in
  let disc := map (fun v => xsqrt (xclamp_min 0 v))
                  (map2 xsub (map xsquare tr) (map (xmul (Fin 4)) det)) in
  let disc := map xneg disc ++ disc in
  let eigvals := map (fun v => xdiv v (Fin 2))
                     (broadcast_channels xadd tr disc) in
  eigvals.

Definition eigvalsh3_blocks (ii ij ik jj jk kk : list xreal) (eps : R)
  : list xreal :=
  let diag := ii ++ jj ++ kk in
  let triu := ij ++ ik ++ jk in
  let q := xdiv (xsum diag) (Fin 3) in
  let p1 := xsum (map xsquare triu) in
  let p2 := xsum (map (fun d => xsquare (xsub d q)) diag) in
  let p := xsqrt (xdiv (xadd (xmul (Fin 2) p1) p2) (Fin 6)) in
  let eigs :=
    map (fun t =>
           let ch l := nth t l NaN in
           let r := xdiv (xdiv (deth3 (xsub (ch ii) q) (ch ij) (ch ik)
                                      (xsub (ch jj) q) (ch jk)
                                      (xsub (ch kk) q))
                               (xadd (xpow3 p) (Fin eps))) (Fin 2) in
           let r := xclamp (-1) 1 r in
           let phi := xdiv (xarccos r) (Fin 3) in
           let eig3 := xadd q (xmul (xmul (Fin 2) p) (xcos phi)) in
           let eig1 := xadd q (xmul (xmul (Fin 2) p)
                                    (xcos (xadd phi (Fin (2 * PI / 3))))) in
           let eig2 := xsub (xsub (xmul (Fin 3) q) eig1) eig3 in
           (eig1, eig2, eig3))
        (seq 0 (length ii)) in
  map (fun e => fst (fst e)) eigs ++ map (fun e => snd (fst e)) eigs
    ++ map snd eigs.

(** A pixelwise function of the channel vectors of blocks of shape
    [k, c, *spatial] (each block the list of its k tensors), at every
    pixel of every one of the k tensors. *)
Definition at_block_pixels (n : nat) (f : list (list xreal) -> list xreal)
  (blocks : list (list (tensor n))) : list (arr (list xreal) n) :=
  map (fun i => amap f n (azip n (map (fun b => pixels n (nth i b [])) blocks)))
      (seq 0 (length (hd [] blocks))).

Definition eigvalsh2_on_blocks (n : nat) (ii ij jj : list (tensor n))
  : res (list (arr (list xreal) n)) :=
  (* tr, det and disc have the c channels of the blocks,
     concat([-disc, disc]) has 2 c: tr + disc is between c and 2 c *)
  let c := length (hd [] ii) in
  if channels_compatible c (2 * c) then
    Ok (at_block_pixels n
          (fun px => eigvalsh2_blocks (nth 0 px []) (nth 1 px [])
                                      (nth 2 px []))
          [ii; ij; jj])
  else Raise (RuntimeError "The size of tensor a must match the size of tensor b at non-singleton dimension 1").

Definition eigvalsh3_on_blocks (n : nat) (ii ij ik jj jk kk : list (tensor n))
  (eps : R) : list (arr (list xreal) n) :=
  at_block_pixels n
    (fun px => eigvalsh3_blocks (nth 0 px []) (nth 1 px []) (nth 2 px [])
                                (nth 3 px []) (nth 4 px []) (nth 5 px [])
                                eps)
    [ii; ij; ik; jj; jk; kk].

(** What [hessian] returned, read as the tuple of components or as the
    rows of the matrix. *)
Definition components {n : nat} (h : hessian_result n) : list (tensor n) :=
  match h with
  | Components H => H
  | Matrix _ => []
  end.

Definition matrix_rows {n : nat} (h : hessian_result n) : list (tensor n) :=
  match h with
  | Matrix A => A
  | Components _ => []
  end.

(** [hessian_eigenvalues(img, sigma, **kwargs)], the keywords being
    [as_matrix], [truncate] and [mode].  The result, of shape
    [B, C, *spatial], is the list of its B images, each given pixel by
    pixel. *)
Definition hessian_eigenvalues (n : nat) (img : batch n) (sigma : R)
  (as_matrix : bool) (truncate : R) (mode : pad_mode)
  : res (list (arr (list xreal) n)) :=
  H <- mapM (fun im => hessian n im sigma as_matrix truncate mode)
            (images img) ;;
  eig <- (if as_matrix then
            (* H is the tensor [B, k, k, *spatial]: len(H) is B, and *H
               are its B matrices, blocks of shape [k, k, *spatial] *)
            let H := map matrix_rows H in
            if (length H =? 3)%nat then
              eigvalsh2_on_blocks n (nth 0 H []) (nth 1 H []) (nth 2 H [])
            else if (length H =? 6)%nat then
              Ok (eigvalsh3_on_blocks n (nth 0 H []) (nth 1 H []) (nth 2 H [])
                                      (nth 3 H []) (nth 4 H []) (nth 5 H [])
                                      eigvalsh3_eps)
            else Raise (ValueError "Unrecognized number of upper triangular elements")
          else
            (* H is the tuple of the components, blocks of shape
               [B, 1, *spatial]: len(H) is their number, and the
               eigenvalues of an image come from its own components *)
            mapM (fun H =>
                    if (length H =? 3)%nat then
                      Ok (at_pixels n eigvalsh2_px H)
                    else if (length H =? 6)%nat then
                      Ok (at_pixels n eigvalsh3_px H)
                    else Raise (ValueError "Unrecognized number of upper triangular elements"))
                 (map components H)) ;;
  (* Sort the eigenvalues such that |lambda[1]| <= ... <= |lambda[n]| *)
  Ok (map (amap sort_by_abs n) eig).

(* ================================================================= *)
(** ** filters.py: frangi *)

(** [torch.arange(start, stop, step)] with real arguments. *)
Definition torch_arange (start stop step : R) : res (list R) :=
  if Reqb step 0 then Raise (RuntimeError "step must be nonzero")
  else if (Rltb 0 step && Rltb stop start) || (Rltb step 0 && Rltb start stop)
  then Raise (RuntimeError "upper bound and larger bound inconsistent with step sign")
  else Ok (map (fun i => start + INR i * step)
               (seq 0 (Z.to_nat (Zceil ((stop - start) / step))))).

(** The shape of a batch, and [torch.zeros_like(image)]. *)
Definition batch_dims (n : nat) (image : batch n) : list nat :=
  length (images image) :: length (first_image image)
    :: match first_image image with
       | [] => repeat 0%nat n
       | c :: _ => ashape n c
       end.

Definition zeros_like (n : nat) (image : batch n) : shaped :=
  let d := batch_dims n image in
  Shaped d (repeat (Fin 0) (numel d)).

(** The tensor [B, C, *spatial] that [hessian_eigenvalues] returned, with
    its shape. *)
Definition eig_tensor (n : nat) (E : list (arr (list xreal) n)) : shaped :=
  match E with
  | [] => Shaped (repeat 0%nat (S (S n))) []
  | e :: _ =>
      let C := length (hd [] (aflat n e)) in
      Shaped (length E :: C :: ashape n e)
             (flat_map (fun e =>
                          flat_map (fun c =>
                                      map (fun px => nth c px NaN) (aflat n e))
                                   (seq 0 C))
                       E)
  end.

(** [t.max()] over all entries. *)
Definition tensor_max (t : list xreal) : res xreal :=
  match t with
  | [] => Raise (RuntimeError "max(): Expected reduction dim to be specified for input.numel() == 0")
  | a :: l => Ok (fold_left xmaximum l a)
  end.

(** The ratios (r_a, r_b) at one position, from the vector of the
    eigenvalue tensor along axis 0, sorted by magnitude.
    [eigenvalues[1:]] unpacks into one tensor in the 2D branch and into
    two in the 3D branch. *)
Definition frangi_ratios (n : nat) (eps : R) (eigenvalues : list xreal)
  : xreal * xreal :=
  let lambda1 := nth 0 eigenvalues NaN in
  let floored := map (fun v => xmaximum v (Fin eps)) (tl eigenvalues) in
  if (n =? 2)%nat then
    let lambda2 := nth 0 floored NaN in
    let r_a := PInf in
    let r_b := xabs (xdiv lambda1 lambda2) in            (* eq 15 *)
    let r_b := nan_to_num r_b in
    (r_a, r_b)
  else
    let lambda2 := nth 0 floored NaN in
    let lambda3 := nth 1 floored NaN in
    let r_a := xdiv lambda2 lambda3 in                   (* eq 11 *)
    let r_b := xdiv (xabs lambda1) (xsqrt (xmul lambda2 lambda3)) in (* eq 10 *)
    (r_a, r_b).

(** The three factors of the response at one position. *)
Definition frangi_response (r_a r_b s : xreal) (alpha beta : R)
  (gamma_t : xreal) (eps : R) : xreal :=
  let result :=
    xsub (Fin 1) (xexp (xdiv (xneg (xsquare r_a))
                             (xmul (Fin 2) (xsquare (Fin alpha))))) in
  let result :=
    xmul result (xexp (xdiv (xneg (xsquare r_b))
                            (xadd (xmul (Fin 2) (xsquare (Fin beta)))
                                  (Fin eps)))) in
  let result :=
    xmul result
         (xsub (Fin 1) (xexp (xdiv (xneg (xsquare s))
                                   (xadd (xmul (Fin 2) (xsquare gamma_t))
                                         (Fin eps))))) in
  result.

(** The body of the loop over the scales, from the result of
    [hessian_eigenvalues] to [result].  After [squeeze] the first axis of
    the eigenvalue tensor is the first of its axes that is not of size 1:
    the channels for a batch of one image, the images of the batch
    otherwise.  The second sort, [eigenvalues[0]], [eigenvalues[1:]] and
    [sum(dim=0)] run along this axis; the tensor is read as the vectors
    along axis 0, one for each position of the other axes [rest], and
    every other statement but [eigenvalues.max()] is elementwise over
    these positions. *)
Definition frangi_scale (n : nat) (eigenvalues : list (arr (list xreal) n))
  (alpha beta : R) (gamma : option R) (eps : R) : res shaped :=
  let eigenvalues := squeeze (eig_tensor n eigenvalues) in
  match dims eigenvalues with
  | [] => Raise (IndexError "invalid index of a 0-dim tensor")
  | d0 :: rest =>
      let m := numel rest in
      let along0 :=
        map (fun j => map (fun i => nth (i * m + j) (entries eigenvalues) NaN)
                          (seq 0 d0))
            (seq 0 m) in
      let eigenvalues := map sort_by_abs along0 in
      (* lambda1 = eigenvalues[0] *)
      if (d0 =? 0)%nat then
        Raise (IndexError "index 0 is out of bounds for dimension 0 with size 0")
      else
        (* (lambda2,) = ... or lambda2, lambda3 = ... *)
        let expected := if (n =? 2)%nat then 1%nat else 2%nat in
        if (d0 - 1 <? expected)%nat then
          Raise (ValueError "not enough values to unpack")
        else if (expected <? d0 - 1)%nat then
          Raise (ValueError "too many values to unpack")
        else
          let ratios := map (frangi_ratios n eps) eigenvalues in
          let eigenvalues :=
            map (fun e => xsqrt (xsum (map xsquare e))) eigenvalues in (* eq 12 *)
          gamma_t <- match gamma with
                     | None =>
                         m <- tensor_max eigenvalues ;;
                         let gamma_t := xdiv m (Fin 2) in
                         Ok (if xeqb gamma_t (Fin 0) then Fin 1 else gamma_t)
                     | Some g => Ok (Fin g)
                     end ;;
          Ok (Shaped rest
                (map2 (fun '(r_a, r_b) s =>
                         frangi_response r_a r_b s alpha beta gamma_t eps)
                      ratios eigenvalues))
  end.

(** [torch.maximum(filtered_max, result)] *)
Definition torch_maximum (filtered_max result : shaped) : res shaped :=
  broadcast2 xmaximum filtered_max result.

(** The defaults of the keyword arguments of [frangi], and of the
    [truncate] and [mode] keywords of [hessian]. *)
Definition default_sigma_range : R * R := (1, 10).
Definition default_scale_step : R := 2.
Definition default_alpha : R := 1 / 2.
Definition default_beta : R := 1 / 2.
Definition default_eps : R := / 10 ^ 10.
Definition default_truncate : R := 4.
Definition default_mode : pad_mode := Reflect.

(** What the loop has started so far: one entry per call of
    [hessian_eigenvalues], the only place of [frangi] where convolutions
    and eigenvalues are computed. *)
Inductive event : Type :=
| HessianEigenvalues (sigma : R).

Fixpoint frangi_loop (n : nat) (image : batch n) (alpha beta : R)
  (gamma : option R) (eps : R) (sigmas : list R) (filtered_max : shaped)
  (log : list event) : list event * res shaped :=
  match sigmas with
  | [] => (log, Ok filtered_max)
  | sigma :: rest =>
      let log := log ++ [HessianEigenvalues sigma] in
      match (eigenvalues <- hessian_eigenvalues n image sigma false
                              default_truncate default_mode ;;
             result <- frangi_scale n eigenvalues alpha beta gamma eps ;;
             torch_maximum filtered_max result) with
      | Raise e => (log, Raise e)
      | Ok filtered_max =>
          frangi_loop n image alpha beta gamma eps rest filtered_max log
      end
  end.

(** The sigmas of a scale specification: [sigmas] when a list is given,
    the range [sigma_range], [scale_step] otherwise. *)
Definition scale_sigmas (sigma_range : R * R) (scale_step : R)
  (sigmas : option (list R)) : res (list R) :=
  match sigmas with
  | Some l => Ok l
  | None => torch_arange (fst sigma_range) (snd sigma_range) scale_step
  end.

(** [frangi], with the log of the work it started. *)
Definition frangi_run (n : nat) (image : batch n) (sigma_range : R * R)
  (scale_step : R) (sigmas : option (list R)) (alpha beta : R)
  (gamma : option R) (eps : R) : list event * res shaped :=
  if negb ((n =? 2) || (n =? 3))%nat then
    ([], Raise (ValueError "input image must be 2D or 3D with shape [B C H W] or [B C D H W]"))
  else
    (* if sigmas is not provided, generate them *)
    match scale_sigmas sigma_range scale_step sigmas with
    | Raise e => ([], Raise e)
    | Ok sigmas =>
        if existsb (fun s => Rltb s 0) sigmas then
          ([], Raise (ValueError "Sigma values must be positive"))
        else
          let filtered_max := zeros_like n image in
          frangi_loop n image alpha beta gamma eps sigmas filtered_max []
    end.

Definition frangi (n : nat) (image : batch n) (sigma_range : R * R)
  (scale_step : R) (sigmas : option (list R)) (alpha beta : R)
  (gamma : option R) (eps : R) : res shaped :=
  snd (frangi_run n image sigma_range scale_step sigmas alpha beta gamma eps).

(* ================================================================= *)
(** ** Vocabulary of the statements *)

(** Ascending by absolute value, in the order [torch.sort] uses. *)
Definition abs_le (a b : xreal) : Prop := sort_leb (xabs a) (xabs b) = true.
Definition abs_ascending (l : list xreal) : Prop := StronglySorted abs_le l.

(** The eigenvalues of the Hessian at every pixel, as [eigvalsh2] (2D) and
    [eigvalsh3] (3D) give them for the tuple of components. *)
Definition unsorted_eigenvalues (n : nat) (H : list (tensor n))
  : arr (list xreal) n :=
  at_pixels n (if (n =? 2)%nat then eigvalsh2_px else eigvalsh3_px) H.

(** The error of the check on the sigmas. *)
Definition sigma_error : exn := ValueError "Sigma values must be positive".
Definition never_sigma {A : Type} (m : res A) : Prop := m <> Raise sigma_error.

(** The floor of lambda2 as the specification words it: the magnitude
    raised to at least [eps], the sign kept. *)
Definition floor_magnitude (eps lambda2 : R) : R :=
  if Rltb lambda2 0 then - Rmax (- lambda2) eps else Rmax lambda2 eps.

Definition r_b_claimed (eps lambda1 lambda2 : R) : R :=
  Rabs (lambda1 / floor_magnitude eps lambda2).

(** Sums, means and moments of real coefficient lists, summed in the
    order [xsum] sums. *)
Definition Rsum (l : list R) : R := fold_left Rplus l 0.
Definition Rmean (l : list R) : R := Rsum l / INR (length l).
Definition moment (k y : list R) : R := Rsum (map2 Rmult k y).
Definition squares (X : list R) : list R := map (fun v => v * v) X.

(** The sample coordinates [-radius .. radius] and the sampled density. *)
Definition samples (radius : Z) : list R :=
  map (fun i => IZR (- radius + Z.of_nat i))
      (seq 0 (Z.to_nat (radius + 1 - - radius))).

(** The float32 value of [exp x] for [x <= 0]: the exponential, or 0 where
    it underflows. *)
Definition exp32 (x : R) : R :=
  if Rleb (exp x) float32_tiny then 0 else exp x.

Definition gauss (sigma x : R) : R :=
  exp32 (- (x * x) / (2 * sigma ^ 2)) / (sqrt (2 * PI) * sigma).

Definition raw1 (sigma x : R) : R := gauss sigma x * (- x / sigma ^ 2).
Definition raw2 (sigma x : R) : R :=
  gauss sigma x * (x * x / sigma ^ 2 + - (1)) / sigma ^ 2.

(** Subtract the mean, then rescale so that the moment against [y] is
    [d]: what the kernel builder does to a finite raw kernel. *)
Definition normalise (d : R) (raw y : list R) : list R :=
  let m := Rmean raw in
  let centred := map (fun v => v + - m) raw in
  let c := moment centred y / d in
  map (fun v => v / c) centred.


(** A 2D image of one pixel, and a 3D image of size 2 x 2 x 3 with a ridge
    along its middle column. *)
Definition pixel_image (v : R) : tensor 2 := [[[Fin v]]].

Definition ridge : tensor 3 :=
  [ [ [ [Fin 0; Fin 1; Fin 0]; [Fin 0; Fin 1; Fin 0] ];
      [ [Fin 0; Fin 1; Fin 0]; [Fin 0; Fin 1; Fin 0] ] ] ].

(** Entry [idx] of component [k] of a tuple of single-channel tensors. *)
Definition component (H : list (tensor 3)) (k : nat) (idx : list nat)
  : xreal :=
  aget 3 (hd (adefault 3) (nth k H [])) idx.

(* ================================================================= *)
(** ** Vocabulary of the further properties *)

(** The determinant of the symmetric matrix
    [[a, b, c], [b, d, e], [c, e, f]], expanded along its first row. *)
Definition sym_det3 (a b c d e f : R) : R :=
  a * (d * f - e * e) - b * (b * f - e * c) + c * (b * e - d * c).

(** No entry of the array is NaN. *)
Definition no_nan (n : nat) (c : arr xreal n) : Prop :=
  Forall (fun v => v <> NaN) (aflat n c).

(** The response of one scale, and one turn of the loop of [frangi]: the
    response of the scale, then the update of the running maximum. *)
Definition frangi_scale_at (n : nat) (image : batch n) (alpha beta : R)
  (gamma : option R) (eps : R) (sigma : R) : res shaped :=
  eigenvalues <- hessian_eigenvalues n image sigma false
                   default_truncate default_mode ;;
  frangi_scale n eigenvalues alpha beta gamma eps.

Definition running_max (n : nat) (image : batch n) (alpha beta : R)
  (gamma : option R) (eps : R) (filtered_max : res shaped) (sigma : R)
  : res shaped :=
  filtered_max <- filtered_max ;;
  result <- frangi_scale_at n image alpha beta gamma eps sigma ;;
  torch_maximum filtered_max result.

(** A shape that broadcasts to another of the same rank: every size is
    the size of the other shape, or 1. *)
Definition broadcasts_to (s d : list nat) : Prop :=
  Forall2 (fun x y => x = y \/ x = 1%nat) s d.

(** A multi-index of a shape: every component is below the size of its
    axis. *)
Definition index_of (idx d : list nat) : Prop :=
  Forall2 (fun i s => (i < s)%nat) idx d.

(** The multi-index at which a tensor of shape [d] is read when position
    [idx] of a broadcast result is computed. *)
Definition clamp (d idx : list nat) : list nat :=
  map2 (fun s i => if (s =? 1)%nat then 0%nat else i) d idx.

(** A response value: a number of [0, 1], or NaN. *)
Definition unit_or_nan (v : xreal) : Prop :=
  v = NaN \/ exists x, v = Fin x /\ 0 <= x <= 1.

(** An exponent of the response: NaN, -inf or a number that is not
    positive. *)
Definition nonpos_or_nan (v : xreal) : Prop :=
  v = NaN \/ v = NInf \/ exists x, v = Fin x /\ x <= 0.

(** An array is rectangular with the axis sizes [sh]. *)
Fixpoint has_shape {A : Type} (n : nat) : list nat -> arr A n -> Prop :=
  match n with
  | O => fun sh _ => sh = []
  | S m => fun sh x =>
      match sh with
      | [] => False
      | d :: sh' => @length (arr A m) x = d
                    /\ @Forall (arr A m) (has_shape m sh') x
      end
  end.

(** No axis is empty. *)
Definition positive (sh : list nat) : Prop := Forall (fun d => (1 <= d)%nat) sh.

(** The shape after [F.pad(x, pad)]. *)
Fixpoint padded (n : nat) (sh pad : list nat) : list nat :=
  match n, sh with
  | S m, d :: sh' =>
      (nth (2 * m) pad 0 + d + nth (2 * m + 1) pad 0)%nat :: padded m sh' pad
  | _, _ => []
  end.

(** The shape of [kernel.view(...)] with the kernel along axis [dim]. *)
Fixpoint kshape (n dim len : nat) : list nat :=
  match n with
  | O => []
  | S m => match dim with
           | O => len :: repeat 1%nat m
           | S d => 1%nat :: kshape m d len
           end
  end.

(** The pad list [_conv] builds. *)
Definition conv_pad (n dim padding : nat) : list nat :=
  rev (fold_left (fun p idx => list_set p idx padding)
                 (seq (2 * dim) 2) (repeat 0%nat (2 * n))).

(** What [F.pad] asks of an axis of size [d] padded by [r] on both
    sides. *)
Definition mode_fits (mode : pad_mode) (r d : nat) : Prop :=
  match mode with
  | Constant | Replicate => True
  | Reflect => (r < d)%nat
  | Circular => (r <= d)%nat
  end.

(** Every axis passes the size check of [F.pad]. *)
Fixpoint pad_fits (mode : pad_mode) (n : nat) (sh pad : list nat) : Prop :=
  match n, sh with
  | S m, d :: sh' =>
      pad_ok mode (nth (2 * m) pad 0%nat) (nth (2 * m + 1) pad 0%nat) d = true
      /\ pad_fits mode m sh' pad
  | _, _ => True
  end.

(** The loop of [gaussian_filter] over the axes. *)
Definition conv_step (n : nat) (sigma truncate : R) (mode : pad_mode)
  (acc : res (tensor n)) (p : nat * Z) : res (tensor n) :=
  let '(dim, derivative_order) := p in
  img <- acc ;; _conv n img sigma derivative_order truncate mode dim.

(** The pad list [F.conv3d] makes of its [padding] argument, the shape of
    a valid cross-correlation and its size check. *)
Definition conv_padding (padding : list nat) : list nat :=
  flat_map (fun p : nat => [p; p]) (rev padding).

Definition conv_out (n : nat) (sh pad ksh : list nat) : list nat :=
  map2 (fun d k => (d + 1 - k)%nat) (padded n sh pad) ksh.

Definition conv_fits (n : nat) (sh pad ksh : list nat) : bool :=
  forallb2 (fun k d => (1 <=? k)%nat && (k <=? d)%nat) ksh (padded n sh pad).

(** What the Hessian asks of the shape of an image: in 2D every axis
    passes the size check of the padding mode for the radius [r]; in 3D
    the last axis is longer than [2 * r], whatever the mode. *)
Definition hessian_fits (n : nat) (mode : pad_mode) (r : nat)
  (sh : list nat) : Prop :=
  match n with
  | 2%nat => Forall (mode_fits mode r) sh
  | 3%nat => (2 * r < nth 2 sh 0)%nat
  | _ => False
  end.

(** The array of shape [sh] with every entry [v]. *)
Fixpoint afill {A : Type} (n : nat) (sh : list nat) (v : A) : arr A n :=
  match n with
  | O => v
  | S m => match sh with
           | [] => []
           | d :: sh' => repeat (afill m sh' v) d
           end
  end.

(** The shape after a valid cross-correlation with a kernel of [len]
    coefficients along axis [dim]. *)
Fixpoint shrink (dim len : nat) (sh : list nat) : list nat :=
  match sh, dim with
  | [], _ => []
  | d :: sh', O => (d + 1 - len)%nat :: sh'
  | d :: sh', S k => d :: shrink k len sh'
  end.

(* ================================================================= *)
(** * Properties *)

(** ** The tensor primitives on small inputs *)

Section Primitives.

Variables a b c d : xreal.

Example pad_reflect :
  F_pad 1 [a; b; c] [2; 2]%nat Reflect = Ok [c; b; a; b; c; b; a].
Proof. reflexivity. Qed.

Example pad_replicate :
  F_pad 1 [a; b; c] [2; 1]%nat Replicate = Ok [a; a; a; b; c; c].
Proof. reflexivity. Qed.

Example pad_circular :
  F_pad 1 [a; b; c] [1; 2]%nat Circular = Ok [c; a; b; c; a; b].
Proof. reflexivity. Qed.

Example pad_constant_last_axis :
  F_pad 2 [[a; b]; [c; d]] [1; 0; 0; 0]%nat Constant
  = Ok [[Fin 0; a; b]; [Fin 0; c; d]].
Proof. reflexivity. Qed.

Example pad_reflect_too_wide :
  F_pad 1 [a; b] [2; 2]%nat Reflect
  = Raise (RuntimeError "Padding size should be less than the corresponding input dimension").
Proof. reflexivity. Qed.

Example view_middle_axis :
  view_axis 3 1 [a; b; c] = [[[a]; [b]; [c]]].
Proof. reflexivity. Qed.

Example triu_indices_3 :
  triu_indices 3 = [(0, 0); (0, 1); (0, 2); (1, 1); (1, 2); (2, 2)]%nat.
Proof. reflexivity. Qed.

Example pixels_of_channels :
  pixels 1 [[a; b]; [c; d]] = [[a; c]; [b; d]].
Proof. reflexivity. Qed.

End Primitives.

Example corr_valid :
  corr 1 [Fin 1; Fin 0; Fin (-1)] [Fin 1; Fin 2; Fin 4; Fin 7]
  = [Fin (1 * 1 + 2 * 0 + 4 * -1); Fin (2 * 1 + 4 * 0 + 7 * -1)].
Proof. reflexivity. Qed.

(* ================================================================= *)
(** ** Comparisons and finite arithmetic *)

Section XRealFacts.

Lemma Rltb_true (a b : R) : a < b -> Rltb a b = true.
Proof.
  intros H; unfold Rltb; destruct (Rlt_dec a b); [reflexivity | contradiction].
Qed.

Lemma Rltb_false (a b : R) : b <= a -> Rltb a b = false.
Proof. intros H; unfold Rltb; destruct (Rlt_dec a b); [lra | reflexivity]. Qed.

Lemma Rleb_true (a b : R) : a <= b -> Rleb a b = true.
Proof.
  intros H; unfold Rleb; destruct (Rle_dec a b); [reflexivity | contradiction].
Qed.

Lemma Reqb_true (a b : R) : a = b -> Reqb a b = true.
Proof.
  intros H; unfold Reqb; destruct (Req_dec_T a b); [reflexivity | contradiction].
Qed.

Lemma Reqb_false (a b : R) : a <> b -> Reqb a b = false.
Proof.
  intros H; unfold Reqb; destruct (Req_dec_T a b); [contradiction | reflexivity].
Qed.

Lemma xdiv_fin (a b : R) : b <> 0 -> xdiv (Fin a) (Fin b) = Fin (a / b).
Proof. intros H; simpl; now rewrite Reqb_false. Qed.

Lemma xdiv_zero_zero (a b : R) :
  a = 0 -> b = 0 -> xdiv (Fin a) (Fin b) = NaN.
Proof.
  intros -> ->. simpl. rewrite Reqb_true by reflexivity.
  unfold inf_of_sign. now rewrite !Rltb_false by lra.
Qed.

Lemma inf_of_sign_not_fin (v r : R) : inf_of_sign v <> Fin r.
Proof.
  unfold inf_of_sign. destruct (Rltb 0 v); [discriminate|].
  destruct (Rltb v 0); discriminate.
Qed.

Lemma xmul_nan_r (a : xreal) : xmul a NaN = NaN.
Proof. now destruct a. Qed.

Lemma xsqrt_fin (a : R) : 0 <= a -> xsqrt (Fin a) = Fin (sqrt a).
Proof. intros H; simpl; now rewrite Rltb_false. Qed.

Lemma xmaximum_fin (a b : R) : xmaximum (Fin a) (Fin b) = Fin (Rmax a b).
Proof.
  simpl. unfold Rltb, Rmax.
  destruct (Rlt_dec a b), (Rle_dec a b);
    try reflexivity; try lra; f_equal; lra.
Qed.

Lemma xminimum_fin (a b : R) : xminimum (Fin a) (Fin b) = Fin (Rmin a b).
Proof.
  simpl. unfold Rltb, Rmin.
  destruct (Rlt_dec b a), (Rle_dec a b);
    try reflexivity; try lra; f_equal; lra.
Qed.

Lemma xarccos_fin (a : R) : -1 <= a <= 1 -> xarccos (Fin a) = Fin (acos a).
Proof. intros [H1 H2]; simpl. now rewrite !Rleb_true. Qed.

Lemma sq_nonneg (x : R) : 0 <= x * x.
Proof. nra. Qed.

Lemma Rabs_div_pos (a b : R) : 0 < b -> Rabs (a / b) = Rabs a / b.
Proof.
  intros Hb. unfold Rdiv. rewrite Rabs_mult, Rabs_inv.
  now rewrite (Rabs_pos_eq b) by lra.
Qed.

Lemma Zceil_IZR (z : Z) : Zceil (IZR z) = z.
Proof. unfold Zceil. rewrite <- opp_IZR, ZfloorZ. lia. Qed.

Lemma Zceil_pos (x : R) : 0 < x -> (1 <= Zceil x)%Z.
Proof.
  intros Hx. pose proof (Zceil_bound x) as [_ Hb].
  assert (H : 0 < IZR (Zceil x)) by lra.
  apply lt_IZR in H. lia.
Qed.

Lemma pow10_pos (n : nat) : 0 < 10 ^ n.
Proof. apply pow_lt; lra. Qed.

Lemma default_eps_pos : 0 < default_eps.
Proof. unfold default_eps. apply Rinv_0_lt_compat, pow10_pos. Qed.

Lemma eigvalsh3_eps_pos : 0 < eigvalsh3_eps.
Proof. unfold eigvalsh3_eps. apply Rinv_0_lt_compat, pow10_pos. Qed.

Lemma float32_tiny_pos : 0 < float32_tiny.
Proof. unfold float32_tiny. apply Rinv_0_lt_compat, pow_lt. lra. Qed.

Lemma float32_huge_gt_1 : 1 < float32_huge.
Proof.
  unfold float32_huge.
  assert (H1 : 1 <= 2 ^ 127) by (apply pow_R1_Rle; lra).
  assert (H2 : 1 <= 2 ^ 24) by (apply pow_R1_Rle; lra).
  assert (H3 : / 2 ^ 24 <= 1).
  { rewrite <- Rinv_1. apply Rinv_le_contravar; lra. }
  nra.
Qed.

Lemma exp_INR (n : nat) : exp (INR n) = exp 1 ^ n.
Proof.
  induction n as [|n IH].
  - simpl. apply exp_0.
  - rewrite S_INR, exp_plus, IH. simpl. ring.
Qed.


(** An argument of at least -75 does not underflow, one of at most -150
    does. *)
Lemma exp_no_underflow (x : R) : -75 <= x -> float32_tiny < exp x.
Proof.
  intros Hx. unfold float32_tiny.
  assert (H75 : exp 75 < 2 ^ 150).
  { replace 75 with (INR 75) by (simpl; lra). rewrite exp_INR.
    replace (2 ^ 150) with ((2 ^ 2) ^ 75) by (rewrite <- pow_mult; reflexivity).
    replace (2 ^ 2) with 4 by (simpl; lra).
    apply Rle_lt_trans with (3 ^ 75).
    - apply pow_incr. split; [left; apply exp_pos | apply exp_le_3].
    - change (3 ^ 75) with (3 * 3 ^ 74). change (4 ^ 75) with (4 * 4 ^ 74).
      assert (0 < 3 ^ 74) by (apply pow_lt; lra).
      assert (3 ^ 74 <= 4 ^ 74) by (apply pow_incr; lra).
      nra. }
  apply Rlt_le_trans with (exp (Ropp 75)).
  - rewrite exp_Ropp. apply Rinv_lt_contravar; [|exact H75].
    apply Rmult_lt_0_compat; [apply exp_pos | apply pow_lt; lra].
  - replace (Ropp 75) with (-75) by lra.
    destruct Hx as [Hx | <-]; [left; now apply exp_increasing | right; reflexivity].
Qed.


Lemma exp32_exact (x : R) : float32_tiny < exp x -> exp32 x = exp x.
Proof.
  intros H. unfold exp32, Rleb.
  destruct (Rle_dec (exp x) float32_tiny); [lra | reflexivity].
Qed.


Lemma exp32_0 : exp32 0 = 1.
Proof.
  rewrite exp32_exact; [apply exp_0|]. apply exp_no_underflow. lra.
Qed.

Lemma exp32_nonneg (x : R) : 0 <= exp32 x.
Proof.
  unfold exp32. destruct (Rleb _ _); [lra | left; apply exp_pos].
Qed.

Lemma exp32_le_exp (x : R) : exp32 x <= exp x.
Proof.
  unfold exp32. destruct (Rleb _ _); [left; apply exp_pos | lra].
Qed.

Lemma exp32_le (x y : R) : x <= y -> exp32 x <= exp32 y.
Proof.
  intros H.
  assert (He : exp x <= exp y).
  { destruct H as [H | ->]; [left; now apply exp_increasing | lra]. }
  unfold exp32, Rleb.
  destruct (Rle_dec (exp x) float32_tiny), (Rle_dec (exp y) float32_tiny);
    try lra.
  left. apply exp_pos.
Qed.

Lemma exp_le_1 (x : R) : x <= 0 -> exp x <= 1.
Proof.
  intros [H | ->]; [|rewrite exp_0; lra].
  left. rewrite <- exp_0. now apply exp_increasing.
Qed.

Lemma exp32_le_1 (x : R) : x <= 0 -> exp32 x <= 1.
Proof.
  intros H. pose proof (exp32_le_exp x). pose proof (exp_le_1 x H). lra.
Qed.

(** On an argument that is not positive the float32 exponential is the
    exponential, or 0 where it underflows. *)
Lemma xexp_fin (x : R) : x <= 0 -> xexp (Fin x) = Fin (exp32 x).
Proof.
  intros H. unfold xexp, exp32, Rleb.
  destruct (Rle_dec (exp x) float32_tiny); [reflexivity|].
  destruct (Rle_dec float32_huge (exp x)); [|reflexivity].
  pose proof (exp_le_1 x H). pose proof float32_huge_gt_1. lra.
Qed.

End XRealFacts.

(* ================================================================= *)
(** ** Closed-form eigenvalues *)

Section Linalg.

(** The channel vectors of a pixelwise result are the images of the
    channel vectors of the arguments. *)
Lemma aflat_amap {A B : Type} (f : A -> B) (n : nat) (x : arr A n) :
  aflat n (amap f n x) = map f (aflat n x).
Proof.
  revert x. induction n as [|m IH]; intros x; simpl; [reflexivity|].
  induction x as [|s t IHt]; simpl; [reflexivity|].
  now rewrite map_app, IH, IHt.
Qed.

Lemma at_pixels_flat (n : nat) (f : list xreal -> list xreal)
  (args : list (tensor n)) :
  aflat n (at_pixels n f args) = map f (aflat n (pixels n (concat args))).
Proof. apply aflat_amap. Qed.

Lemma eigvalsh2_fin (ii ij jj : R) :
  let t := ii + jj in
  let d := ii * jj - ij * ij in
  eigvalsh2 (Fin ii) (Fin ij) (Fin jj) =
  [ Fin ((t - sqrt (Rmax (t * t - 4 * d) 0)) / 2);
    Fin ((t + sqrt (Rmax (t * t - 4 * d) 0)) / 2) ].
Proof.
  intros t d. unfold eigvalsh2, xclamp_min, xsquare, xsub.
  cbn [xadd xmul xneg map].
  rewrite xmaximum_fin, xsqrt_fin by apply Rmax_r.
  cbn [xneg xadd]. rewrite !xdiv_fin by lra.
  unfold t, d. repeat f_equal; lra.
Qed.

Lemma eigvalsh3_fin (ii ij ik jj jk kk eps : R) :
  0 < eps ->
  exists e1 e3 : R,
    eigvalsh3 (Fin ii) (Fin ij) (Fin ik) (Fin jj) (Fin jk) (Fin kk) eps =
    [Fin e1; Fin (3 * ((ii + jj + kk) / 3) - e1 - e3); Fin e3].
Proof.
  intros Heps.
  unfold eigvalsh3, deth3, xsum, xsquare, xpow3, xsub, xclamp.
  cbn [fold_left map xadd xmul xneg].
  rewrite (xdiv_fin _ 3) by lra.
  cbn [fold_left map xadd xmul xneg].
  rewrite (xdiv_fin _ 6) by lra.
  match goal with |- context [xsqrt (Fin ?a)] => set (a0 := a) end.
  assert (Ha0 : 0 <= a0).
  { unfold a0, Rdiv. apply Rmult_le_pos; [|lra].
    repeat apply Rplus_le_le_0_compat; try lra;
      try (apply Rmult_le_pos; [lra|]);
      repeat apply Rplus_le_le_0_compat; try lra; apply sq_nonneg. }
  rewrite xsqrt_fin by exact Ha0.
  pose proof (sqrt_pos a0) as Hp.
  set (p := sqrt a0) in *.
  cbn [xadd xmul xneg].
  assert (Hden : p * p * p + eps <> 0) by nra.
  rewrite (xdiv_fin _ (p * p * p + eps)) by exact Hden.
  rewrite (xdiv_fin _ 2) by lra.
  rewrite xmaximum_fin, xminimum_fin.
  match goal with |- context [xarccos (Fin ?a)] => set (r := a) end.
  assert (Hr : -1 <= r <= 1).
  { unfold r. split.
    - apply Rmin_glb; [apply Rmax_r | lra].
    - apply Rmin_r. }
  rewrite xarccos_fin by exact Hr.
  rewrite (xdiv_fin _ 3) by lra.
  cbn [xadd xmul xneg xcos].
  eexists. eexists.
  apply f_equal2; [reflexivity|].
  apply f_equal2; [|reflexivity].
  f_equal. lra.
Qed.

(** C7: [eigvalsh2] returns the pair (t -/+ sqrt(max(t^2 - 4d, 0))) / 2,
    t the trace and d the determinant, the smaller value first; on
    (2, 0, 2) it returns (2, 2) and on (1, 0, 3) it returns (1, 3). *)
Theorem eigvalsh2_closed_form (ii ij jj : R) :
  let t := ii + jj in
  let d := ii * jj - ij * ij in
  let lo := (t - sqrt (Rmax (t * t - 4 * d) 0)) / 2 in
  let hi := (t + sqrt (Rmax (t * t - 4 * d) 0)) / 2 in
  eigvalsh2 (Fin ii) (Fin ij) (Fin jj) = [Fin lo; Fin hi]
  /\ lo <= hi
  /\ eigvalsh2 (Fin 2) (Fin 0) (Fin 2) = [Fin 2; Fin 2]
  /\ eigvalsh2 (Fin 1) (Fin 0) (Fin 3) = [Fin 1; Fin 3].
Proof.
  intros t d lo hi. split; [apply eigvalsh2_fin|]. split; [|split].
  - unfold lo, hi. pose proof (sqrt_pos (Rmax (t * t - 4 * d) 0)). lra.
  - rewrite eigvalsh2_fin.
    replace ((2 + 2) * (2 + 2) - 4 * (2 * 2 - 0 * 0)) with 0 by ring.
    rewrite Rmax_left, sqrt_0 by lra.
    apply f_equal2; [f_equal; lra|]. apply f_equal2; [f_equal; lra|].
    reflexivity.
  - rewrite eigvalsh2_fin.
    replace ((1 + 3) * (1 + 3) - 4 * (1 * 3 - 0 * 0)) with (2 * 2) by ring.
    rewrite Rmax_left by lra. rewrite sqrt_square by lra.
    apply f_equal2; [f_equal; lra|]. apply f_equal2; [f_equal; lra|].
    reflexivity.
Qed.

(** C8: on diag(c, c, c) [eigvalsh3] returns (c, c, c), for every real c
    and every positive [eps]. *)
Theorem eigvalsh3_scalar_matrix (c eps : R) :
  0 < eps ->
  eigvalsh3 (Fin c) (Fin 0) (Fin 0) (Fin c) (Fin 0) (Fin c) eps =
  [Fin c; Fin c; Fin c].
Proof.
  intros Heps.
  unfold eigvalsh3, deth3, xsum, xsquare, xpow3, xsub, xclamp.
  cbn [fold_left map xadd xmul xneg].
  rewrite (xdiv_fin _ 3) by lra.
  cbn [fold_left map xadd xmul xneg].
  rewrite (xdiv_fin _ 6) by lra.
  match goal with
  | |- context [xsqrt (Fin ?a)] => replace a with 0 by field
  end.
  rewrite xsqrt_fin, sqrt_0 by lra.
  cbn [xadd xmul xneg].
  rewrite (xdiv_fin _ (0 * 0 * 0 + eps)) by lra.
  rewrite (xdiv_fin _ 2) by lra.
  rewrite xmaximum_fin, xminimum_fin.
  match goal with |- context [xarccos (Fin ?a)] => set (r := a) end.
  assert (Hr : -1 <= r <= 1).
  { unfold r. split.
    - apply Rmin_glb; [apply Rmax_r | lra].
    - apply Rmin_r. }
  rewrite xarccos_fin by exact Hr.
  rewrite (xdiv_fin _ 3) by lra.
  cbn [xadd xmul xneg xcos].
  repeat f_equal; field.
Qed.

Lemma eigvalsh3_scalar_matrix_witness :
  eigvalsh3 (Fin 5) (Fin 0) (Fin 0) (Fin 5) (Fin 0) (Fin 5) eigvalsh3_eps =
  [Fin 5; Fin 5; Fin 5].
Proof.
  apply (eigvalsh3_scalar_matrix 5 eigvalsh3_eps).
  unfold eigvalsh3_eps. apply Rinv_0_lt_compat, pow_lt. lra.
Defined.

(** C10: the eigenvalues returned by [eigvalsh2] sum to the trace
    ii + jj, and those returned by [eigvalsh3] to ii + jj + kk, at every
    pixel with finite components. *)
Theorem eigenvalues_sum_to_trace (ii ij ik jj jk kk eps : R) :
  0 < eps ->
  xsum (eigvalsh2 (Fin ii) (Fin ij) (Fin jj)) = Fin (ii + jj)
  /\ xsum (eigvalsh3 (Fin ii) (Fin ij) (Fin ik) (Fin jj) (Fin jk) (Fin kk)
                     eps)
     = Fin (ii + jj + kk).
Proof.
  intros Heps. split.
  - rewrite eigvalsh2_fin. unfold xsum. cbn [fold_left xadd]. f_equal. lra.
  - destruct (eigvalsh3_fin ii ij ik jj jk kk eps Heps) as (e1 & e3 & ->).
    unfold xsum. cbn [fold_left xadd]. f_equal. lra.
Qed.

Lemma eigenvalues_sum_to_trace_witness :
  xsum (eigvalsh2 (Fin 1) (Fin 2) (Fin 3)) = Fin (1 + 3)
  /\ xsum (eigvalsh3 (Fin 1) (Fin 2) (Fin 4) (Fin 3) (Fin 5) (Fin 6)
                     eigvalsh3_eps)
     = Fin (1 + 3 + 6).
Proof.
  apply (eigenvalues_sum_to_trace 1 2 4 3 5 6 eigvalsh3_eps).
  unfold eigvalsh3_eps. apply Rinv_0_lt_compat, pow_lt. lra.
Defined.

End Linalg.

(* ================================================================= *)
(** ** Ordering of the eigenvalues *)

Section Sorting.

Lemma sort_leb_total (a b : xreal) :
  sort_leb a b = false -> sort_leb b a = true.
Proof.
  destruct a, b; simpl; try discriminate; try reflexivity.
  unfold Rltb. destruct (Rlt_dec r0 r), (Rlt_dec r r0); simpl;
    try discriminate; try reflexivity; lra.
Qed.

Lemma sort_leb_trans (a b c : xreal) :
  sort_leb a b = true -> sort_leb b c = true -> sort_leb a c = true.
Proof.
  destruct a, b, c; simpl; try discriminate; try reflexivity.
  unfold Rltb.
  destruct (Rlt_dec r0 r), (Rlt_dec r1 r0), (Rlt_dec r1 r); simpl;
    try discriminate; try reflexivity; lra.
Qed.

Variable key : nat -> xreal.

Let key_le (i j : nat) : Prop := sort_leb (key i) (key j) = true.

Lemma insert_by_perm (i : nat) (l : list nat) :
  Permutation (insert_by key i l) (i :: l).
Proof.
  induction l as [|j t IH]; simpl.
  - apply Permutation_refl.
  - destruct (sort_leb (key i) (key j)).
    + apply Permutation_refl.
    + eapply perm_trans; [apply perm_skip, IH | apply perm_swap].
Qed.

Lemma insert_by_sorted (i : nat) (l : list nat) :
  StronglySorted key_le l -> StronglySorted key_le (insert_by key i l).
Proof.
  induction 1 as [|j t Hs IH Hall]; simpl.
  - constructor; [constructor | constructor].
  - destruct (sort_leb (key i) (key j)) eqn:E.
    + constructor.
      * constructor; assumption.
      * constructor; [exact E|].
        eapply Forall_impl; [|exact Hall].
        intros k Hk. unfold key_le in *. eapply sort_leb_trans; eassumption.
    + constructor; [exact IH|].
      apply (Permutation_Forall (Permutation_sym (insert_by_perm i t))).
      constructor; [|exact Hall].
      apply sort_leb_total, E.
Qed.

Lemma fold_insert_sorted (l : list nat) :
  StronglySorted key_le (fold_right (insert_by key) [] l).
Proof.
  induction l; simpl; [constructor | now apply insert_by_sorted].
Qed.

Lemma fold_insert_perm (l : list nat) :
  Permutation (fold_right (insert_by key) [] l) l.
Proof.
  induction l; simpl; [constructor|].
  eapply perm_trans; [apply insert_by_perm | now apply perm_skip].
Qed.

End Sorting.

Lemma StronglySorted_map {A B : Type} (f : A -> B) (RA : A -> A -> Prop)
  (RB : B -> B -> Prop) (l : list A) :
  (forall x y, RA x y -> RB (f x) (f y)) ->
  StronglySorted RA l -> StronglySorted RB (map f l).
Proof.
  intros Hf. induction 1 as [|a t Hs IH Hall]; simpl; constructor.
  - exact IH.
  - apply Forall_map. eapply Forall_impl; [|exact Hall]. intros; now apply Hf.
Qed.

Lemma sort_by_abs_ascending (eig : list xreal) :
  abs_ascending (sort_by_abs eig).
Proof.
  unfold abs_ascending, sort_by_abs, take_along_dim, argsort.
  eapply StronglySorted_map; [|apply fold_insert_sorted].
  intros i j H. unfold abs_le. cbv beta in H.
  rewrite <- (map_nth xabs eig NaN i), <- (map_nth xabs eig NaN j). exact H.
Qed.

Lemma map_nth_seq {A : Type} (l : list A) (d : A) :
  map (fun i => nth i l d) (seq 0 (length l)) = l.
Proof.
  apply nth_ext with (d := d) (d' := d).
  - now rewrite length_map, length_seq.
  - intros k Hk. rewrite length_map, length_seq in Hk.
    rewrite (nth_indep _ d (nth 0%nat l d))
      by (now rewrite length_map, length_seq).
    rewrite (map_nth (fun i => nth i l d)), seq_nth by assumption.
    reflexivity.
Qed.

(** Sorting by magnitude only reorders the eigenvalues of a pixel. *)
Lemma sort_by_abs_perm (eig : list xreal) : Permutation (sort_by_abs eig) eig.
Proof.
  unfold sort_by_abs, take_along_dim, argsort. rewrite length_map.
  eapply perm_trans.
  - apply Permutation_map, fold_insert_perm.
  - rewrite map_nth_seq. apply Permutation_refl.
Qed.

Lemma abs_le_fin (a b : R) : abs_le (Fin a) (Fin b) <-> Rabs a <= Rabs b.
Proof.
  unfold abs_le; simpl. unfold Rltb.
  destruct (Rlt_dec (Rabs b) (Rabs a)); simpl; split; intros;
    try lra; try discriminate; reflexivity.
Qed.

(* ================================================================= *)
(** ** The Hessian as a matrix *)

Section RoundTrip.

Lemma bind_ok {A B : Type} (m : res A) (k : A -> res B) (b : B) :
  bind m k = Ok b -> exists a, m = Ok a /\ k a = Ok b.
Proof. destruct m as [a|e]; simpl; [eauto | discriminate]. Qed.

Lemma mapM_length {A B : Type} (f : A -> res B) (l : list A) (r : list B) :
  mapM f l = Ok r -> length r = length l.
Proof.
  revert r. induction l as [|a t IH]; simpl; intros r H.
  - now inversion H.
  - apply bind_ok in H as (b & _ & H). apply bind_ok in H as (bs & Hbs & H).
    inversion H; subst; simpl. f_equal. now apply IH.
Qed.

Lemma F_conv_channels n x weight padding groups y :
  F_conv n x weight padding groups = Ok y -> length y = length weight.
Proof.
  unfold F_conv. destruct (_ || _ || _ || _)%bool; [discriminate|].
  intros H. apply bind_ok in H as (xp & _ & H).
  apply mapM_length in H. now rewrite length_seq in H.
Qed.

Lemma _conv_channels n img sigma order truncate mode dim y :
  _conv n img sigma order truncate mode dim = Ok y -> exists c, y = [c].
Proof.
  unfold _conv. intros H.
  apply bind_ok in H as (k & _ & H). apply bind_ok in H as (x & _ & H).
  apply F_conv_channels in H. simpl in H.
  destruct y as [|c [|? ?]]; try discriminate. now exists c.
Qed.

Lemma gaussian_filter_channels n img sigma o1 o2 mode truncate y :
  gaussian_filter n img sigma (inr [o1; o2]) mode truncate = Ok y ->
  exists c, y = [c].
Proof.
  unfold gaussian_filter. intros H.
  apply bind_ok in H as (order & Ho & H).
  destruct (length [o1; o2] =? n)%nat; [|discriminate].
  inversion Ho; subst order. simpl in H.
  apply bind_ok in H as (x & _ & H).
  now apply _conv_channels in H.
Qed.

Lemma _hessian_2d_channels n img sigma truncate mode H :
  _hessian_2d n img sigma truncate mode = Ok H ->
  exists xx xy yy, H = [[xx]; [xy]; [yy]].
Proof.
  unfold _hessian_2d. intros E.
  apply bind_ok in E as (xx & Hxx & E).
  apply bind_ok in E as (yy & Hyy & E).
  apply bind_ok in E as (xy & Hxy & E).
  apply gaussian_filter_channels in Hxx as (a & ->).
  apply gaussian_filter_channels in Hyy as (b & ->).
  apply gaussian_filter_channels in Hxy as (c & ->).
  inversion E. now exists a, c, b.
Qed.

Lemma _hessian_3d_channels img sigma truncate mode H :
  _hessian_3d img sigma truncate mode = Ok H ->
  exists xx xy xz yy yz zz, H = [[xx]; [xy]; [xz]; [yy]; [yz]; [zz]].
Proof.
  unfold _hessian_3d. intros E.
  apply bind_ok in E as (g0 & _ & E).
  apply bind_ok in E as (g1 & _ & E).
  apply bind_ok in E as (g2 & _ & E).
  apply bind_ok in E as (x0 & _ & E).
  apply bind_ok in E as (x1 & _ & E).
  apply bind_ok in E as (x2 & _ & E).
  apply bind_ok in E as (x3 & Hx & E).
  apply F_conv_channels in Hx. simpl in Hx.
  inversion E.
  destruct x3 as [|a [|b [|c [|d [|e [|f [|? ?]]]]]]]; try discriminate.
  now exists a, b, c, d, e, f.
Qed.

(** C6: [hessian] with [as_matrix] and [hessian] without succeed on the
    same inputs (and raise the same error otherwise), and the upper
    triangle of the matrix, extracted as [eigvalsh] extracts it, is the
    tuple of triangular components. *)
Theorem hessian_as_matrix_roundtrip (n : nat) (img : tensor n)
  (sigma truncate : R) (mode : pad_mode) :
  match hessian n img sigma true truncate mode,
        hessian n img sigma false truncate mode with
  | Ok (Matrix A), Ok (Components H) => triu_split n (length A) A = Ok H
  | Raise e1, Raise e2 => e1 = e2
  | _, _ => False
  end.
Proof.
  unfold hessian.
  destruct (hessian_components n img sigma truncate mode) as [H|e] eqn:E;
    simpl; [|reflexivity].
  destruct n as [|[|[|[|n]]]]; simpl in E; try discriminate.
  - apply _hessian_2d_channels in E as (xx & xy & yy & ->). reflexivity.
  - apply _hessian_3d_channels in E as (xx & xy & xz & yy & yz & zz & ->).
    reflexivity.
Qed.

End RoundTrip.

(* ================================================================= *)
(** ** The eigenvalues of the Hessian, image by image *)

Section HessianEigenvalues.

Lemma mapM_map_ok {A B C : Type} (f : A -> res B) (g : B -> C) (l : list A) :
  mapM (fun a => b <- f a ;; Ok (g b)) l = (r <- mapM f l ;; Ok (map g r)).
Proof.
  induction l as [|a t IH]; simpl; [reflexivity|].
  destruct (f a) as [b|e]; simpl; [|reflexivity].
  rewrite IH. destruct (mapM f t); reflexivity.
Qed.

Lemma mapM_inv {A B : Type} (f : A -> res B) (l : list A) (r : list B) :
  mapM f l = Ok r -> Forall2 (fun a b => f a = Ok b) l r.
Proof.
  revert r. induction l as [|a t IH]; simpl; intros r H.
  - inversion H. constructor.
  - apply bind_ok in H as (b & Hb & H). apply bind_ok in H as (bs & Hbs & H).
    inversion H; subst r. constructor; [exact Hb | now apply IH].
Qed.

Lemma mapM_ext_ok {A B : Type} (f g : A -> res B) (l : list A) (r : list B) :
  (forall a b, In a l -> f a = Ok b -> g a = Ok b) ->
  mapM f l = Ok r -> mapM g l = Ok r.
Proof.
  revert r. induction l as [|a t IH]; simpl; intros r Hfg H; [exact H|].
  apply bind_ok in H as (b & Hb & H). apply bind_ok in H as (bs & Hbs & H).
  rewrite (Hfg a b) by (auto; now left). cbn [bind].
  rewrite (IH bs) by (auto; intros; apply Hfg; auto; now right).
  exact H.
Qed.

Lemma map_ext_Forall2 {A B : Type} (f : A -> B) (R : B -> A -> Prop)
  (l : list A) :
  (forall a, In a l -> R (f a) a) -> Forall2 R (map f l) l.
Proof.
  induction l as [|a t IH]; simpl; intros H; constructor.
  - apply H. now left.
  - apply IH. intros; apply H. now right.
Qed.

Lemma amap2_entries {A B C : Type} (P : A -> Prop) (Q : B -> Prop)
  (R : C -> Prop) (f : A -> B -> C) (n : nat) (x : arr A n) (y : arr B n) :
  (forall a b, P a -> Q b -> R (f a b)) ->
  Forall P (aflat n x) -> Forall Q (aflat n y) ->
  Forall R (aflat n (amap2 f n x y)).
Proof.
  intros Hf. induction n as [|m IH]; simpl; intros Hx Hy.
  - inversion Hx; inversion Hy; subst. constructor; auto.
  - apply Forall_flat_map in Hx. apply Forall_flat_map in Hy.
    apply Forall_flat_map.
    revert y Hy. induction Hx as [|a x Ha Hx IHx]; intros y Hy.
    + constructor.
    + destruct Hy as [|b y Hb Hy]; simpl; constructor; auto.
Qed.

(** What [hessian] computes for one image: three one-channel components
    in 2D, six in 3D, and nothing for another rank. *)
Lemma hessian_components_tuple n img sigma truncate mode H :
  hessian_components n img sigma truncate mode = Ok H ->
  (n = 2%nat /\ exists xx xy yy, H = [[xx]; [xy]; [yy]])
  \/ (n = 3%nat /\ exists xx xy xz yy yz zz,
                     H = [[xx]; [xy]; [xz]; [yy]; [yz]; [zz]]).
Proof.
  intros E. destruct n as [|[|[|[|n]]]]; simpl in E; try discriminate.
  - left. split; [reflexivity|]. now apply _hessian_2d_channels in E.
  - right. split; [reflexivity|]. now apply _hessian_3d_channels in E.
Qed.

(** Without [as_matrix], [hessian_eigenvalues] gives every image the
    sorted eigenvalues of its own Hessian. *)
Lemma hessian_eigenvalues_images n img sigma truncate mode :
  hessian_eigenvalues n img sigma false truncate mode
  = (H <- mapM (fun im => hessian_components n im sigma truncate mode)
               (images img) ;;
     Ok (map (fun H => amap sort_by_abs n (unsorted_eigenvalues n H)) H)).
Proof.
  unfold hessian_eigenvalues, hessian. rewrite mapM_map_ok.
  destruct (mapM _ (images img)) as [H|e] eqn:E; [|reflexivity].
  cbn [bind]. rewrite map_map. cbn [components]. rewrite map_id.
  assert (Hall : mapM (fun H0 : list (tensor n) =>
                         Ok (unsorted_eigenvalues n H0)) H
                 = Ok (map (unsorted_eigenvalues n) H)).
  { clear E. induction H as [|h t IH]; simpl; [reflexivity|].
    now rewrite IH. }
  erewrite mapM_ext_ok; [| |exact Hall].
  - cbn [bind]. now rewrite map_map.
  - intros h b Hin Hb. inversion Hb; subst b. clear Hb.
    apply mapM_inv in E.
    assert (Hh : exists im, hessian_components n im sigma truncate mode
                            = Ok h).
    { clear Hall. induction E as [|im h' ims t Him E IH]; [contradiction|].
      destruct Hin as [-> | Hin]; [now exists im | now apply IH]. }
    destruct Hh as (im & Hh).
    apply hessian_components_tuple in Hh
      as [(-> & xx & xy & yy & ->)
         | (-> & xx & xy & xz & yy & yz & zz & ->)]; reflexivity.
Qed.

(** Every pixel of a tensor of C channels holds C values. *)
Lemma pixels_lengths (n : nat) (c : arr xreal n) (cs : list (arr xreal n)) :
  Forall (fun px => length px = S (length cs)) (aflat n (pixels n (c :: cs))).
Proof.
  revert c. induction cs as [|c' t IH]; intros c.
  - cbn [pixels]. rewrite aflat_amap. apply Forall_map, Forall_forall.
    reflexivity.
  - change (pixels n (c :: c' :: t))
      with (amap2 cons n c (pixels n (c' :: t))).
    apply (amap2_entries (fun _ => True) (fun px => length px = S (length t)));
      [ | apply Forall_forall; auto | apply IH].
    intros a b _ Hb. cbn [length]. now rewrite Hb.
Qed.

Lemma unsorted_eigenvalues_length n img sigma truncate mode H :
  hessian_components n img sigma truncate mode = Ok H ->
  Forall (fun px => length px = n) (aflat n (unsorted_eigenvalues n H)).
Proof.
  intros E. unfold unsorted_eigenvalues. rewrite at_pixels_flat.
  apply Forall_map.
  apply hessian_components_tuple in E
    as [(-> & xx & xy & yy & ->)
       | (-> & xx & xy & xz & yy & yz & zz & ->)];
    cbn [concat app Nat.eqb].
  - eapply Forall_impl; [|apply pixels_lengths]. cbn [length].
    intros px Hpx.
    destruct px as [|a [|b [|c [|? ?]]]]; try discriminate. reflexivity.
  - eapply Forall_impl; [|apply pixels_lengths]. cbn [length].
    intros px Hpx.
    destruct px as [|a [|b [|c [|d [|e [|f [|? ?]]]]]]]; try discriminate.
    reflexivity.
Qed.

Lemma sorted_tuple (px : list xreal) :
  abs_ascending (sort_by_abs px)
  /\ (forall a b, sort_by_abs px = [Fin a; Fin b] -> Rabs a <= Rabs b)
  /\ (forall a b c, sort_by_abs px = [Fin a; Fin b; Fin c] ->
                    Rabs a <= Rabs b <= Rabs c).
Proof.
  pose proof (sort_by_abs_ascending px) as S.
  split; [exact S|]. split.
  - intros a b E. rewrite E in S.
    inversion S as [|? ? _ Hall]; subst. inversion Hall; subst.
    now apply abs_le_fin.
  - intros a b c E. rewrite E in S.
    inversion S as [|? ? S' Hall]; subst.
    inversion Hall as [|? ? Hab _]; subst.
    inversion S' as [|? ? _ Hall']; subst.
    inversion Hall' as [|? ? Hbc _]; subst.
    split; now apply abs_le_fin.
Qed.

(** C3: every per-pixel eigenvalue tuple that [hessian_eigenvalues]
    returns is ascending by absolute value, for finite eigenvalues
    |lambda1| <= |lambda2| (<= |lambda3| in 3D); and, called as [frangi]
    calls it (without [as_matrix]), the tuple of a pixel holds the 2 (2D)
    or 3 (3D) eigenvalues that [eigvalsh2] or [eigvalsh3] gives for the
    Hessian of its image at this pixel, reordered. *)
Theorem hessian_eigenvalues_abs_ascending (n : nat) (img : batch n)
  (sigma : R) (as_matrix : bool) (truncate : R) (mode : pad_mode) :
  match hessian_eigenvalues n img sigma as_matrix truncate mode with
  | Ok eig =>
      Forall (fun e =>
                Forall (fun px =>
                          abs_ascending px
                          /\ (forall a b, px = [Fin a; Fin b] ->
                                          Rabs a <= Rabs b)
                          /\ (forall a b c, px = [Fin a; Fin b; Fin c] ->
                                            Rabs a <= Rabs b <= Rabs c))
                       (aflat n e))
             eig
      /\ (as_matrix = false ->
          exists H,
            mapM (fun im => hessian_components n im sigma truncate mode)
                 (images img) = Ok H
            /\ Forall2 (fun e comps =>
                          Forall2 (fun px unsorted =>
                                     length px = n
                                     /\ Permutation px unsorted)
                                  (aflat n e)
                                  (aflat n (unsorted_eigenvalues n comps)))
                       eig H)
  | Raise _ => True
  end.
Proof.
  destruct (hessian_eigenvalues n img sigma as_matrix truncate mode)
    as [eig|e] eqn:E; [|exact I].
  split.
  - unfold hessian_eigenvalues in E.
    apply bind_ok in E as (H & _ & E). apply bind_ok in E as (eig0 & _ & E).
    inversion E; subst eig. apply Forall_map, Forall_forall. intros e _.
    rewrite aflat_amap. apply Forall_map, Forall_forall. intros px _.
    apply sorted_tuple.
  - intros ->. rewrite hessian_eigenvalues_images in E.
    apply bind_ok in E as (H & EH & E). inversion E; subst eig. clear E.
    exists H. split; [exact EH|].
    apply map_ext_Forall2. intros comps Hin.
    rewrite aflat_amap. apply map_ext_Forall2. intros px Hpx.
    pose proof (sort_by_abs_perm px) as P. split; [|exact P].
    rewrite (Permutation_length P).
    apply mapM_inv in EH.
    assert (Hc : exists im, hessian_components n im sigma truncate mode
                            = Ok comps).
    { clear Hpx. induction EH as [|im h ims t Him EH IH]; [contradiction|].
      destruct Hin as [-> | Hin]; [now exists im | now apply IH]. }
    destruct Hc as (im & Hc).
    apply unsorted_eigenvalues_length in Hc.
    rewrite Forall_forall in Hc. now apply Hc.
Qed.

End HessianEigenvalues.

(* ================================================================= *)
(** ** Validation of the scale specification *)

Section Validation.

Lemma never_ok {A : Type} (a : A) : never_sigma (Ok a).
Proof. unfold never_sigma; discriminate. Qed.

Lemma never_bind {A B : Type} (m : res A) (k : A -> res B) :
  never_sigma m -> (forall a, never_sigma (k a)) -> never_sigma (bind m k).
Proof.
  unfold never_sigma. destruct m as [a|e]; simpl; intros Hm Hk.
  - apply Hk.
  - intros E; apply Hm; inversion E; reflexivity.
Qed.

Lemma never_mapM {A B : Type} (f : A -> res B) (l : list A) :
  (forall a, never_sigma (f a)) -> never_sigma (mapM f l).
Proof.
  intros Hf. induction l as [|a t IH]; simpl.
  - apply never_ok.
  - apply never_bind; [apply Hf|]. intros b.
    apply never_bind; [exact IH|]. intros bs. apply never_ok.
Qed.

End Validation.

Ltac never_step :=
  match goal with
  | |- never_sigma (Ok _) => apply never_ok
  | |- never_sigma (Raise _) => unfold never_sigma, sigma_error; discriminate
  | |- never_sigma (bind _ _) => apply never_bind; [|intros ?]
  | |- never_sigma (mapM _ _) => apply never_mapM; intros ?
  | |- never_sigma (if ?b then _ else _) => destruct b
  | |- never_sigma (match ?x with _ => _ end) => destruct x
  end.

Section ValidationOfFrangi.

Lemma never_pad_list {B : Type} mode l r (fill : B) xs :
  never_sigma (pad_list mode l r fill xs).
Proof. unfold pad_list. repeat never_step. Qed.

Lemma never_F_pad n x pad mode : never_sigma (F_pad n x pad mode).
Proof.
  revert x. induction n as [|m IH]; intros x; simpl.
  - apply never_ok.
  - apply never_bind; [apply never_mapM; intros s; apply IH|].
    intros xs. apply never_pad_list.
Qed.

Lemma never_F_conv n x weight padding groups :
  never_sigma (F_conv n x weight padding groups).
Proof.
  unfold F_conv, corr_checked.
  repeat first [apply never_F_pad | never_step].
Qed.

Lemma never_kernel sigma order truncate :
  never_sigma (_gaussian_kernel_1d sigma order truncate).
Proof. unfold _gaussian_kernel_1d, arange_int. repeat never_step. Qed.

Lemma never_conv n img sigma order truncate mode dim :
  never_sigma (_conv n img sigma order truncate mode dim).
Proof.
  unfold _conv.
  repeat first [apply never_kernel | apply never_F_pad
               | apply never_F_conv | never_step].
Qed.

Lemma never_gaussian_filter n img sigma order mode truncate :
  never_sigma (gaussian_filter n img sigma order mode truncate).
Proof.
  unfold gaussian_filter.
  apply never_bind; [repeat never_step|]. intros o.
  assert (Hacc : never_sigma (Ok img)) by apply never_ok.
  revert Hacc. generalize (Ok img). generalize (combine (seq 0 (length o)) o).
  induction l as [|[d k] t IH]; simpl; intros acc Hacc; [exact Hacc|].
  apply IH. apply never_bind; [exact Hacc|]. intros a. apply never_conv.
Qed.

Lemma never_hessian_components n img sigma truncate mode :
  never_sigma (hessian_components n img sigma truncate mode).
Proof.
  destruct n as [|[|[|[|n]]]]; simpl;
    try (unfold never_sigma, sigma_error; discriminate).
  - unfold _hessian_2d. repeat first [apply never_gaussian_filter | never_step].
  - unfold _hessian_3d, expand_channels.
    repeat first [apply never_kernel | apply never_F_conv | never_step].
Qed.

Lemma never_hessian_eigenvalues n img sigma as_matrix truncate mode :
  never_sigma (hessian_eigenvalues n img sigma as_matrix truncate mode).
Proof.
  unfold hessian_eigenvalues, hessian, _hessian_as_matrix,
    eigvalsh2_on_blocks.
  repeat first [apply never_hessian_components | never_step].
Qed.

Lemma never_frangi_scale n eig alpha beta gamma eps :
  never_sigma (frangi_scale n eig alpha beta gamma eps).
Proof. unfold frangi_scale, tensor_max. repeat never_step. Qed.

Lemma never_torch_maximum a b : never_sigma (torch_maximum a b).
Proof. unfold torch_maximum, broadcast2. repeat never_step. Qed.

Lemma never_frangi_loop n image alpha beta gamma eps sigmas fm log :
  never_sigma (snd (frangi_loop n image alpha beta gamma eps sigmas fm log)).
Proof.
  revert fm log. induction sigmas as [|s t IH]; intros fm log; simpl.
  - apply never_ok.
  - destruct (bind _ _) as [r|e] eqn:E.
    + apply IH.
    + simpl. intros Heq. inversion Heq; subst e. revert E.
      apply never_bind; [apply never_hessian_eigenvalues|].
      intros a. apply never_bind; [apply never_frangi_scale|].
      intros b. apply never_torch_maximum.
Qed.

Lemma existsb_negative (l : list R) :
  existsb (fun s => Rltb s 0) l = true <-> Exists (fun s => s < 0) l.
Proof.
  rewrite existsb_exists, Exists_exists.
  split; intros (s & Hin & Hs); exists s; split; try assumption;
    unfold Rltb in *; destruct (Rlt_dec s 0); try reflexivity;
    try assumption; try discriminate; contradiction.
Qed.

(** C9: on an image of rank 2D or 3D, [frangi] raises the error of the
    sigma check if and only if the scale specification contains a negative
    sigma (zero and every positive sigma pass), and when it raises it no
    call of [hessian_eigenvalues] has been started. *)
Theorem frangi_sigma_validation (n : nat) (image : batch n)
  (sigma_range : R * R) (scale_step : R) (sigmas : option (list R))
  (alpha beta : R) (gamma : option R) (eps : R) :
  (n = 2 \/ n = 3)%nat ->
  (frangi n image sigma_range scale_step sigmas alpha beta gamma eps
     = Raise sigma_error
   <-> exists l, scale_sigmas sigma_range scale_step sigmas = Ok l
                 /\ Exists (fun s => s < 0) l)
  /\ (frangi n image sigma_range scale_step sigmas alpha beta gamma eps
       = Raise sigma_error ->
      fst (frangi_run n image sigma_range scale_step sigmas
                      alpha beta gamma eps) = []).
Proof.
  intros Hn. unfold frangi, frangi_run.
  assert (Hb : negb ((n =? 2) || (n =? 3))%nat = false).
  { destruct Hn; subst; reflexivity. }
  rewrite Hb.
  destruct (scale_sigmas sigma_range scale_step sigmas) as [l|e] eqn:Es.
  - destruct (existsb (fun s => Rltb s 0) l) eqn:Ex.
    + simpl. split; [|reflexivity].
      split; [|reflexivity]. intros _. exists l. split; [reflexivity|].
      now apply existsb_negative.
    + split.
      * split.
        -- intros H. now apply never_frangi_loop in H.
        -- intros (l' & El & Hneg). inversion El; subst l'.
           apply existsb_negative in Hneg. congruence.
      * intros H. now apply never_frangi_loop in H.
  - simpl. split.
    + split.
      * intros H. exfalso. revert Es H. unfold scale_sigmas, torch_arange.
        destruct sigmas; [discriminate|].
        repeat match goal with
               | |- context [if ?b then _ else _] => destruct b
               end;
          intros E1 E2; inversion E1; subst; discriminate.
      * intros (l & El & _). discriminate.
    + reflexivity.
Qed.

Lemma frangi_sigma_validation_witness :
  (frangi 2 (single (pixel_image 1)) default_sigma_range default_scale_step
          (Some [1; -1]) default_alpha default_beta None default_eps
     = Raise sigma_error
   <-> exists l, scale_sigmas default_sigma_range default_scale_step
                              (Some [1; -1]) = Ok l
                 /\ Exists (fun s => s < 0) l)
  /\ (frangi 2 (single (pixel_image 1)) default_sigma_range default_scale_step
             (Some [1; -1]) default_alpha default_beta None default_eps
       = Raise sigma_error ->
      fst (frangi_run 2 (single (pixel_image 1)) default_sigma_range
                      default_scale_step (Some [1; -1])
                      default_alpha default_beta None default_eps) = []).
Proof.
  apply (frangi_sigma_validation 2 (single (pixel_image 1))). left. reflexivity.
Defined.

End ValidationOfFrangi.

(* ================================================================= *)
(** ** Sums of finite coefficient lists *)

Section Sums.

Lemma fold_left_Rplus (l : list R) (a : R) :
  fold_left Rplus l a = a + Rsum l.
Proof.
  unfold Rsum. revert a. induction l as [|x t IH]; intros a; simpl.
  - lra.
  - rewrite IH, (IH (0 + x)). lra.
Qed.

Lemma Rsum_nil : Rsum [] = 0.
Proof. reflexivity. Qed.

Lemma Rsum_cons (a : R) (l : list R) : Rsum (a :: l) = a + Rsum l.
Proof. unfold Rsum at 1. simpl. rewrite fold_left_Rplus. lra. Qed.

Lemma Rsum_app (l1 l2 : list R) : Rsum (l1 ++ l2) = Rsum l1 + Rsum l2.
Proof.
  induction l1 as [|a t IH]; simpl.
  - rewrite Rsum_nil. lra.
  - rewrite !Rsum_cons, IH. lra.
Qed.

Lemma Rsum_map_shift (m : R) (l : list R) :
  Rsum (map (fun v => v + - m) l) = Rsum l - INR (length l) * m.
Proof.
  induction l as [|a t IH].
  - simpl. rewrite Rsum_nil. lra.
  - cbn [map length]. rewrite !Rsum_cons, IH, S_INR. lra.
Qed.

Lemma Rsum_map_div (c : R) (l : list R) :
  Rsum (map (fun v => v / c) l) = Rsum l / c.
Proof.
  induction l as [|a t IH].
  - simpl. rewrite Rsum_nil. unfold Rdiv. lra.
  - cbn [map]. rewrite !Rsum_cons, IH. unfold Rdiv. lra.
Qed.

Lemma moment_map_div (c : R) (l y : list R) :
  moment (map (fun v => v / c) l) y = moment l y / c.
Proof.
  unfold moment. revert y. induction l as [|a t IH]; intros [|b y]; simpl;
    rewrite ?Rsum_nil; try (unfold Rdiv; lra).
  rewrite !Rsum_cons, IH. unfold Rdiv. lra.
Qed.

Lemma moment_map_shift (m : R) (l y : list R) :
  length l = length y ->
  moment (map (fun v => v + - m) l) y = moment l y - m * Rsum y.
Proof.
  unfold moment. revert y. induction l as [|a t IH]; intros [|b y] Hlen;
    simpl in *; try discriminate; rewrite ?Rsum_nil; try lra.
  rewrite !Rsum_cons, IH by lia. lra.
Qed.

Lemma Rsum_nonneg (l : list R) : Forall (fun v => 0 <= v) l -> 0 <= Rsum l.
Proof.
  induction 1 as [|a t Ha _ IH]; [rewrite Rsum_nil; lra|].
  rewrite Rsum_cons. lra.
Qed.

(** The sum of [n] consecutive integers starting at [a]. *)
Lemma Rsum_arith (a : Z) (n : nat) :
  Rsum (map (fun i => IZR (a + Z.of_nat i)) (seq 0 n))
  = INR n * IZR a + INR n * (INR n - 1) / 2.
Proof.
  induction n as [|n IH].
  - simpl. rewrite Rsum_nil. lra.
  - rewrite seq_S, map_app, Rsum_app, IH. cbn [map Nat.add].
    rewrite Rsum_cons, Rsum_nil, plus_IZR, <- INR_IZR_INZ, S_INR. lra.
Qed.

End Sums.

Section FiniteLists.

Lemma map2_map_same {A B C D : Type} (f : B -> C -> D) (g : A -> B)
  (h : A -> C) (l : list A) :
  map2 f (map g l) (map h l) = map (fun a => f (g a) (h a)) l.
Proof. induction l; simpl; congruence. Qed.

Lemma map2_map_l {A B C : Type} (f : B -> A -> C) (g : A -> B)
  (l : list A) :
  map2 f (map g l) l = map (fun a => f (g a) a) l.
Proof. induction l; simpl; congruence. Qed.

Lemma map2_fin (f : xreal -> xreal -> xreal) (fr : R -> R -> R)
  (a b : list R) :
  (forall x y, f (Fin x) (Fin y) = Fin (fr x y)) ->
  map2 f (map Fin a) (map Fin b) = map Fin (map2 fr a b).
Proof.
  intros Hf. revert b. induction a as [|x t IH]; intros [|y b]; simpl;
    try reflexivity. now rewrite Hf, IH.
Qed.

Lemma map_fin (f : xreal -> xreal) (fr : R -> R) (a : list R) :
  (forall x, f (Fin x) = Fin (fr x)) ->
  map f (map Fin a) = map Fin (map fr a).
Proof. intros Hf. rewrite !map_map. apply map_ext. exact Hf. Qed.

Lemma map_Fin_inj (a b : list R) : map Fin a = map Fin b -> a = b.
Proof.
  revert b. induction a as [|x t IH]; intros [|y b] H; simpl in H;
    try discriminate; [reflexivity|].
  inversion H. f_equal. now apply IH.
Qed.

Lemma xsum_fin (a : list R) : xsum (map Fin a) = Fin (Rsum a).
Proof.
  unfold xsum, Rsum. generalize 0.
  induction a as [|x t IH]; intros s; simpl.
  - reflexivity.
  - apply IH.
Qed.

Lemma xmean_fin (a : list R) : a <> [] -> xmean (map Fin a) = Fin (Rmean a).
Proof.
  intros Hne. unfold xmean, Rmean. rewrite xsum_fin, length_map.
  apply xdiv_fin. destruct a; [congruence|]. apply not_0_INR. simpl. lia.
Qed.

End FiniteLists.

(* ================================================================= *)
(** ** The Frangi response *)

Section Frangi.

Lemma frangi_ratios_2d (eps l1 l2 : R) :
  0 < eps ->
  frangi_ratios 2 eps [Fin l1; Fin l2]
  = (PInf, Fin (Rabs (l1 / Rmax l2 eps))).
Proof.
  intros Heps. unfold frangi_ratios. cbn [Nat.eqb tl map nth].
  rewrite xmaximum_fin.
  rewrite xdiv_fin by (pose proof (Rmax_r l2 eps); lra).
  reflexivity.
Qed.

Lemma frangi_ratios_3d (eps l1 l2 l3 : R) :
  0 < eps ->
  frangi_ratios 3 eps [Fin l1; Fin l2; Fin l3]
  = (Fin (Rmax l2 eps / Rmax l3 eps),
     Fin (Rabs l1 / sqrt (Rmax l2 eps * Rmax l3 eps))).
Proof.
  intros Heps. unfold frangi_ratios. cbn [Nat.eqb tl map nth].
  rewrite !xmaximum_fin.
  pose proof (Rmax_r l2 eps) as H2. pose proof (Rmax_r l3 eps) as H3.
  assert (Hp : 0 < Rmax l2 eps * Rmax l3 eps) by nra.
  rewrite xdiv_fin by lra. cbn [xabs xmul].
  rewrite xsqrt_fin by lra.
  rewrite xdiv_fin by (pose proof (sqrt_lt_R0 _ Hp); lra).
  reflexivity.
Qed.

Lemma neg_sq_div_nonpos (s D : R) : 0 < D -> - (s * s) / D <= 0.
Proof.
  intros HD. unfold Rdiv. pose proof (Rinv_0_lt_compat D HD).
  pose proof (sq_nonneg s). nra.
Qed.

(** With finite ratios, magnitude and threshold, the response of a pixel
    is a real number in [0, 1], and below 1 unless the last exponential
    underflows; [r_a] may be the infinity of the 2D branch. *)
Lemma frangi_response_bounds (r_a : xreal) (ra rb s g alpha beta eps : R) :
  0 < eps -> alpha <> 0 -> r_a = PInf \/ r_a = Fin ra ->
  exists v,
    frangi_response r_a (Fin rb) (Fin s) alpha beta (Fin g) eps = Fin v
    /\ 0 <= v <= 1
    /\ (float32_tiny < exp (- (s * s) / (2 * (g * g) + eps)) -> v < 1).
Proof.
  intros Heps Halpha Hra.
  assert (Hb : 0 < 2 * (beta * beta) + eps) by (pose proof (sq_nonneg beta); lra).
  assert (Hg : 0 < 2 * (g * g) + eps) by (pose proof (sq_nonneg g); lra).
  assert (Ha : 0 < 2 * (alpha * alpha)) by nra.
  pose proof (neg_sq_div_nonpos rb _ Hb) as N2.
  pose proof (neg_sq_div_nonpos s _ Hg) as N3.
  pose proof (exp32_nonneg (- (rb * rb) / (2 * (beta * beta) + eps))) as E2.
  pose proof (exp32_le_1 _ N2) as E2'.
  pose proof (exp32_nonneg (- (s * s) / (2 * (g * g) + eps))) as E3.
  pose proof (exp32_le_1 _ N3) as E3'.
  assert (H1 : exists f1,
             xsub (Fin 1) (xexp (xdiv (xneg (xsquare r_a))
                                      (xmul (Fin 2) (xsquare (Fin alpha)))))
             = Fin f1 /\ 0 <= f1 <= 1).
  { destruct Hra as [-> | ->]; unfold xsquare; cbn [xmul xneg].
    - exists (1 + - 0). split; [|lra].
      cbn [inf_of_sign xdiv xexp xsub xneg xadd].
      now rewrite Rltb_false by lra.
    - rewrite xdiv_fin by lra.
      pose proof (neg_sq_div_nonpos ra _ Ha) as N1.
      rewrite xexp_fin by exact N1. cbn [xsub xneg xadd].
      pose proof (exp32_nonneg (- (ra * ra) / (2 * (alpha * alpha)))).
      pose proof (exp32_le_1 _ N1).
      eexists. split; [reflexivity | lra]. }
  destruct H1 as (f1 & Hf1 & Hb1).
  unfold frangi_response. rewrite Hf1. unfold xsquare. cbn [xmul xneg xadd].
  rewrite !xdiv_fin by lra. rewrite !xexp_fin by assumption.
  cbn [xsub xneg xadd xmul].
  eexists. split; [reflexivity|].
  set (f2 := exp32 (- (rb * rb) / (2 * (beta * beta) + eps))) in *.
  set (f3 := exp32 (- (s * s) / (2 * (g * g) + eps))) in *.
  assert (H12 : 0 <= f1 * f2 <= 1) by nra.
  split; [nra|].
  intros Hu. assert (0 < f3).
  { unfold f3. rewrite exp32_exact by exact Hu. apply exp_pos. }
  nra.
Qed.

(** The running maximum of real responses can only grow and stays in
    [0, 1]. *)
Lemma running_max_monotone (m v : R) :
  xmaximum (Fin m) (Fin v) = Fin (Rmax m v)
  /\ m <= Rmax m v
  /\ (0 <= m <= 1 -> 0 <= v <= 1 -> 0 <= Rmax m v <= 1).
Proof.
  split; [apply xmaximum_fin|]. split; [apply Rmax_l|].
  intros Hm Hv. unfold Rmax. destruct (Rle_dec m v); lra.
Qed.

(** The response of a pixel with finite eigenvalues, 2D and 3D. *)
Lemma frangi_pixel_2d_bounds (l1 l2 g alpha beta eps : R) :
  0 < eps -> alpha <> 0 ->
  exists v,
    (let '(r_a, r_b) := frangi_ratios 2 eps [Fin l1; Fin l2] in
     frangi_response r_a r_b (xsqrt (xsum (map xsquare [Fin l1; Fin l2])))
                     alpha beta (Fin g) eps) = Fin v
    /\ 0 <= v <= 1.
Proof.
  intros Heps Ha. rewrite frangi_ratios_2d by exact Heps.
  unfold xsum, xsquare. cbn [map fold_left xmul xadd].
  rewrite xsqrt_fin
    by (pose proof (sq_nonneg l1); pose proof (sq_nonneg l2); lra).
  destruct (frangi_response_bounds PInf 0 (Rabs (l1 / Rmax l2 eps))
              (sqrt (0 + l1 * l1 + l2 * l2)) g alpha beta eps)
    as (v & Hv & Hb & _); auto.
  now exists v.
Qed.

Lemma frangi_pixel_3d_bounds (l1 l2 l3 g alpha beta eps : R) :
  0 < eps -> alpha <> 0 ->
  exists v,
    (let '(r_a, r_b) := frangi_ratios 3 eps [Fin l1; Fin l2; Fin l3] in
     frangi_response r_a r_b
                     (xsqrt (xsum (map xsquare [Fin l1; Fin l2; Fin l3])))
                     alpha beta (Fin g) eps) = Fin v
    /\ 0 <= v <= 1.
Proof.
  intros Heps Ha. rewrite frangi_ratios_3d by exact Heps.
  unfold xsum, xsquare. cbn [map fold_left xmul xadd].
  rewrite xsqrt_fin
    by (pose proof (sq_nonneg l1); pose proof (sq_nonneg l2);
        pose proof (sq_nonneg l3); lra).
  destruct (frangi_response_bounds
              (Fin (Rmax l2 eps / Rmax l3 eps)) (Rmax l2 eps / Rmax l3 eps)
              (Rabs l1 / sqrt (Rmax l2 eps * Rmax l3 eps))
              (sqrt (0 + l1 * l1 + l2 * l2 + l3 * l3)) g alpha beta eps)
    as (v & Hv & Hb & _); auto.
  now exists v.
Qed.

(** C2 as stated fails: with eigenvalues (1, -5) the code floors lambda2
    to [eps], the claim keeps it at -5. *)
Lemma frangi_2d_sign_not_preserved :
  snd (frangi_ratios 2 default_eps [Fin 1; Fin (-5)])
  <> Fin (r_b_claimed default_eps 1 (-5)).
Proof.
  rewrite frangi_ratios_2d by apply default_eps_pos. cbn [snd].
  unfold r_b_claimed, floor_magnitude.
  pose proof default_eps_pos as He.
  assert (Hlt : default_eps < 1).
  { unfold default_eps. rewrite <- Rinv_1. apply Rinv_lt_contravar.
    - pose proof (pow10_pos 10); lra.
    - apply Rlt_pow_R1; [lra | lia]. }
  rewrite Rltb_true by lra.
  rewrite (Rmax_right (-5) default_eps) by lra.
  rewrite (Rmax_left (- -5) default_eps) by lra.
  intros E. inversion E as [E']. clear E.
  rewrite Rabs_div_pos in E' by lra.
  replace (1 / - - - 5) with (- (1 / 5)) in E' by field.
  rewrite Rabs_Ropp, Rabs_R1, (Rabs_pos_eq (1 / 5)) in E' by lra.
  assert (1 / default_eps > 1).
  { unfold Rdiv. rewrite Rmult_1_l.
    apply Rlt_gt. rewrite <- Rinv_1. apply Rinv_lt_contravar; lra. }
  lra.
Qed.

(** C2, amended: in the 2D branch Rb = |lambda1 / max(lambda2, eps)|:
    lambda2 is floored at [eps] in value, which agrees with the magnitude
    floor for lambda2 >= 0 and replaces a negative lambda2 by [eps]; the
    factor of Ra is 1, the response being the product of the two other
    factors (an exponential below the float32 range being 0). *)
Theorem frangi_2d_branch (eps alpha beta l1 l2 rb s g : R) :
  0 < eps ->
  frangi_ratios 2 eps [Fin l1; Fin l2]
  = (PInf, Fin (Rabs (l1 / Rmax l2 eps)))
  /\ (0 <= l2 -> Rabs (l1 / Rmax l2 eps) = r_b_claimed eps l1 l2)
  /\ (l2 < 0 -> Rabs (l1 / Rmax l2 eps) = Rabs l1 / eps)
  /\ frangi_response PInf (Fin rb) (Fin s) alpha beta (Fin g) eps
     = Fin (exp32 (- (rb * rb) / (2 * (beta * beta) + eps))
            * (1 - exp32 (- (s * s) / (2 * (g * g) + eps)))).
Proof.
  intros Heps. split; [now apply frangi_ratios_2d|]. split; [|split].
  - intros Hl. unfold r_b_claimed, floor_magnitude.
    now rewrite Rltb_false by lra.
  - intros Hl. rewrite Rmax_right by lra.
    now rewrite Rabs_div_pos by lra.
  - unfold frangi_response, xsquare. cbn [xmul xneg xadd].
    assert (Ha : xdiv NInf (Fin (2 * (alpha * alpha))) = NInf).
    { cbn [xdiv]. rewrite Rltb_false by nra. reflexivity. }
    rewrite Ha. cbn [xexp xsub xneg xadd].
    assert (Hb : 0 < 2 * (beta * beta) + eps)
      by (pose proof (sq_nonneg beta); lra).
    assert (Hg : 0 < 2 * (g * g) + eps) by (pose proof (sq_nonneg g); lra).
    rewrite !xdiv_fin by lra.
    rewrite !xexp_fin by (apply neg_sq_div_nonpos; assumption).
    cbn [xsub xneg xadd xmul]. f_equal. lra.
Qed.

Lemma frangi_2d_branch_witness :
  frangi_ratios 2 1 [Fin 1; Fin (-5)]
  = (PInf, Fin (Rabs (1 / Rmax (-5) 1)))
  /\ (0 <= -5 -> Rabs (1 / Rmax (-5) 1) = r_b_claimed 1 1 (-5))
  /\ (-5 < 0 -> Rabs (1 / Rmax (-5) 1) = Rabs 1 / 1)
  /\ frangi_response PInf (Fin 0) (Fin 3) default_alpha default_beta
                     (Fin 1) 1
     = Fin (exp32 (- (0 * 0) / (2 * (default_beta * default_beta) + 1))
            * (1 - exp32 (- (3 * 3) / (2 * (1 * 1) + 1)))).
Proof.
  apply (frangi_2d_branch 1 default_alpha default_beta 1 (-5) 0 3 1). lra.
Defined.

(** *** A zero sigma *)

Lemma arange_int_radius0 : arange_int (- 0) (0 + 1) = Ok [Fin 0].
Proof. reflexivity. Qed.

Lemma kernel_sigma_zero (order : Z) :
  (0 <= order <= 2)%Z ->
  _gaussian_kernel_1d 0 order default_truncate = Ok [NaN].
Proof.
  intros Ho. unfold _gaussian_kernel_1d, default_truncate.
  replace (0 * 4) with (IZR 0) by ring. rewrite Zceil_IZR.
  rewrite arange_int_radius0.
  cbn [bind map xsquare xmul xneg].
  rewrite xdiv_zero_zero by (simpl; ring).
  cbn [xexp xdiv].
  assert (order = 0 \/ order = 1 \/ order = 2)%Z as [-> | [-> | ->]] by lia;
    reflexivity.
Qed.

Lemma hessian_eigenvalues_sigma_zero (v : R) :
  hessian_eigenvalues 2 (single (pixel_image v)) 0 false
                      default_truncate default_mode
  = Ok [[[[NaN; NaN]]]].
Proof.
  rewrite hessian_eigenvalues_images.
  unfold single, images, hessian_components, _hessian_2d,
    gaussian_filter, _conv.
  cbn [first_image other_images mapM length Nat.eqb bind combine seq
       fold_left].
  rewrite !kernel_sigma_zero by lia.
  reflexivity.
Qed.

Lemma frangi_scale_nan (alpha beta eps : R) :
  frangi_scale 2 [[[[NaN; NaN]]]] alpha beta None eps = Ok (Shaped [] [NaN]).
Proof.
  unfold frangi_scale.
  cbn [eig_tensor squeeze dims entries aflat flat_map app hd length ashape
       filter Nat.eqb negb numel fold_right seq map nth Nat.mul Nat.add
       Nat.sub Nat.ltb Nat.leb sort_by_abs].
  unfold frangi_response. cbn.
  rewrite !xmul_nan_r. reflexivity.
Qed.

(** C5 fails on the code: a scale specification holding the sigma 0
    passes the check of the sigmas (whose message asks for positive
    values), the kernels are then 0/0, and the response of [frangi] is NaN
    at the pixel instead of a number in [0, 1). *)
Theorem frangi_sigma_zero_is_nan :
  frangi 2 (single (pixel_image 1)) default_sigma_range default_scale_step
         (Some [0]) default_alpha default_beta None default_eps
  = Ok (Shaped [1; 1; 1; 1]%nat [NaN]).
Proof.
  unfold frangi, frangi_run. cbn [Nat.eqb orb negb scale_sigmas existsb].
  rewrite Rltb_false by lra. cbn [orb frangi_loop].
  rewrite hessian_eigenvalues_sigma_zero. cbn [bind].
  rewrite frangi_scale_nan. reflexivity.
Qed.

End Frangi.

(* ================================================================= *)
(** ** The Gaussian derivative kernels *)

Section Kernels.

Lemma sqrt_2PI_pos : 0 < sqrt (2 * PI).
Proof. apply sqrt_lt_R0. pose proof PI_RGT_0. lra. Qed.


Lemma var_pos (sigma : R) : 0 < sigma -> 0 < sigma ^ 2.
Proof. intros H. simpl. nra. Qed.

Lemma var_neq (sigma : R) : 0 < sigma -> sigma ^ 2 <> 0.
Proof. intros H. pose proof (var_pos sigma H). lra. Qed.

Lemma two_var_neq (sigma : R) : 0 < sigma -> 2 * sigma ^ 2 <> 0.
Proof. intros H. pose proof (var_pos sigma H). lra. Qed.

Lemma sqrt_2PI_sigma_neq (sigma : R) :
  0 < sigma -> sqrt (2 * PI) * sigma <> 0.
Proof. intros H. pose proof sqrt_2PI_pos. apply Rgt_not_eq. nra. Qed.

(** *** The sampled density, with the underflow of its exponential *)

Lemma exponent_nonpos (sigma x : R) :
  0 < sigma -> - (x * x) / (2 * sigma ^ 2) <= 0.
Proof.
  intros Hs. apply neg_sq_div_nonpos. pose proof (var_pos sigma Hs). lra.
Qed.

Lemma exponent_le (sigma x y : R) :
  0 < sigma -> x * x <= y * y ->
  - (y * y) / (2 * sigma ^ 2) <= - (x * x) / (2 * sigma ^ 2).
Proof.
  intros Hs H. pose proof (var_pos sigma Hs) as Hv.
  unfold Rdiv. apply Rmult_le_compat_r; [|lra].
  left. apply Rinv_0_lt_compat. lra.
Qed.

Lemma gauss_nonneg (sigma x : R) : 0 < sigma -> 0 <= gauss sigma x.
Proof.
  intros Hs. unfold gauss, Rdiv.
  apply Rmult_le_pos; [apply exp32_nonneg|].
  left. apply Rinv_0_lt_compat.
  apply Rmult_lt_0_compat; [apply sqrt_2PI_pos | exact Hs].
Qed.

(** The density is positive where its exponential does not underflow. *)
Lemma gauss_pos (sigma x : R) :
  0 < sigma -> float32_tiny < exp (- (x * x) / (2 * sigma ^ 2)) ->
  0 < gauss sigma x.
Proof.
  intros Hs Hu. unfold gauss. rewrite exp32_exact by exact Hu.
  apply Rdiv_lt_0_compat; [apply exp_pos|].
  apply Rmult_lt_0_compat; [apply sqrt_2PI_pos | exact Hs].
Qed.

Lemma gauss_pos_near (sigma x : R) :
  0 < sigma -> x * x <= 150 * sigma ^ 2 -> 0 < gauss sigma x.
Proof.
  intros Hs Hx. apply gauss_pos; [exact Hs|]. apply exp_no_underflow.
  pose proof (var_pos sigma Hs) as Hv.
  apply Rmult_le_reg_r with (r := 2 * sigma ^ 2); [lra|].
  replace (- (x * x) / (2 * sigma ^ 2) * (2 * sigma ^ 2)) with (- (x * x))
    by (field; lra).
  lra.
Qed.


Lemma gauss_0 (sigma : R) :
  0 < sigma -> gauss sigma 0 = / (sqrt (2 * PI) * sigma).
Proof.
  intros Hs. unfold gauss.
  replace (- (0 * 0) / (2 * sigma ^ 2)) with 0 by (field; lra).
  rewrite exp32_0. unfold Rdiv. now rewrite Rmult_1_l.
Qed.

Lemma gauss_0_pos (sigma : R) : 0 < sigma -> 0 < gauss sigma 0.
Proof.
  intros Hs. rewrite gauss_0 by exact Hs. apply Rinv_0_lt_compat.
  apply Rmult_lt_0_compat; [apply sqrt_2PI_pos | exact Hs].
Qed.

(** The density does not grow with the distance to 0. *)
Lemma gauss_decreasing (sigma x y : R) :
  0 < sigma -> x * x <= y * y -> gauss sigma y <= gauss sigma x.
Proof.
  intros Hs H. unfold gauss, Rdiv. apply Rmult_le_compat_r.
  - left. apply Rinv_0_lt_compat.
    apply Rmult_lt_0_compat; [apply sqrt_2PI_pos | exact Hs].
  - apply exp32_le. now apply exponent_le.
Qed.

Lemma gauss_minus_1 (sigma : R) : gauss sigma (-1) = gauss sigma 1.
Proof. unfold gauss. now replace (-1 * -1) with (1 * 1) by ring. Qed.

(** *** The sample coordinates *)

Lemma arange_samples (radius : Z) :
  (0 <= radius)%Z ->
  arange_int (- radius) (radius + 1) = Ok (map Fin (samples radius)).
Proof.
  intros Hr. unfold arange_int, samples.
  replace (radius + 1 <? - radius)%Z with false
    by (symmetry; apply Z.ltb_ge; lia).
  now rewrite map_map.
Qed.

Lemma samples_length (radius : Z) :
  (0 <= radius)%Z -> length (samples radius) = Z.to_nat (2 * radius + 1).
Proof.
  intros Hr. unfold samples. rewrite length_map, length_seq. f_equal. lia.
Qed.

Lemma samples_nonempty (radius : Z) : (0 <= radius)%Z -> samples radius <> [].
Proof.
  intros Hr E. apply (f_equal (@length R)) in E.
  rewrite samples_length in E by assumption. cbn [length] in E. lia.
Qed.

Lemma Rsum_samples (radius : Z) : (0 <= radius)%Z -> Rsum (samples radius) = 0.
Proof.
  intros Hr. unfold samples. rewrite Rsum_arith.
  rewrite INR_IZR_INZ, Z2Nat.id by lia.
  replace (radius + 1 - - radius)%Z with (2 * radius + 1)%Z by lia.
  rewrite opp_IZR, plus_IZR, mult_IZR. lra.
Qed.


Lemma samples_1 : samples 1 = [-1; 0; 1].
Proof. reflexivity. Qed.

(** A sample is 0 or at distance 1 at least from 0, and 1 is a sample as
    soon as the radius is 1. *)
Lemma samples_integer (radius : Z) (x : R) :
  In x (samples radius) -> x = 0 \/ 1 <= x * x.
Proof.
  unfold samples. intros H. apply in_map_iff in H as (i & <- & _).
  set (z := (- radius + Z.of_nat i)%Z).
  destruct (Z.eq_dec z 0) as [-> | Hz]; [now left | right].
  rewrite <- mult_IZR. apply IZR_le. nia.
Qed.

Lemma samples_In_1 (radius : Z) : (1 <= radius)%Z -> In 1 (samples radius).
Proof.
  intros Hr. unfold samples. apply in_map_iff.
  exists (Z.to_nat (radius + 1)). split.
  - f_equal. lia.
  - apply in_seq. lia.
Qed.

(** *** The kernels of a positive sigma, before the last division *)

Lemma gauss_fin (sigma : R) (X : list R) :
  0 < sigma ->
  map (fun xi =>
         xdiv (xexp (xdiv (xneg (xsquare xi))
                          (xmul (Fin 2) (Fin (sigma ^ 2)))))
              (Fin (sqrt (2 * PI) * sigma))) (map Fin X)
  = map Fin (map (gauss sigma) X).
Proof.
  intros Hs. apply map_fin. intros x. cbn [xsquare xmul xneg].
  rewrite xdiv_fin by now apply two_var_neq.
  rewrite xexp_fin by now apply exponent_nonpos.
  rewrite xdiv_fin by now apply sqrt_2PI_sigma_neq.
  reflexivity.
Qed.

Lemma kernel_order0 (sigma truncate : R) :
  0 < sigma -> (0 <= Zceil (sigma * truncate))%Z ->
  _gaussian_kernel_1d sigma 0 truncate
  = Ok (map Fin (map (gauss sigma) (samples (Zceil (sigma * truncate))))).
Proof.
  intros Hs Hr. unfold _gaussian_kernel_1d.
  rewrite arange_samples by exact Hr. cbn [bind Z.eqb].
  now rewrite gauss_fin.
Qed.

Lemma order1_prefix (sigma truncate : R) :
  0 < sigma -> (0 <= Zceil (sigma * truncate))%Z ->
  let X := samples (Zceil (sigma * truncate)) in
  let raw := map (raw1 sigma) X in
  let centred := map (fun v => v + - Rmean raw) raw in
  _gaussian_kernel_1d sigma 1 truncate
  = Ok (map (fun v => xdiv v (Fin (moment centred X / -1)))
            (map Fin centred)).
Proof.
  intros Hs Hr X raw centred. unfold _gaussian_kernel_1d.
  rewrite arange_samples by exact Hr. fold X. cbn [bind Z.eqb].
  rewrite gauss_fin by exact Hs.
  rewrite (map_fin (fun xi => xdiv (xneg xi) (Fin (sigma ^ 2)))
                   (fun x => - x / sigma ^ 2))
    by (intros x; cbn [xneg]; apply xdiv_fin; now apply var_neq).
  rewrite (map2_fin xmul Rmult) by reflexivity.
  rewrite map2_map_same.
  change (map (fun a => gauss sigma a * (- a / sigma ^ 2)) X) with raw.
  assert (Hraw : raw <> []).
  { unfold raw. intros E. apply map_eq_nil in E. revert E.
    now apply samples_nonempty. }
  rewrite xmean_fin by exact Hraw.
  rewrite (map_fin (fun v => xsub v (Fin (Rmean raw)))
                   (fun v => v + - Rmean raw)) by reflexivity.
  rewrite (map2_fin xmul Rmult) by reflexivity.
  rewrite xsum_fin. rewrite xdiv_fin by lra.
  reflexivity.
Qed.

Lemma order2_prefix (sigma truncate : R) :
  0 < sigma -> (0 <= Zceil (sigma * truncate))%Z ->
  let X := samples (Zceil (sigma * truncate)) in
  let raw := map (raw2 sigma) X in
  let centred := map (fun v => v + - Rmean raw) raw in
  _gaussian_kernel_1d sigma 2 truncate
  = Ok (map (fun v => xdiv v (Fin (moment centred (squares X) / 2)))
            (map Fin centred)).
Proof.
  intros Hs Hr X raw centred. unfold _gaussian_kernel_1d.
  rewrite arange_samples by exact Hr. fold X. cbn [bind Z.eqb].
  rewrite gauss_fin by exact Hs.
  rewrite (map2_fin _ (fun g x => g * (x * x / sigma ^ 2 + - (1)) / sigma ^ 2)).
  2:{ intros g x. cbn [xsquare xmul]. rewrite xdiv_fin by now apply var_neq.
      unfold xsub. cbn [xneg xadd xmul].
      now rewrite xdiv_fin by now apply var_neq. }
  rewrite map2_map_l.
  change (map (fun a => gauss sigma a * (a * a / sigma ^ 2 + - (1))
                        / sigma ^ 2) X) with raw.
  assert (Hraw : raw <> []).
  { unfold raw. intros E. apply map_eq_nil in E. revert E.
    now apply samples_nonempty. }
  rewrite xmean_fin by exact Hraw.
  rewrite (map_fin (fun v => xsub v (Fin (Rmean raw)))
                   (fun v => v + - Rmean raw)) by reflexivity.
  fold centred.
  rewrite (map_fin xsquare (fun v => v * v)) by reflexivity.
  rewrite (map2_fin xmul Rmult) by reflexivity.
  rewrite xsum_fin. rewrite xdiv_fin by lra.
  reflexivity.
Qed.

(** *** Normalisation *)

Lemma normalise_moments (d : R) (raw y : list R) :
  d <> 0 -> raw <> [] ->
  moment (map (fun v => v + - Rmean raw) raw) y / d <> 0 ->
  Rmean (normalise d raw y) = 0 /\ moment (normalise d raw y) y = d.
Proof.
  intros Hd Hne Hc. unfold normalise.
  set (m := Rmean raw) in *.
  set (centred := map (fun v => v + - m) raw) in *.
  set (c := moment centred y / d) in *.
  assert (Hn : INR (length raw) <> 0).
  { destruct raw; [congruence|]. apply not_0_INR. simpl. lia. }
  split.
  - unfold Rmean. rewrite Rsum_map_div. unfold centred.
    rewrite Rsum_map_shift. unfold m, Rmean.
    replace (Rsum raw - INR (length raw) * (Rsum raw / INR (length raw)))
      with 0 by (field; exact Hn).
    unfold Rdiv. lra.
  - rewrite moment_map_div. unfold c in *.
    assert (moment centred y <> 0).
    { intros E. apply Hc. rewrite E. unfold Rdiv. lra. }
    field. split; assumption.
Qed.

Lemma Rsum_nonpos (l : list R) : Forall (fun v => v <= 0) l -> Rsum l <= 0.
Proof.
  induction 1 as [|a t Ha _ IH]; [rewrite Rsum_nil; lra|].
  rewrite Rsum_cons. lra.
Qed.

Lemma Rsum_neg_In (a : R) (l : list R) :
  In a l -> a < 0 -> Forall (fun v => v <= 0) l -> Rsum l < 0.
Proof.
  intros Hin Ha Hl. induction Hl as [|b t Hb Ht IH]; [contradiction|].
  rewrite Rsum_cons. destruct Hin as [-> | Hin].
  - pose proof (Rsum_nonpos t Ht). lra.
  - specialize (IH Hin). lra.
Qed.

Lemma Rsum_zeros {A : Type} (l : list A) : Rsum (map (fun _ => 0) l) = 0.
Proof.
  induction l as [|a t IH]; [apply Rsum_nil|].
  cbn [map]. rewrite Rsum_cons, IH. lra.
Qed.

(** The divisor of the order-1 kernel is not zero as soon as the density
    at the sample 1 has not underflowed. *)
Lemma order1_divisor (sigma : R) (radius : Z) :
  0 < sigma -> (1 <= radius)%Z -> 0 < gauss sigma 1 ->
  let X := samples radius in
  let raw := map (raw1 sigma) X in
  moment (map (fun v => v + - Rmean raw) raw) X / -1 <> 0.
Proof.
  intros Hs Hr Hg X raw.
  rewrite moment_map_shift by (unfold raw; now rewrite length_map).
  replace (Rsum X) with 0 by (symmetry; apply Rsum_samples; lia).
  rewrite Rmult_0_r, Rminus_0_r.
  unfold moment, raw. rewrite map2_map_l.
  pose proof (var_pos sigma Hs) as Hv.
  assert (Hterm : forall x, raw1 sigma x * x
                            = - (gauss sigma x * (x * x) / sigma ^ 2)).
  { intros x. unfold raw1. field; lra. }
  assert (Hneg : Rsum (map (fun a => raw1 sigma a * a) X) < 0).
  { apply (Rsum_neg_In (raw1 sigma 1 * 1)).
    - apply in_map_iff. exists 1. split; [reflexivity|].
      now apply samples_In_1.
    - rewrite Hterm.
      assert (0 < gauss sigma 1 * (1 * 1) / sigma ^ 2); [|lra].
      apply Rmult_lt_0_compat; [lra | now apply Rinv_0_lt_compat].
    - apply Forall_map, Forall_forall. intros x _. rewrite Hterm.
      pose proof (gauss_nonneg sigma x Hs) as Hx.
      assert (0 <= gauss sigma x * (x * x) / sigma ^ 2); [|lra].
      apply Rmult_le_pos; [|left; now apply Rinv_0_lt_compat].
      apply Rmult_le_pos; [lra | nra]. }
  unfold Rdiv. apply Rmult_integral_contrapositive_currified; [lra|].
  apply Rinv_neq_0_compat. lra.
Qed.

Lemma kernel_order1 (sigma truncate : R) :
  0 < sigma -> (1 <= Zceil (sigma * truncate))%Z -> 0 < gauss sigma 1 ->
  let X := samples (Zceil (sigma * truncate)) in
  _gaussian_kernel_1d sigma 1 truncate
  = Ok (map Fin (normalise (-1) (map (raw1 sigma) X) X)).
Proof.
  intros Hs Hr Hg X. rewrite order1_prefix by (try exact Hs; lia).
  fold X. unfold normalise.
  rewrite (map_fin _ (fun v =>
             v / (moment (map (fun v => v + - Rmean (map (raw1 sigma) X))
                              (map (raw1 sigma) X)) X / -1))).
  - reflexivity.
  - intros x. apply xdiv_fin. now apply order1_divisor.
Qed.

(** Where the density at the sample 1 has underflowed, the order-1 kernel
    is 0/0 at every sample. *)
Lemma kernel_order1_underflow (sigma truncate : R) :
  0 < sigma -> (0 <= Zceil (sigma * truncate))%Z -> gauss sigma 1 = 0 ->
  let X := samples (Zceil (sigma * truncate)) in
  _gaussian_kernel_1d sigma 1 truncate = Ok (map (fun _ => NaN) X).
Proof.
  intros Hs Hr Hg X. rewrite order1_prefix by assumption. fold X.
  pose proof (var_pos sigma Hs) as Hv.
  assert (Hraw : map (raw1 sigma) X = map (fun _ => 0) X).
  { apply map_ext_in. intros x Hx. unfold raw1.
    apply samples_integer in Hx as [-> | Hx].
    - unfold Rdiv. ring.
    - pose proof (gauss_nonneg sigma x Hs) as H0.
      pose proof (gauss_decreasing sigma 1 x Hs) as H1.
      replace (gauss sigma x) with 0 by lra. ring. }
  rewrite Hraw.
  assert (Hm : Rmean (map (fun _ : R => 0) X) = 0).
  { unfold Rmean. rewrite Rsum_zeros. unfold Rdiv. ring. }
  rewrite Hm. rewrite !map_map.
  assert (Hmom : moment (map (fun _ : R => 0 + - 0) X) X = 0).
  { unfold moment. clear. induction X as [|x t IH]; [apply Rsum_nil|].
    cbn [map map2]. rewrite Rsum_cons, IH. ring. }
  rewrite Hmom. f_equal. apply map_ext. intros x.
  apply xdiv_zero_zero; unfold Rdiv; ring.
Qed.

(** An order-2 kernel with finite coefficients has a non-zero divisor and
    is the normalised raw kernel. *)
Lemma kernel_order2 (sigma truncate : R) (k2 : list R) :
  0 < sigma -> (0 <= Zceil (sigma * truncate))%Z ->
  let X := samples (Zceil (sigma * truncate)) in
  let raw := map (raw2 sigma) X in
  _gaussian_kernel_1d sigma 2 truncate = Ok (map Fin k2) ->
  moment (map (fun v => v + - Rmean raw) raw) (squares X) / 2 <> 0
  /\ k2 = normalise 2 raw (squares X).
Proof.
  intros Hs Hr X raw. rewrite order2_prefix by assumption.
  fold X. fold raw.
  set (centred := map (fun v => v + - Rmean raw) raw).
  set (c := moment centred (squares X) / 2).
  intros E. inversion E as [E']. clear E.
  assert (Hc : c <> 0).
  { intros Hc. rewrite Hc in E'.
    assert (Hne : centred <> []).
    { unfold centred, raw. intros E. apply map_eq_nil in E.
      apply map_eq_nil in E. revert E. now apply samples_nonempty. }
    destruct centred as [|v t]; [congruence|].
    destruct k2 as [|r k2]; [discriminate|].
    cbn [map] in E'. injection E' as E1 _.
    simpl in E1. rewrite Reqb_true in E1 by reflexivity.
    now apply inf_of_sign_not_fin in E1. }
  split; [exact Hc|].
  rewrite (map_fin _ (fun v => v / c)) in E'
    by (intros x; now apply xdiv_fin).
  apply map_Fin_inj in E'. now rewrite <- E'.
Qed.



(** *** The kernel of one sample *)


End Kernels.

Section KernelMoments.

Lemma Zceil_quarter_4 : Zceil (1 / 4 * 4) = 1%Z.
Proof. replace (1 / 4 * 4) with (IZR 1) by field. apply Zceil_IZR. Qed.






End KernelMoments.

(* ================================================================= *)
(** ** The fused 3D Hessian against separable filtering *)

Section Fused.

Lemma Zceil_1_1 : Zceil (1 * 1) = 1%Z.
Proof. replace (1 * 1) with (IZR 1) by ring. apply Zceil_IZR. Qed.

Lemma kernel3_eq (a b c a' b' c' : R) :
  a = a' -> b = b' -> c = c' ->
  @Ok (list xreal) [Fin a; Fin b; Fin c] = Ok [Fin a'; Fin b'; Fin c'].
Proof. now intros -> -> ->. Qed.

(** For sigma = 1 the density has not underflowed at the samples 0
    and 1. *)
Lemma gauss_unit_0 : 0 < gauss 1 0.
Proof. apply gauss_0_pos. lra. Qed.

Lemma gauss_unit_1 : 0 < gauss 1 1.
Proof. apply gauss_pos_near; simpl; lra. Qed.

(** The three kernels for sigma = 1, truncate = 1 (radius 1). *)
Lemma kernel0_unit :
  _gaussian_kernel_1d 1 0 1
  = Ok [Fin (gauss 1 1); Fin (gauss 1 0); Fin (gauss 1 1)].
Proof.
  rewrite kernel_order0 by (rewrite ?Zceil_1_1; lra || lia).
  rewrite Zceil_1_1, samples_1. cbn [map].
  now rewrite gauss_minus_1.
Qed.

Lemma kernel1_unit :
  _gaussian_kernel_1d 1 1 1 = Ok [Fin (1 / 2); Fin 0; Fin (- (1 / 2))].
Proof.
  rewrite order1_prefix by (rewrite ?Zceil_1_1; lra || lia).
  rewrite Zceil_1_1, samples_1. cbn [map].
  pose proof gauss_unit_1 as Hb.
  set (c := moment _ _ / -1).
  assert (Hc : c = 2 * gauss 1 1).
  { unfold c, moment, Rmean, Rsum, raw1. rewrite gauss_minus_1.
    simpl. field. }
  rewrite !xdiv_fin by lra. rewrite Hc.
  apply kernel3_eq; unfold Rmean, Rsum, raw1; rewrite gauss_minus_1;
    simpl; field; lra.
Qed.

Lemma kernel2_unit :
  _gaussian_kernel_1d 1 2 1 = Ok [Fin 1; Fin (-2); Fin 1].
Proof.
  rewrite order2_prefix by (rewrite ?Zceil_1_1; lra || lia).
  rewrite Zceil_1_1, samples_1. cbn [map].
  pose proof gauss_unit_0 as Ha.
  set (c := moment _ _ / 2).
  assert (Hc : c = gauss 1 0 / 3).
  { unfold c, moment, squares, Rmean, Rsum, raw2. simpl. field. }
  rewrite !xdiv_fin by lra. rewrite Hc.
  apply kernel3_eq; unfold Rmean, Rsum, raw2; simpl; field; lra.
Qed.

(** C1 fails on the code.  On the 2 x 2 x 3 ridge image, with sigma = 1,
    truncate = 1 and the reflect mode, the xx component of the fused path
    is 0 at the corner voxel, where three separable passes of
    [gaussian_filter] with order [0, 0, 2] give 2 (g(0) + 2 g(1))^2 > 0:
    the fused path never reads [mode], its convolutions pad with zeros,
    and the padding is given to another axis than the one the kernel runs
    along. *)
Theorem hessian_3d_differs_from_separable :
  exists H xx v,
    _hessian_3d ridge 1 1 Reflect = Ok H
    /\ gaussian_filter 3 ridge 1 (inr [0; 0; 2]%Z) Reflect 1 = Ok xx
    /\ component H 0 [0; 0; 0]%nat = Fin 0
    /\ component [xx] 0 [0; 0; 0]%nat = Fin v
    /\ v = 2 * ((gauss 1 0 + 2 * gauss 1 1) * (gauss 1 0 + 2 * gauss 1 1))
    /\ 0 < v.
Proof.
  unfold _hessian_3d, gaussian_filter, _conv.
  cbn [length Nat.eqb bind combine seq fold_left].
  rewrite !kernel0_unit, !kernel1_unit, !kernel2_unit.
  pose proof gauss_unit_0 as Ha.
  pose proof gauss_unit_1 as Hb.
  revert Ha Hb. generalize (gauss 1 0) (gauss 1 1). intros a b Ha Hb.
  eexists. eexists. exists (2 * ((a + 2 * b) * (a + 2 * b))).
  split; [vm_compute; reflexivity|].
  split; [vm_compute; reflexivity|].
  split; [|split; [|split]].
  - vm_compute. f_equal. ring.
  - vm_compute. f_equal. ring.
  - reflexivity.
  - nra.
Qed.

(** The same corner with the constant (zero) mode: the separable passes
    pad every axis with zeros and give (g(0) + g(1))^2, the fused path
    still gives 0, its last-axis border being filled after the last-axis
    convolution has run without padding. *)
Lemma hessian_3d_differs_in_constant_mode :
  exists H xx v,
    _hessian_3d ridge 1 1 Constant = Ok H
    /\ gaussian_filter 3 ridge 1 (inr [0; 0; 2]%Z) Constant 1 = Ok xx
    /\ component H 0 [0; 0; 0]%nat = Fin 0
    /\ component [xx] 0 [0; 0; 0]%nat = Fin v
    /\ v = (gauss 1 0 + gauss 1 1) * (gauss 1 0 + gauss 1 1)
    /\ 0 < v.
Proof.
  unfold _hessian_3d, gaussian_filter, _conv.
  cbn [length Nat.eqb bind combine seq fold_left].
  rewrite !kernel0_unit, !kernel1_unit, !kernel2_unit.
  pose proof gauss_unit_0 as Ha.
  pose proof gauss_unit_1 as Hb.
  revert Ha Hb. generalize (gauss 1 0) (gauss 1 1). intros a b Ha Hb.
  eexists. eexists. exists ((a + b) * (a + b)).
  split; [vm_compute; reflexivity|].
  split; [vm_compute; reflexivity|].
  split; [|split; [|split]].
  - vm_compute. f_equal. ring.
  - vm_compute. f_equal. ring.
  - reflexivity.
  - nra.
Qed.

End Fused.

(* ================================================================= *)
(** ** More of linalg.py: the eigenvalues as roots *)

Section LinalgMore.

Lemma deth3_fin (a b c d e f : R) :
  deth3 (Fin a) (Fin b) (Fin c) (Fin d) (Fin e) (Fin f)
  = Fin (sym_det3 a b c d e f).
Proof.
  unfold deth3, xsub, xsquare, sym_det3. cbn [xadd xmul xneg].
  f_equal. ring.
Qed.

(** X1: the two values [eigvalsh2] returns on finite components sum to
    the trace, multiply to the determinant, and are exactly the roots of
    the characteristic polynomial of the symmetric 2 x 2 matrix. *)
Theorem eigvalsh2_characteristic (ii ij jj : R) :
  exists l1 l2,
    eigvalsh2 (Fin ii) (Fin ij) (Fin jj) = [Fin l1; Fin l2]
    /\ l1 + l2 = ii + jj
    /\ l1 * l2 = ii * jj - ij * ij
    /\ forall l, (ii - l) * (jj - l) - ij * ij = 0 <-> l = l1 \/ l = l2.
Proof.
  rewrite eigvalsh2_fin.
  set (D := (ii + jj) * (ii + jj) - 4 * (ii * jj - ij * ij)).
  assert (HD : 0 <= D).
  { unfold D. replace ((ii + jj) * (ii + jj) - 4 * (ii * jj - ij * ij))
      with ((ii - jj) * (ii - jj) + 4 * (ij * ij)) by ring.
    pose proof (sq_nonneg (ii - jj)). pose proof (sq_nonneg ij). lra. }
  rewrite Rmax_left by exact HD.
  pose proof (sqrt_sqrt D HD) as Hs.
  set (s := sqrt D) in *.
  eexists. eexists. split; [reflexivity|].
  assert (Hsum : (ii + jj - s) / 2 + (ii + jj + s) / 2 = ii + jj) by lra.
  assert (Hprod : (ii + jj - s) / 2 * ((ii + jj + s) / 2) = ii * jj - ij * ij).
  { unfold D in Hs. nra. }
  split; [exact Hsum|]. split; [exact Hprod|].
  intros l.
  assert (E : (ii - l) * (jj - l) - ij * ij
              = (l - (ii + jj - s) / 2) * (l - (ii + jj + s) / 2)) by nra.
  rewrite E. split.
  - intros H. apply Rmult_integral in H. destruct H; [left | right]; lra.
  - intros [-> | ->]; ring.
Qed.

Lemma eigvalsh3_trig (ii ij ik jj jk kk eps : R) :
  0 < eps ->
  exists p phi : R,
    0 <= p /\ 0 <= phi <= PI / 3
    /\ p * p = (2 * (ij * ij + ik * ik + jk * jk)
                + ((ii - (ii + jj + kk) / 3) * (ii - (ii + jj + kk) / 3)
                   + (jj - (ii + jj + kk) / 3) * (jj - (ii + jj + kk) / 3)
                   + (kk - (ii + jj + kk) / 3) * (kk - (ii + jj + kk) / 3))) / 6
    /\ cos (3 * phi)
       = Rmin (Rmax (sym_det3 (ii - (ii + jj + kk) / 3) ij ik
                              (jj - (ii + jj + kk) / 3) jk
                              (kk - (ii + jj + kk) / 3)
                     / (p * p * p + eps) / 2) (-1)) 1
    /\ eigvalsh3 (Fin ii) (Fin ij) (Fin ik) (Fin jj) (Fin jk) (Fin kk) eps =
       [ Fin ((ii + jj + kk) / 3 + 2 * p * cos (phi + 2 * PI / 3));
         Fin ((ii + jj + kk) / 3
              - 2 * p * (cos (phi + 2 * PI / 3) + cos phi));
         Fin ((ii + jj + kk) / 3 + 2 * p * cos phi) ].
Proof.
  intros Heps.
  unfold eigvalsh3, deth3, xsum, xsquare, xpow3, xsub, xclamp.
  cbn [fold_left map xadd xmul xneg].
  rewrite (xdiv_fin _ 3) by lra.
  cbn [fold_left map xadd xmul xneg].
  rewrite (xdiv_fin _ 6) by lra.
  match goal with |- context [xsqrt (Fin ?a)] => set (a0 := a) end.
  assert (Ha0 : 0 <= a0).
  { unfold a0, Rdiv. apply Rmult_le_pos; [|lra].
    repeat apply Rplus_le_le_0_compat; try lra;
      try (apply Rmult_le_pos; [lra|]);
      repeat apply Rplus_le_le_0_compat; try lra; apply sq_nonneg. }
  rewrite xsqrt_fin by exact Ha0.
  pose proof (sqrt_pos a0) as Hp.
  pose proof (sqrt_sqrt a0 Ha0) as Hpp.
  set (p := sqrt a0) in *.
  cbn [xadd xmul xneg].
  assert (Hden : p * p * p + eps <> 0) by nra.
  rewrite (xdiv_fin _ (p * p * p + eps)) by exact Hden.
  rewrite (xdiv_fin _ 2) by lra.
  rewrite xmaximum_fin, xminimum_fin.
  match goal with |- context [xarccos (Fin ?a)] => set (r := a) end.
  assert (Hr : -1 <= r <= 1).
  { unfold r. split.
    - apply Rmin_glb; [apply Rmax_r | lra].
    - apply Rmin_r. }
  rewrite xarccos_fin by exact Hr.
  rewrite (xdiv_fin _ 3) by lra.
  cbn [xadd xmul xneg xcos].
  exists p, (acos r / 3).
  split; [exact Hp|].
  split; [pose proof (acos_bound r); lra|].
  split; [rewrite Hpp; unfold a0; lra|].
  split.
  { replace (3 * (acos r / 3)) with (acos r) by lra.
    rewrite cos_acos by exact Hr. unfold r.
    apply (f_equal (fun t => Rmin (Rmax (t / (p * p * p + eps) / 2) (-1)) 1)).
    unfold sym_det3. field. }
  apply f_equal2; [f_equal; lra|].
  apply f_equal2; [f_equal; lra|].
  apply f_equal2; [f_equal; lra | reflexivity].
Qed.

Lemma cos_shift_2PI3 (phi : R) :
  cos (phi + 2 * PI / 3) = - cos phi / 2 - sqrt 3 / 2 * sin phi.
Proof.
  replace (2 * PI / 3) with (2 * (PI / 3)) by lra.
  rewrite cos_plus, cos_2PI3, sin_2PI3. lra.
Qed.

(** X2: on finite components and a positive [eps], [eigvalsh3] returns
    three finite values in ascending order, as its docstring says. *)
Theorem eigvalsh3_ascending (ii ij ik jj jk kk eps : R) :
  0 < eps ->
  exists e1 e2 e3,
    eigvalsh3 (Fin ii) (Fin ij) (Fin ik) (Fin jj) (Fin jk) (Fin kk) eps
    = [Fin e1; Fin e2; Fin e3]
    /\ e1 <= e2 <= e3.
Proof.
  intros Heps.
  destruct (eigvalsh3_trig ii ij ik jj jk kk eps Heps)
    as (p & phi & Hp & Hphi & _ & _ & E).
  rewrite E. eexists. eexists. eexists. split; [reflexivity|].
  rewrite cos_shift_2PI3.
  pose proof PI_RGT_0 as Hpi.
  assert (Hs : 0 <= sin phi) by (apply sin_ge_0; lra).
  assert (Hs3 : 0 <= sqrt 3) by apply sqrt_pos.
  assert (Hm : 0 <= sin (PI / 3 - phi)) by (apply sin_ge_0; lra).
  rewrite sin_minus, sin_PI3, cos_PI3 in Hm.
  assert (H3 : sqrt 3 * sqrt 3 = 3) by (apply sqrt_sqrt; lra).
  set (c := cos phi) in *. set (s := sin phi) in *. set (w := sqrt 3) in *.
  assert (Hws : 0 <= w * s) by (apply Rmult_le_pos; assumption).
  assert (Hc : 0 <= 3 * c - w * s).
  { assert (0 <= w * (w / 2 * c - 1 / 2 * s)) by (apply Rmult_le_pos; lra).
    nra. }
  assert (H1 : 0 <= p * (w * s)) by (apply Rmult_le_pos; assumption).
  assert (H2 : 0 <= p * (3 * c - w * s)) by (apply Rmult_le_pos; assumption).
  split; nra.
Qed.

Lemma eigvalsh3_ascending_witness :
  exists e1 e2 e3,
    eigvalsh3 (Fin 1) (Fin 2) (Fin 4) (Fin 3) (Fin 5) (Fin 6) eigvalsh3_eps
    = [Fin e1; Fin e2; Fin e3]
    /\ e1 <= e2 <= e3.
Proof.
  apply (eigvalsh3_ascending 1 2 4 3 5 6 eigvalsh3_eps).
  unfold eigvalsh3_eps. apply Rinv_0_lt_compat, pow_lt. lra.
Defined.

(** X3: the squares of the values [eigvalsh3] returns sum to the squared
    Frobenius norm of the matrix, whatever the positive [eps]. *)
Theorem eigvalsh3_frobenius (ii ij ik jj jk kk eps : R) :
  0 < eps ->
  exists e1 e2 e3,
    eigvalsh3 (Fin ii) (Fin ij) (Fin ik) (Fin jj) (Fin jk) (Fin kk) eps
    = [Fin e1; Fin e2; Fin e3]
    /\ e1 * e1 + e2 * e2 + e3 * e3
       = ii * ii + jj * jj + kk * kk + 2 * (ij * ij + ik * ik + jk * jk).
Proof.
  intros Heps.
  destruct (eigvalsh3_trig ii ij ik jj jk kk eps Heps)
    as (p & phi & Hp & Hphi & Hpp & _ & E).
  rewrite E. eexists. eexists. eexists. split; [reflexivity|].
  rewrite cos_shift_2PI3.
  pose proof (sin2_cos2 phi) as Hsc. unfold Rsqr in Hsc.
  assert (H3 : sqrt 3 * sqrt 3 = 3) by (apply sqrt_sqrt; lra).
  set (c := cos phi) in *. set (s := sin phi) in *. set (w := sqrt 3) in *.
  set (q := (ii + jj + kk) / 3) in *.
  assert (Hcore :
    (q + 2 * p * (- c / 2 - w / 2 * s)) * (q + 2 * p * (- c / 2 - w / 2 * s))
    + (q - 2 * p * (- c / 2 - w / 2 * s + c))
      * (q - 2 * p * (- c / 2 - w / 2 * s + c))
    + (q + 2 * p * c) * (q + 2 * p * c)
    = 3 * (q * q) + (p * p) * (6 * (c * c) + 2 * (w * w) * (s * s))) by field.
  rewrite Hcore, H3.
  replace (6 * (c * c) + 2 * 3 * (s * s)) with (6 * (s * s + c * c)) by ring.
  rewrite Hsc, Hpp. unfold q. field.
Qed.

Lemma eigvalsh3_frobenius_witness :
  exists e1 e2 e3,
    eigvalsh3 (Fin 1) (Fin 2) (Fin 4) (Fin 3) (Fin 5) (Fin 6) eigvalsh3_eps
    = [Fin e1; Fin e2; Fin e3]
    /\ e1 * e1 + e2 * e2 + e3 * e3
       = 1 * 1 + 3 * 3 + 6 * 6 + 2 * (2 * 2 + 4 * 4 + 5 * 5).
Proof.
  apply (eigvalsh3_frobenius 1 2 4 3 5 6 eigvalsh3_eps).
  unfold eigvalsh3_eps. apply Rinv_0_lt_compat, pow_lt. lra.
Defined.

Lemma cos_3a (x : R) : cos (3 * x) = 4 * (cos x * cos x * cos x) - 3 * cos x.
Proof.
  replace (3 * x) with (2 * x + x) by ring.
  rewrite cos_plus, cos_2a_cos, sin_2a.
  pose proof (sin2_cos2 x) as H. unfold Rsqr in H.
  replace (2 * sin x * cos x * sin x) with (2 * cos x * (sin x * sin x))
    by ring.
  replace (sin x * sin x) with (1 - cos x * cos x) by lra. ring.
Qed.

(** X4: [deth3] is the determinant, and the product of the returned
    eigenvalues, each shifted by the mean q of the diagonal, is
    2 p^3 times the clamped ratio det(A - q I) / (2 (p^3 + eps)):
    det(A - q I) scaled by p^3 / (p^3 + eps) when nothing is clamped. *)
Theorem eigvalsh3_determinant (ii ij ik jj jk kk eps : R) :
  0 < eps ->
  let q := (ii + jj + kk) / 3 in
  let D := sym_det3 (ii - q) ij ik (jj - q) jk (kk - q) in
  deth3 (Fin (ii - q)) (Fin ij) (Fin ik) (Fin (jj - q)) (Fin jk) (Fin (kk - q))
  = Fin D
  /\ exists e1 e2 e3 p,
       eigvalsh3 (Fin ii) (Fin ij) (Fin ik) (Fin jj) (Fin jk) (Fin kk) eps
       = [Fin e1; Fin e2; Fin e3]
       /\ 0 <= p
       /\ 6 * (p * p)
          = 2 * (ij * ij + ik * ik + jk * jk)
            + ((ii - q) * (ii - q) + (jj - q) * (jj - q)
               + (kk - q) * (kk - q))
       /\ (e1 - q) * (e2 - q) * (e3 - q)
          = 2 * (p * p * p) * Rmin (Rmax (D / (p * p * p + eps) / 2) (-1)) 1
       /\ (Rabs D <= 2 * (p * p * p + eps) ->
           (e1 - q) * (e2 - q) * (e3 - q)
           = D * (p * p * p / (p * p * p + eps))).
Proof.
  intros Heps q D. split; [apply deth3_fin|].
  destruct (eigvalsh3_trig ii ij ik jj jk kk eps Heps)
    as (p & phi & Hp & Hphi & Hpp & Hcos & E).
  fold q in Hpp, Hcos, E. fold D in Hcos.
  rewrite E. eexists. eexists. eexists. exists p.
  split; [reflexivity|]. split; [exact Hp|]. split; [lra|].
  assert (Hprod :
    (q + 2 * p * cos (phi + 2 * PI / 3) - q)
    * (q - 2 * p * (cos (phi + 2 * PI / 3) + cos phi) - q)
    * (q + 2 * p * cos phi - q)
    = 2 * (p * p * p) * cos (3 * phi)).
  { rewrite cos_3a, cos_shift_2PI3.
    pose proof (sin2_cos2 phi) as Hsc. unfold Rsqr in Hsc.
    assert (H3 : sqrt 3 * sqrt 3 = 3) by (apply sqrt_sqrt; lra).
    set (c := cos phi) in *. set (s := sin phi) in *. set (w := sqrt 3) in *.
    replace ((q + 2 * p * (- c / 2 - w / 2 * s) - q)
             * (q - 2 * p * (- c / 2 - w / 2 * s + c) - q)
             * (q + 2 * p * c - q))
      with (2 * (p * p * p) * (c * (c * c) - (w * w) * (s * s) * c)) by field.
    rewrite H3. replace (s * s) with (1 - c * c) by lra. ring. }
  split.
  - rewrite Hprod, Hcos. reflexivity.
  - intros HD. rewrite Hprod, Hcos.
    assert (Hden : 0 < p * p * p + eps).
    { assert (0 <= p * p * p) by (repeat apply Rmult_le_pos; assumption).
      lra. }
    assert (Hr : -1 <= D / (p * p * p + eps) / 2 <= 1).
    { assert (Hb : - (2 * (p * p * p + eps)) <= D <= 2 * (p * p * p + eps)).
      { unfold Rabs in HD. destruct (Rcase_abs D); lra. }
      set (den := p * p * p + eps) in *.
      assert (Ht : 0 < / den) by now apply Rinv_0_lt_compat.
      assert (H1 : den * / den = 1) by (apply Rinv_r; lra).
      assert (H2 : D * / den <= 2 * den * / den)
        by (apply Rmult_le_compat_r; lra).
      assert (H3 : - (2 * den) * / den <= D * / den)
        by (apply Rmult_le_compat_r; lra).
      replace (2 * den * / den) with 2 in H2 by (rewrite Rmult_assoc, H1; ring).
      replace (- (2 * den) * / den) with (-2) in H3
        by (replace (- (2 * den) * / den) with (- 2 * (den * / den)) by ring;
            rewrite H1; ring).
      unfold Rdiv. lra. }
    rewrite Rmax_left by lra. rewrite Rmin_left by lra.
    field. lra.
Qed.

Lemma eigvalsh3_determinant_witness :
  let q := (1 + 3 + 6) / 3 in
  let D := sym_det3 (1 - q) 2 4 (3 - q) 5 (6 - q) in
  deth3 (Fin (1 - q)) (Fin 2) (Fin 4) (Fin (3 - q)) (Fin 5) (Fin (6 - q))
  = Fin D
  /\ exists e1 e2 e3 p,
       eigvalsh3 (Fin 1) (Fin 2) (Fin 4) (Fin 3) (Fin 5) (Fin 6) eigvalsh3_eps
       = [Fin e1; Fin e2; Fin e3]
       /\ 0 <= p
       /\ 6 * (p * p)
          = 2 * (2 * 2 + 4 * 4 + 5 * 5)
            + ((1 - q) * (1 - q) + (3 - q) * (3 - q) + (6 - q) * (6 - q))
       /\ (e1 - q) * (e2 - q) * (e3 - q)
          = 2 * (p * p * p)
            * Rmin (Rmax (D / (p * p * p + eigvalsh3_eps) / 2) (-1)) 1
       /\ (Rabs D <= 2 * (p * p * p + eigvalsh3_eps) ->
           (e1 - q) * (e2 - q) * (e3 - q)
           = D * (p * p * p / (p * p * p + eigvalsh3_eps))).
Proof.
  apply (eigvalsh3_determinant 1 2 4 3 5 6 eigvalsh3_eps).
  unfold eigvalsh3_eps. apply Rinv_0_lt_compat, pow_lt. lra.
Defined.

End LinalgMore.

(* ================================================================= *)
(** ** More of the kernels: size, errors, symmetry *)

Section KernelShape.

Lemma map2_length_eq {A B C : Type} (f : A -> B -> C) (a : list A)
  (b : list B) :
  length a = length b -> length (map2 f a b) = length a.
Proof.
  revert b. induction a as [|x t IH]; intros [|y b] H; simpl in *;
    try discriminate; try reflexivity. f_equal. apply IH. lia.
Qed.

Lemma kernel_length (sigma : R) (order : Z) (truncate : R) (k : list xreal) :
  _gaussian_kernel_1d sigma order truncate = Ok k ->
  let radius := Zceil (sigma * truncate) in
  (0 <= radius)%Z
  /\ length k = (2 * Z.to_nat radius + 1)%nat
  /\ (length k / 2)%nat = Z.to_nat radius.
Proof.
  intros H radius. unfold _gaussian_kernel_1d in H. fold radius in H.
  unfold arange_int in H.
  destruct (radius + 1 <? - radius)%Z eqn:Hr; [discriminate|].
  apply Z.ltb_ge in Hr. cbn [bind] in H.
  assert (H0 : (0 <= radius)%Z) by lia.
  assert (Hhalf : ((2 * Z.to_nat radius + 1) / 2)%nat = Z.to_nat radius).
  { symmetry. apply (Nat.div_unique _ 2 _ 1); lia. }
  assert (Hk : length k = (2 * Z.to_nat radius + 1)%nat).
  { destruct (order =? 0)%Z; [|destruct (order =? 1)%Z;
                                [|destruct (order =? 2)%Z; [|discriminate]]];
      inversion H; subst k;
      rewrite ?length_map, ?map2_length_eq by (now rewrite !length_map);
      rewrite ?length_map, length_seq; lia. }
  rewrite Hk. auto.
Qed.

(** X5: [_gaussian_kernel_1d] returns a kernel exactly when the radius
    ceil(sigma * truncate) is not negative and the order is 0, 1 or 2;
    the kernel then has 2 * radius + 1 coefficients, so that the padding
    [len(kernel) // 2] of [_conv] is the radius; otherwise it raises the
    error of [torch.arange] (negative radius) or NotImplementedError. *)
Theorem gaussian_kernel_cases (sigma : R) (order : Z) (truncate : R) :
  let radius := Zceil (sigma * truncate) in
  match _gaussian_kernel_1d sigma order truncate with
  | Ok k =>
      (0 <= radius)%Z /\ (0 <= order <= 2)%Z
      /\ length k = (2 * Z.to_nat radius + 1)%nat
      /\ (length k / 2)%nat = Z.to_nat radius
  | Raise e =>
      ((radius < 0)%Z
       /\ e = RuntimeError "upper bound and larger bound inconsistent with step sign")
      \/ ((0 <= radius)%Z /\ (order < 0 \/ 2 < order)%Z
          /\ e = NotImplementedError "Only supports order in [0, 1, 2]")
  end.
Proof.
  intros radius. unfold _gaussian_kernel_1d. fold radius.
  unfold arange_int.
  destruct (radius + 1 <? - radius)%Z eqn:Hr.
  - apply Z.ltb_lt in Hr. cbn [bind]. left. split; [lia | reflexivity].
  - apply Z.ltb_ge in Hr. cbn [bind].
    assert (H0 : (0 <= radius)%Z) by lia.
    set (x := map (fun i => Fin (IZR (- radius + Z.of_nat i)))
                  (seq 0 (Z.to_nat (radius + 1 - - radius)))).
    assert (Hx : length x = (2 * Z.to_nat radius + 1)%nat).
    { unfold x. rewrite length_map, length_seq. lia. }
    assert (Hhalf : ((2 * Z.to_nat radius + 1) / 2)%nat = Z.to_nat radius).
    { symmetry. apply (Nat.div_unique _ 2 _ 1); lia. }
    destruct (order =? 0)%Z eqn:E0.
    { apply Z.eqb_eq in E0. rewrite length_map, Hx. repeat split; try lia. }
    destruct (order =? 1)%Z eqn:E1.
    { apply Z.eqb_eq in E1.
      rewrite !length_map, map2_length_eq by (now rewrite !length_map).
      rewrite length_map, Hx. repeat split; try lia. }
    destruct (order =? 2)%Z eqn:E2.
    { apply Z.eqb_eq in E2.
      rewrite !length_map, map2_length_eq by (now rewrite !length_map).
      rewrite length_map, Hx. repeat split; try lia. }
    apply Z.eqb_neq in E0, E1, E2. right. repeat split; try lia.
Qed.

End KernelShape.

Section KernelSymmetry.

Lemma rev_seq_0 (n : nat) :
  rev (seq 0 n) = map (fun i => (n - 1 - i)%nat) (seq 0 n).
Proof.
  induction n as [|n IH]; [reflexivity|].
  rewrite seq_S at 1. rewrite rev_app_distr. cbn [rev app Nat.add].
  cbn [seq map]. f_equal; [lia|].
  rewrite IH, <- seq_shift, map_map. apply map_ext_in.
  intros i Hi. apply in_seq in Hi. lia.
Qed.

Lemma rev_samples (radius : Z) :
  (0 <= radius)%Z -> rev (samples radius) = map Ropp (samples radius).
Proof.
  intros Hr. unfold samples. rewrite <- map_rev, rev_seq_0, !map_map.
  apply map_ext_in. intros i Hi. apply in_seq in Hi.
  rewrite <- opp_IZR. f_equal. lia.
Qed.

Lemma Rsum_rev (l : list R) : Rsum (rev l) = Rsum l.
Proof.
  induction l as [|a t IH]; [reflexivity|].
  cbn [rev]. rewrite Rsum_app, IH, !Rsum_cons, Rsum_nil. lra.
Qed.

Lemma Rsum_map_opp (l : list R) : Rsum (map Ropp l) = - Rsum l.
Proof.
  induction l as [|a t IH]; [simpl; rewrite Rsum_nil; lra|].
  cbn [map]. rewrite !Rsum_cons, IH. lra.
Qed.

Lemma gauss_even (sigma x : R) : gauss sigma (- x) = gauss sigma x.
Proof. unfold gauss. now replace (- x * - x) with (x * x) by ring. Qed.

Lemma raw1_odd (sigma x : R) : raw1 sigma (- x) = - raw1 sigma x.
Proof.
  unfold raw1. rewrite gauss_even. unfold Rdiv. ring.
Qed.

Lemma raw2_even (sigma x : R) : raw2 sigma (- x) = raw2 sigma x.
Proof.
  unfold raw2. rewrite gauss_even.
  now replace (- x * - x) with (x * x) by ring.
Qed.

Lemma rev_map_even (f : R -> R) (radius : Z) :
  (0 <= radius)%Z -> (forall x, f (- x) = f x) ->
  rev (map f (samples radius)) = map f (samples radius).
Proof.
  intros Hr Hf. rewrite <- map_rev, rev_samples, map_map by exact Hr.
  apply map_ext. exact Hf.
Qed.

Lemma xdiv_opp (v c : R) :
  xdiv (Fin (- v)) (Fin c) = xneg (xdiv (Fin v) (Fin c)).
Proof.
  cbn [xdiv]. destruct (Reqb c 0).
  - unfold inf_of_sign, Rltb.
    destruct (Rlt_dec 0 (- v)), (Rlt_dec (- v) 0), (Rlt_dec 0 v),
      (Rlt_dec v 0); try reflexivity; lra.
  - cbn [xneg]. f_equal. unfold Rdiv. ring.
Qed.

(** X6: for positive sigma and truncate the order-0 kernel is symmetric
    about its centre, the order-1 kernel antisymmetric and the order-2
    kernel symmetric, whether their coefficients are finite or not; those
    of the order-0 kernel are finite, and those of the order-1 kernel when
    the density at the sample 1 has not underflowed to 0. *)
Theorem gaussian_kernel_symmetry (sigma truncate : R) :
  0 < sigma -> 0 < truncate ->
  (exists k0, _gaussian_kernel_1d sigma 0 truncate = Ok (map Fin k0)
              /\ rev k0 = k0)
  /\ (exists k1, _gaussian_kernel_1d sigma 1 truncate = Ok k1
                 /\ rev k1 = map xneg k1
                 /\ (0 < gauss sigma 1 -> exists k, k1 = map Fin k))
  /\ (exists k2, _gaussian_kernel_1d sigma 2 truncate = Ok k2
                 /\ rev k2 = k2).
Proof.
  intros Hs Ht.
  assert (Hr : (1 <= Zceil (sigma * truncate))%Z) by (apply Zceil_pos; nra).
  set (X := samples (Zceil (sigma * truncate))).
  split; [|split].
  - exists (map (gauss sigma) X). split.
    + apply kernel_order0; [exact Hs | lia].
    + apply rev_map_even; [lia | apply gauss_even].
  - pose proof (order1_prefix sigma truncate Hs ltac:(lia)) as P.
    eexists. split; [exact P|]. split.
    2:{ intros Hg. exists (normalise (-1) (map (raw1 sigma) X) X).
        pose proof (kernel_order1 sigma truncate Hs Hr Hg) as K.
        rewrite P in K. injection K as K. exact K. }
    fold X.
    assert (Hrev : rev (map (raw1 sigma) X) = map Ropp (map (raw1 sigma) X)).
    { unfold X. rewrite <- map_rev, rev_samples, !map_map by lia.
      apply map_ext. apply raw1_odd. }
    assert (Hm : Rmean (map (raw1 sigma) X) = 0).
    { unfold Rmean.
      assert (E : Rsum (map (raw1 sigma) X) = 0).
      { pose proof (Rsum_rev (map (raw1 sigma) X)) as H.
        rewrite Hrev, Rsum_map_opp in H. lra. }
      rewrite E. unfold Rdiv. lra. }
    rewrite Hm.
    set (c := moment _ X / -1).
    rewrite <- !map_rev. unfold X at 1. rewrite rev_samples by lia.
    fold X. rewrite !map_map.
    apply map_ext. intros v. rewrite raw1_odd. rewrite <- xdiv_opp.
    f_equal. f_equal. ring.
  - eexists. split; [apply order2_prefix; [exact Hs | lia]|].
    fold X.
    rewrite <- map_rev. f_equal. rewrite <- map_rev. f_equal.
    rewrite <- map_rev. f_equal.
    unfold X. apply rev_map_even; [lia | apply raw2_even].
Qed.

Lemma gaussian_kernel_symmetry_witness :
  (exists k0, _gaussian_kernel_1d 1 0 1 = Ok (map Fin k0) /\ rev k0 = k0)
  /\ (exists k1, _gaussian_kernel_1d 1 1 1 = Ok k1
                 /\ rev k1 = map xneg k1
                 /\ (0 < gauss 1 1 -> exists k, k1 = map Fin k))
  /\ (exists k2, _gaussian_kernel_1d 1 2 1 = Ok k2 /\ rev k2 = k2).
Proof.
  apply (gaussian_kernel_symmetry 1 1); lra.
Defined.

End KernelSymmetry.

(* ================================================================= *)
(** ** eigvalsh on the Hessian matrix *)

Section EigvalshOfMatrix.

(** X8: [eigvalsh] (unchecked) applied to the matrix [hessian] builds with
    [as_matrix] for an image, then sorted by magnitude, is what
    [hessian_eigenvalues] returns for this image; and when [hessian]
    fails, [hessian_eigenvalues] fails with the same error. *)
Theorem eigvalsh_of_matrix_hessian (n : nat) (img : tensor n)
  (sigma truncate : R) (mode : pad_mode) :
  match hessian n img sigma true truncate mode with
  | Ok (Matrix A) =>
      (e <- eigvalsh n A false ;; Ok [amap sort_by_abs n e])
      = hessian_eigenvalues n (single img) sigma false truncate mode
  | Ok (Components _) => False
  | Raise e =>
      hessian_eigenvalues n (single img) sigma false truncate mode = Raise e
  end.
Proof.
  rewrite hessian_eigenvalues_images. unfold hessian, single, images.
  cbn [first_image other_images mapM].
  destruct (hessian_components n img sigma truncate mode) as [H|e] eqn:E;
    simpl; [|reflexivity].
  destruct n as [|[|[|[|n]]]]; simpl in E; try discriminate.
  - apply _hessian_2d_channels in E as (xx & xy & yy & ->). reflexivity.
  - apply _hessian_3d_channels in E as (xx & xy & xz & yy & yz & zz & ->).
    reflexivity.
Qed.

Lemma is_close_refl (a : xreal) : is_close a a = true <-> a <> NaN.
Proof.
  destruct a; simpl; split; intros H; try reflexivity; try discriminate;
    try congruence.
  unfold Rleb. destruct (Rle_dec _ _) as [|Hn]; [reflexivity|].
  exfalso. apply Hn. replace (r - r) with 0 by ring. rewrite Rabs_R0.
  pose proof (Rabs_pos r). pose proof (pow10_pos 5). pose proof (pow10_pos 7).
  assert (0 < / 10 ^ 5) by now apply Rinv_0_lt_compat.
  assert (0 < / 10 ^ 7) by now apply Rinv_0_lt_compat.
  unfold Rdiv. nra.
Qed.

Lemma forallb2_is_close_refl (l : list xreal) :
  forallb2 is_close l l = true <-> Forall (fun v => v <> NaN) l.
Proof.
  induction l as [|a t IH]; simpl.
  - split; [constructor | reflexivity].
  - rewrite andb_true_iff, is_close_refl, IH. split.
    + intros [Ha Ht]. now constructor.
    + intros H. inversion H; subst. now split.
Qed.

(** X9: without [check_valid], [eigvalsh] reads the upper triangle only
    (the entries below the diagonal are never used); with [check_valid], a
    symmetric matrix is rejected exactly when one of its entries is NaN
    ([assert_close] does not take NaN as equal to itself). *)
Theorem eigvalsh_validation (n : nat) (xx xy xz yy yz zz : arr xreal n) :
  let A2 := [[xx; xy]; [xy; yy]] in
  let A3 := [[xx; xy; xz]; [xy; yy; yz]; [xz; yz; zz]] in
  (forall yx,
      eigvalsh n [[xx; xy]; [yx; yy]] false
      = Ok (at_pixels n eigvalsh2_px [[xx]; [xy]; [yy]]))
  /\ (eigvalsh n A2 true = eigvalsh n A2 false
      <-> no_nan n xx /\ no_nan n xy /\ no_nan n yy)
  /\ (forall yx zx zy,
         eigvalsh n [[xx; xy; xz]; [yx; yy; yz]; [zx; zy; zz]] false
         = Ok (at_pixels n eigvalsh3_px
                         [[xx]; [xy]; [xz]; [yy]; [yz]; [zz]]))
  /\ (eigvalsh n A3 true = eigvalsh n A3 false
      <-> no_nan n xx /\ no_nan n xy /\ no_nan n xz
          /\ no_nan n yy /\ no_nan n yz /\ no_nan n zz).
Proof.
  intros A2 A3.
  split; [reflexivity|]. split; [|split; [reflexivity|]].
  - unfold eigvalsh, _is_square, _is_hermitian, A2, no_nan.
    cbn [length hd Nat.eqb bind seq list_prod map app forallb nth].
    rewrite <- !forallb2_is_close_refl.
    destruct (forallb2 is_close (aflat n xx) (aflat n xx));
      destruct (forallb2 is_close (aflat n xy) (aflat n xy));
      destruct (forallb2 is_close (aflat n yy) (aflat n yy));
      cbn [andb bind triu_split]; split; intros H;
      try discriminate; try reflexivity; try tauto;
      try (repeat split; reflexivity);
      destruct H as (? & ? & ?); discriminate.
  - unfold eigvalsh, _is_square, _is_hermitian, A3, no_nan.
    cbn [length hd Nat.eqb bind seq list_prod map app forallb nth].
    rewrite <- !forallb2_is_close_refl.
    destruct (forallb2 is_close (aflat n xx) (aflat n xx));
      destruct (forallb2 is_close (aflat n xy) (aflat n xy));
      destruct (forallb2 is_close (aflat n xz) (aflat n xz));
      destruct (forallb2 is_close (aflat n yy) (aflat n yy));
      destruct (forallb2 is_close (aflat n yz) (aflat n yz));
      destruct (forallb2 is_close (aflat n zz) (aflat n zz));
      cbn [andb bind triu_split]; split; intros H;
      try discriminate; try reflexivity; try tauto;
      try (repeat split; reflexivity);
      destruct H as (? & ? & ? & ? & ? & ?); discriminate.
Qed.

End EigvalshOfMatrix.

(* ================================================================= *)
(** ** Broadcasting *)

Section Broadcasting.

Lemma numel_pos (d : list nat) :
  Forall (fun s => (0 < s)%nat) d -> (0 < numel d)%nat.
Proof.
  induction 1 as [|s d Hs Hd IH]; simpl; [lia | nia].
Qed.

Lemma indices_length (d : list nat) : length (indices d) = numel d.
Proof.
  induction d as [|s d IH]; [reflexivity|].
  cbn [indices numel fold_right]. fold (numel d).
  generalize 0%nat. induction s as [|s IHs]; intros k; [reflexivity|].
  cbn [seq flat_map]. rewrite length_app, length_map, IH, IHs. lia.
Qed.

Lemma indices_valid (d idx : list nat) :
  In idx (indices d) -> index_of idx d.
Proof.
  revert idx. induction d as [|s d IH]; intros idx H.
  - destruct H as [<- | []]. constructor.
  - cbn [indices] in H. apply in_flat_map in H as (i & Hi & H).
    apply in_map_iff in H as (t & <- & Ht). apply in_seq in Hi.
    constructor; [lia | now apply IH].
Qed.

Lemma ravel_bound (d idx : list nat) :
  index_of idx d -> (ravel d idx < numel d)%nat.
Proof.
  induction 1 as [|i s idx d Hi _ IH]; [simpl; lia|].
  cbn [ravel numel fold_right]. fold (numel d). nia.
Qed.

(** The multi-index at position [ravel d idx] is [idx]. *)
Lemma nth_ravel (d idx dflt : list nat) :
  index_of idx d -> nth (ravel d idx) (indices d) dflt = idx.
Proof.
  induction 1 as [|i s idx d Hi Hidx IH]; [reflexivity|].
  cbn [ravel indices].
  pose proof (ravel_bound d idx Hidx) as Hb.
  pose proof (indices_length d) as Hl.
  revert Hb IH. generalize (ravel d idx) as r. intros r Hb IH.
  replace s with (i + S (s - S i))%nat by lia.
  rewrite seq_app, flat_map_app. cbn [seq flat_map Nat.add].
  assert (Hpre : length (flat_map (fun i0 => map (cons i0) (indices d))
                                  (seq 0 i)) = (i * numel d)%nat).
  { clear - Hl. generalize 0%nat. induction i as [|i IHi]; intros k;
      [reflexivity|].
    cbn [seq flat_map]. rewrite length_app, length_map, Hl, IHi. lia. }
  rewrite app_nth2 by lia. rewrite Hpre.
  replace (i * numel d + r - i * numel d)%nat with r by lia.
  rewrite app_nth1 by (rewrite length_map; lia).
  rewrite (nth_indep _ dflt (i :: dflt)) by (rewrite length_map; lia).
  rewrite (map_nth (cons i)). now rewrite IH.
Qed.

(** *** Shapes *)

Lemma broadcast_dims_spec (a b r : list nat) :
  broadcast_dims a b = Some r ->
  broadcasts_to a r /\ broadcasts_to b r.
Proof.
  revert b r. induction a as [|x a IH]; intros [|y b] r H; simpl in H;
    try discriminate.
  - inversion H. split; constructor.
  - destruct (broadcast_dims a b) as [r'|] eqn:E; [|discriminate].
    destruct (IH b r' E) as [Ha Hb].
    destruct (Nat.eqb_spec x y) as [-> | Hxy].
    { inversion H. split; constructor; auto. }
    destruct (Nat.eqb_spec x 1) as [-> | Hx].
    { inversion H. split; constructor; auto. }
    destruct (Nat.eqb_spec y 1) as [-> | Hy]; [|discriminate].
    inversion H. split; constructor; auto.
Qed.

Lemma broadcasts_to_length (s d : list nat) :
  broadcasts_to s d -> length s = length d.
Proof. apply Forall2_length. Qed.

(** The shape of a maximum of three tensors does not depend on the order
    of the last two. *)
Lemma broadcast_dims_swap (x a b d1 d2 : list nat) :
  broadcast_dims x a = Some d1 -> broadcast_dims d1 b = Some d2 ->
  exists d1', broadcast_dims x b = Some d1'
              /\ broadcast_dims d1' a = Some d2.
Proof.
  revert a b d1 d2.
  induction x as [|u x IH]; intros [|v a] [|w b] d1 d2 H1 H2;
    simpl in H1; try discriminate.
  - inversion H1; subst d1. exists []. split; [reflexivity | exact H2].
  - inversion H1; subst d1. simpl in H2. discriminate.
  - destruct (broadcast_dims x a) as [r1|] eqn:E1; [|discriminate].
    destruct d1 as [|t d1]; [repeat match type of H1 with
                                  | context [if ?c then _ else _] =>
                                      destruct c
                                  end; discriminate|].
    simpl in H2. discriminate.
  - destruct (broadcast_dims x a) as [r1|] eqn:E1; [|discriminate].
    assert (Hd1 : exists t, d1 = t :: r1
                  /\ (u = v /\ t = u \/ u <> v /\ u = 1 /\ t = v
                      \/ u <> v /\ u <> 1 /\ v = 1 /\ t = u)%nat).
    { destruct (Nat.eqb_spec u v) as [-> | Huv].
      { inversion H1. eexists; split; [reflexivity | auto]. }
      destruct (Nat.eqb_spec u 1) as [-> | Hu].
      { inversion H1. eexists; split; [reflexivity | auto]. }
      destruct (Nat.eqb_spec v 1) as [-> | Hv]; [|discriminate].
      inversion H1. eexists; split; [reflexivity|]. right. right. auto. }
    destruct Hd1 as (t & -> & Ht). clear H1.
    simpl in H2.
    destruct (broadcast_dims r1 b) as [r2|] eqn:E2; [|discriminate].
    destruct (IH a b r1 r2 E1 E2) as (r1' & E1' & E2').
    assert (Hd2 : exists t2, d2 = t2 :: r2
                  /\ (t = w /\ t2 = t \/ t <> w /\ t = 1 /\ t2 = w
                      \/ t <> w /\ t <> 1 /\ w = 1 /\ t2 = t)%nat).
    { destruct (Nat.eqb_spec t w) as [-> | Htw].
      { inversion H2. eexists; split; [reflexivity | auto]. }
      destruct (Nat.eqb_spec t 1) as [-> | Ht1].
      { inversion H2. eexists; split; [reflexivity | auto]. }
      destruct (Nat.eqb_spec w 1) as [-> | Hw]; [|discriminate].
      inversion H2. eexists; split; [reflexivity|]. right. right. auto. }
    destruct Hd2 as (t2 & -> & Ht2). clear H2.
    simpl. rewrite E1'.
    destruct (Nat.eqb_spec u w) as [Huw | Huw];
      [|destruct (Nat.eqb_spec u 1) as [Hu1 | Hu1];
        [|destruct (Nat.eqb_spec w 1) as [Hw1 | Hw1]]].
    + eexists. split; [reflexivity|]. simpl. rewrite E2'.
      destruct (Nat.eqb_spec u v); [f_equal; f_equal; lia|].
      destruct (Nat.eqb_spec u 1); [f_equal; f_equal; lia|].
      destruct (Nat.eqb_spec v 1); [f_equal; f_equal; lia|].
      exfalso. lia.
    + eexists. split; [reflexivity|]. simpl. rewrite E2'.
      destruct (Nat.eqb_spec w v); [f_equal; f_equal; lia|].
      destruct (Nat.eqb_spec w 1); [f_equal; f_equal; lia|].
      destruct (Nat.eqb_spec v 1); [f_equal; f_equal; lia|].
      exfalso. lia.
    + eexists. split; [reflexivity|]. simpl. rewrite E2'.
      destruct (Nat.eqb_spec u v); [f_equal; f_equal; lia|].
      destruct (Nat.eqb_spec u 1); [f_equal; f_equal; lia|].
      destruct (Nat.eqb_spec v 1); [f_equal; f_equal; lia|].
      exfalso. lia.
    + exfalso. lia.
Qed.

Lemma unsqueeze_to_same (d : list nat) : unsqueeze_to (length d) d = d.
Proof. unfold unsqueeze_to. now rewrite Nat.sub_diag. Qed.

(** With a second tensor of no higher rank, the shapes are compared at
    the rank of the first. *)
Lemma broadcast_shapes_rank (a b : list nat) :
  (length b <= length a)%nat ->
  broadcast_shapes a b = broadcast_dims a (unsqueeze_to (length a) b).
Proof.
  intros H. unfold broadcast_shapes.
  rewrite Nat.max_l by exact H. now rewrite unsqueeze_to_same.
Qed.

(** *** Entries *)

Lemma clamp_length (d idx : list nat) :
  length d = length idx -> length (clamp d idx) = length idx.
Proof.
  unfold clamp. revert idx. induction d as [|s d IH]; intros [|i idx] H;
    simpl in *; try discriminate; [reflexivity|].
  f_equal. apply IH. lia.
Qed.

Lemma clamp_valid (d d2 idx : list nat) :
  broadcasts_to d d2 -> index_of idx d2 -> index_of (clamp d idx) d.
Proof.
  unfold clamp. intros H. revert idx.
  induction H as [|s s2 d d2 Hs _ IH]; intros idx Hi;
    inversion Hi; subst; simpl; constructor.
  - destruct (Nat.eqb_spec s 1); lia.
  - now apply IH.
Qed.

Lemma clamp_clamp (dt d idx : list nat) :
  broadcasts_to dt d -> length idx = length d ->
  clamp dt (clamp d idx) = clamp dt idx.
Proof.
  unfold clamp. intros H. revert idx.
  induction H as [|s s2 dt d Hs _ IH]; intros [|i idx] Hl;
    simpl in *; try discriminate; [reflexivity|].
  f_equal; [|apply IH; lia].
  destruct (Nat.eqb_spec s 1) as [|Hs1]; [reflexivity|].
  destruct (Nat.eqb_spec s2 1); [lia | reflexivity].
Qed.

Lemma broadcast_get_clamp (t : shaped) (d idx : list nat) :
  length idx = length d ->
  broadcasts_to (unsqueeze_to (length d) (dims t)) d ->
  broadcast_get t (clamp d idx) = broadcast_get t idx.
Proof.
  intros Hl Hb. unfold broadcast_get.
  rewrite clamp_length by congruence. rewrite Hl.
  fold (clamp (unsqueeze_to (length d) (dims t)) (clamp d idx)).
  fold (clamp (unsqueeze_to (length d) (dims t)) idx).
  now rewrite clamp_clamp.
Qed.

(** An entry of a broadcast result, read again at a position of a shape
    the result broadcasts to. *)
Lemma broadcast_get_generated (h : list nat -> xreal) (d d2 idx : list nat) :
  broadcasts_to d d2 -> index_of idx d2 ->
  broadcast_get (Shaped d (map h (indices d))) idx = h (clamp d idx).
Proof.
  intros Hb Hi. unfold broadcast_get. cbn [dims entries].
  assert (Hl : length idx = length d).
  { rewrite (Forall2_length Hi). symmetry. now apply broadcasts_to_length. }
  rewrite Hl, unsqueeze_to_same. fold (clamp d idx).
  pose proof (clamp_valid d d2 idx Hb Hi) as Hv.
  pose proof (ravel_bound _ _ Hv) as Hr.
  rewrite (nth_indep _ NaN (h [])) by (now rewrite length_map, indices_length).
  rewrite (map_nth h). now rewrite nth_ravel.
Qed.

(** The maximum of three tensors does not depend on the order of the last
    two. *)
Lemma broadcast2_swap (f : xreal -> xreal -> xreal) (x a b x1 r : shaped) :
  (forall c u v, f (f c u) v = f (f c v) u) ->
  (length (dims a) <= length (dims x))%nat ->
  (length (dims b) <= length (dims x))%nat ->
  broadcast2 f x a = Ok x1 -> broadcast2 f x1 b = Ok r ->
  exists x2, broadcast2 f x b = Ok x2 /\ broadcast2 f x2 a = Ok r.
Proof.
  intros Hf Ha Hb H1 H2. unfold broadcast2 in *.
  rewrite broadcast_shapes_rank in H1 by exact Ha.
  destruct (broadcast_dims _ _) as [d1|] eqn:E1 in H1; [|discriminate].
  inversion H1; subst x1. clear H1. cbn [dims] in H2.
  destruct (broadcast_dims_spec _ _ _ E1) as [Fx1 Fa1].
  assert (L1 : length d1 = length (dims x)).
  { symmetry. now apply broadcasts_to_length. }
  rewrite broadcast_shapes_rank in H2 by lia. rewrite L1 in H2.
  destruct (broadcast_dims _ _) as [d2|] eqn:E2 in H2; [|discriminate].
  inversion H2; subst r. clear H2.
  destruct (broadcast_dims_spec _ _ _ E2) as [F12 Fb2].
  destruct (broadcast_dims_swap _ _ _ _ _ E1 E2) as (d1' & E1' & E2').
  destruct (broadcast_dims_spec _ _ _ E1') as [Fx1' Fb1'].
  destruct (broadcast_dims_spec _ _ _ E2') as [F12' Fa2'].
  assert (L1' : length d1' = length (dims x)).
  { symmetry. now apply broadcasts_to_length. }
  rewrite broadcast_shapes_rank by exact Hb. rewrite E1'.
  eexists. split; [reflexivity|]. cbn [dims].
  rewrite broadcast_shapes_rank by lia. rewrite L1', E2'.
  f_equal. f_equal. apply map_ext_in. intros idx Hin.
  apply indices_valid in Hin.
  assert (Hl : length idx = length (dims x)).
  { rewrite (Forall2_length Hin), <- L1. symmetry.
    now apply broadcasts_to_length. }
  rewrite (broadcast_get_generated _ d1 d2) by assumption.
  rewrite (broadcast_get_generated _ d1' d2) by assumption.
  rewrite !broadcast_get_clamp; [symmetry; apply Hf | ..];
    rewrite ?L1, ?L1', ?unsqueeze_to_same; try assumption; congruence.
Qed.

(** Every entry of a broadcast result is the operation applied to an
    entry, or to NaN where a tensor holds fewer entries than its shape
    says. *)
Lemma broadcast2_entries (P : xreal -> Prop) (f : xreal -> xreal -> xreal)
  (a b r : shaped) :
  (forall u v, P u -> P v -> P (f u v)) -> P NaN ->
  Forall P (entries a) -> Forall P (entries b) ->
  broadcast2 f a b = Ok r -> Forall P (entries r).
Proof.
  intros Hf Hn Ha Hb H. unfold broadcast2 in H.
  destruct (broadcast_shapes _ _) as [d|]; [|discriminate].
  inversion H; subst r. cbn [entries].
  assert (Hget : forall t idx, Forall P (entries t) -> P (broadcast_get t idx)).
  { intros t idx Ht. unfold broadcast_get.
    destruct (nth_in_or_default
                (ravel (unsqueeze_to (length idx) (dims t))
                       (map2 (fun s i => if (s =? 1)%nat then 0%nat else i)
                             (unsqueeze_to (length idx) (dims t)) idx))
                (entries t) NaN) as [Hin | ->]; [|exact Hn].
    rewrite Forall_forall in Ht. now apply Ht. }
  apply Forall_map, Forall_forall. intros idx _. apply Hf; now apply Hget.
Qed.

Lemma broadcast2_rank (f : xreal -> xreal -> xreal) (a b r : shaped) :
  (length (dims b) <= length (dims a))%nat ->
  broadcast2 f a b = Ok r -> length (dims r) = length (dims a).
Proof.
  intros Hl H. unfold broadcast2 in H.
  rewrite broadcast_shapes_rank in H by exact Hl.
  destruct (broadcast_dims _ _) as [d|] eqn:E; [|discriminate].
  inversion H; subst r. cbn [dims].
  destruct (broadcast_dims_spec _ _ _ E) as [Fa _].
  symmetry. now apply broadcasts_to_length.
Qed.

End Broadcasting.

(* ================================================================= *)
(** ** The loop of frangi as a fold over the scales *)

Section FrangiFold.

Lemma Rmax_swap (x y z : R) : Rmax (Rmax x y) z = Rmax (Rmax x z) y.
Proof.
  rewrite <- !Rmax_assoc. f_equal. apply Rmax_comm.
Qed.

Lemma xmaximum_swap (c a b : xreal) :
  xmaximum (xmaximum c a) b = xmaximum (xmaximum c b) a.
Proof.
  destruct c as [x| | |], a as [y| | |], b as [z| | |];
    try reflexivity;
    rewrite ?xmaximum_fin;
    try (f_equal; apply Rmax_swap);
    unfold xmaximum, xltb, Rltb, Rmax;
    repeat (match goal with
            | |- context [Rlt_dec ?u ?v] => destruct (Rlt_dec u v)
            | |- context [Rle_dec ?u ?v] => destruct (Rle_dec u v)
            end);
    try reflexivity; try (f_equal; lra); try (exfalso; lra).
Qed.

Lemma ashape_length {A : Type} (n : nat) (x : arr A n) :
  length (ashape n x) = n.
Proof.
  revert x. induction n as [|m IH]; intros x; [reflexivity|].
  cbn [ashape length]. f_equal.
  destruct x as [|s t]; [apply repeat_length | apply IH].
Qed.

Lemma zeros_like_rank (n : nat) (image : batch n) :
  length (dims (zeros_like n image)) = S (S n).
Proof.
  unfold zeros_like, batch_dims. cbn [dims length]. do 2 f_equal.
  destruct (first_image image); [apply repeat_length | apply ashape_length].
Qed.

Lemma eig_tensor_rank (n : nat) (E : list (arr (list xreal) n)) :
  length (dims (eig_tensor n E)) = S (S n).
Proof.
  unfold eig_tensor. destruct E as [|e E]; cbn [dims].
  - apply repeat_length.
  - cbn [length]. now rewrite ashape_length.
Qed.

(** The response of a scale has fewer axes than the image. *)
Lemma frangi_scale_rank n E alpha beta gamma eps r :
  frangi_scale n E alpha beta gamma eps = Ok r ->
  (length (dims r) <= S n)%nat.
Proof.
  unfold frangi_scale. intros H.
  pose proof (filter_length_le (fun d => negb (d =? 1)%nat)
                               (dims (eig_tensor n E))) as Hl.
  rewrite eig_tensor_rank in Hl.
  cbn [squeeze dims] in H.
  destruct (filter _ (dims (eig_tensor n E))) as [|d0 rest]; [discriminate|].
  cbn [length] in Hl.
  destruct (d0 =? 0)%nat; [discriminate|].
  destruct (_ <? _)%nat; [discriminate|].
  destruct (_ <? _)%nat; [discriminate|].
  apply bind_ok in H as (g & _ & H). inversion H; subst r. cbn [dims]. lia.
Qed.

Lemma frangi_scale_at_rank n image alpha beta gamma eps s r :
  frangi_scale_at n image alpha beta gamma eps s = Ok r ->
  (length (dims r) <= S n)%nat.
Proof.
  unfold frangi_scale_at. intros H. apply bind_ok in H as (E & _ & H).
  now apply frangi_scale_rank in H.
Qed.

(** *** The loop as a fold *)

Lemma running_max_raise n image alpha beta gamma eps (l : list R) e :
  fold_left (running_max n image alpha beta gamma eps) l (Raise e) = Raise e.
Proof. induction l as [|s t IH]; [reflexivity | exact IH]. Qed.

Lemma frangi_loop_fold n image alpha beta gamma eps sigmas fm log :
  snd (frangi_loop n image alpha beta gamma eps sigmas fm log)
  = fold_left (running_max n image alpha beta gamma eps) sigmas (Ok fm).
Proof.
  revert fm log. induction sigmas as [|s t IH]; intros fm log.
  - reflexivity.
  - cbn [frangi_loop fold_left]. unfold running_max at 2.
    unfold frangi_scale_at. cbn [bind].
    destruct (hessian_eigenvalues n image s false default_truncate
                                  default_mode) as [E|e]; cbn [bind].
    + destruct (frangi_scale n E alpha beta gamma eps) as [r|e]; cbn [bind].
      * destruct (torch_maximum fm r) as [fm'|e].
        -- apply IH.
        -- now rewrite running_max_raise.
      * now rewrite running_max_raise.
    + now rewrite running_max_raise.
Qed.

Lemma frangi_fold n image sigma_range scale_step sigmas alpha beta gamma eps :
  (n = 2 \/ n = 3)%nat ->
  frangi n image sigma_range scale_step sigmas alpha beta gamma eps
  = (l <- scale_sigmas sigma_range scale_step sigmas ;;
     if existsb (fun s => Rltb s 0) l then Raise sigma_error
     else fold_left (running_max n image alpha beta gamma eps) l
                    (Ok (zeros_like n image))).
Proof.
  intros Hn. unfold frangi, frangi_run.
  assert (Hb : negb ((n =? 2) || (n =? 3))%nat = false).
  { destruct Hn; subst; reflexivity. }
  rewrite Hb.
  destruct (scale_sigmas sigma_range scale_step sigmas) as [l|e];
    [|reflexivity].
  cbn [bind].
  destruct (existsb _ l); [reflexivity|].
  apply frangi_loop_fold.
Qed.

Lemma frangi_ok_rank n image sigma_range scale_step sigmas alpha beta gamma eps
  r :
  frangi n image sigma_range scale_step sigmas alpha beta gamma eps = Ok r ->
  (n = 2 \/ n = 3)%nat.
Proof.
  unfold frangi, frangi_run.
  destruct n as [|[|[|[|n]]]]; simpl; try discriminate; auto.
Qed.

Lemma running_max_ok n image alpha beta gamma eps fm s fm' :
  running_max n image alpha beta gamma eps fm s = Ok fm' ->
  exists fm0 result,
    fm = Ok fm0
    /\ frangi_scale_at n image alpha beta gamma eps s = Ok result
    /\ torch_maximum fm0 result = Ok fm'.
Proof.
  unfold running_max. intros H.
  apply bind_ok in H as (fm0 & -> & H). apply bind_ok in H as (res & Hr & H).
  now exists fm0, res.
Qed.

Lemma running_max_rank n image alpha beta gamma eps fm s fm' :
  length (dims fm) = S (S n) ->
  running_max n image alpha beta gamma eps (Ok fm) s = Ok fm' ->
  length (dims fm') = S (S n).
Proof.
  intros Hl H. apply running_max_ok in H as (fm0 & res & E & Hr & H).
  inversion E; subst fm0. apply frangi_scale_at_rank in Hr.
  apply broadcast2_rank in H; lia.
Qed.

(** Two turns of the loop can be exchanged. *)
Lemma running_max_swap n image alpha beta gamma eps fm s1 s2 r :
  length (dims fm) = S (S n) ->
  running_max n image alpha beta gamma eps
    (running_max n image alpha beta gamma eps (Ok fm) s1) s2 = Ok r ->
  running_max n image alpha beta gamma eps
    (running_max n image alpha beta gamma eps (Ok fm) s2) s1 = Ok r.
Proof.
  intros Hl H. apply running_max_ok in H as (f1 & b & E1 & Hb & H2).
  apply running_max_ok in E1 as (f0 & a & E0 & Ha & H1).
  inversion E0; subst f0. clear E0.
  pose proof (frangi_scale_at_rank _ _ _ _ _ _ _ _ Ha) as La.
  pose proof (frangi_scale_at_rank _ _ _ _ _ _ _ _ Hb) as Lb.
  destruct (broadcast2_swap xmaximum fm a b f1 r) as (x2 & E1 & E2);
    try assumption; try lia; [apply xmaximum_swap|].
  unfold running_max. cbn [bind]. rewrite Hb. cbn [bind].
  unfold torch_maximum. rewrite E1. cbn [bind]. rewrite Ha. cbn [bind].
  exact E2.
Qed.

Lemma fold_running_max_perm n image alpha beta gamma eps (l l' : list R) :
  Permutation l l' ->
  forall fm r,
    length (dims fm) = S (S n) ->
    fold_left (running_max n image alpha beta gamma eps) l (Ok fm) = Ok r ->
    fold_left (running_max n image alpha beta gamma eps) l' (Ok fm) = Ok r.
Proof.
  induction 1 as [|x l l' _ IH|x y l|l l' l'' _ IH1 _ IH2]; intros fm r Hl H.
  - exact H.
  - cbn [fold_left] in H |- *.
    destruct (running_max n image alpha beta gamma eps (Ok fm) x)
      as [fm1|e] eqn:E; [|now rewrite running_max_raise in H].
    apply IH; [|exact H]. eapply running_max_rank; eassumption.
  - cbn [fold_left] in H |- *.
    destruct (running_max n image alpha beta gamma eps
                (running_max n image alpha beta gamma eps (Ok fm) y) x)
      as [fm2|e] eqn:E; [|now rewrite running_max_raise in H].
    now rewrite (running_max_swap _ _ _ _ _ _ _ _ _ _ Hl E).
  - apply IH2; [exact Hl|]. now apply IH1.
Qed.

(** X10: one more scale at the end of the list: when [frangi] returns [r]
    on the scales [l], on [l ++ [s]] it raises the sigma error if [s] is
    negative, and otherwise returns the maximum (with broadcasting) of [r]
    and the response of the scale [s], or the error of that scale or of
    that maximum. *)
Theorem frangi_append_scale n image sigma_range scale_step l s
  alpha beta gamma eps r :
  frangi n image sigma_range scale_step (Some l) alpha beta gamma eps = Ok r ->
  frangi n image sigma_range scale_step (Some (l ++ [s])) alpha beta gamma eps
  = if Rltb s 0 then Raise sigma_error
    else (result <- frangi_scale_at n image alpha beta gamma eps s ;;
          torch_maximum r result).
Proof.
  intros H. pose proof (frangi_ok_rank _ _ _ _ _ _ _ _ _ _ H) as Hn.
  rewrite frangi_fold in H |- * by exact Hn.
  cbn [scale_sigmas bind] in H |- *.
  rewrite existsb_app. cbn [existsb].
  destruct (existsb _ l); [discriminate|]. cbn [orb]. rewrite orb_false_r.
  destruct (Rltb s 0); [reflexivity|].
  rewrite fold_left_app, H. reflexivity.
Qed.

(** X11: the result of [frangi] does not depend on the order of the
    scales: on a permutation of a list of scales on which it returns, it
    returns the same tensor. *)
Theorem frangi_order_independent n image sigma_range scale_step l l'
  alpha beta gamma eps r :
  Permutation l l' ->
  frangi n image sigma_range scale_step (Some l) alpha beta gamma eps = Ok r ->
  frangi n image sigma_range scale_step (Some l') alpha beta gamma eps = Ok r.
Proof.
  intros P H. pose proof (frangi_ok_rank _ _ _ _ _ _ _ _ _ _ H) as Hn.
  rewrite frangi_fold in H |- * by exact Hn.
  cbn [scale_sigmas bind] in H |- *.
  destruct (existsb _ l) eqn:El; [discriminate|].
  assert (El' : existsb (fun s => Rltb s 0) l' = false).
  { apply not_true_is_false. intros E.
    apply existsb_exists in E as (x & Hin & Hx).
    assert (El2 : existsb (fun s => Rltb s 0) l = true).
    { apply existsb_exists. exists x. split; [|exact Hx].
      eapply Permutation_in; [apply Permutation_sym; exact P | exact Hin]. }
    congruence. }
  rewrite El'.
  eapply fold_running_max_perm; [exact P | apply zeros_like_rank | exact H].
Qed.

End FrangiFold.

(* ================================================================= *)
(** ** The range of the response *)

Section FrangiRange.

Lemma neg_square_nonpos (a : xreal) : nonpos_or_nan (xneg (xsquare a)).
Proof.
  destruct a as [x| | |]; simpl.
  - right; right. exists (- (x * x)). split; [reflexivity|].
    pose proof (sq_nonneg x). lra.
  - right; left; reflexivity.
  - right; left; reflexivity.
  - left; reflexivity.
Qed.

Lemma xdiv_nonpos (t d : xreal) :
  nonpos_or_nan t ->
  (d = NaN \/ d = PInf \/ exists y, d = Fin y /\ 0 <= y) ->
  nonpos_or_nan (xdiv t d).
Proof.
  intros [-> | [-> | (x & -> & Hx)]] [-> | [-> | (y & -> & Hy)]];
    try (left; reflexivity).
  - simpl. rewrite Rltb_false by exact Hy. right; left; reflexivity.
  - right; right. exists 0. split; [reflexivity | lra].
  - simpl. unfold Reqb. destruct (Req_dec_T y 0) as [E|E].
    + unfold inf_of_sign. rewrite Rltb_false by exact Hx.
      unfold Rltb. destruct (Rlt_dec x 0).
      * right; left; reflexivity.
      * left; reflexivity.
    + right; right. exists (x / y). split; [reflexivity|].
      assert (0 < y) by lra.
      replace (x / y) with (- (- x / y)) by (field; lra).
      assert (0 <= - x / y).
      { apply Rmult_le_pos; [lra|]. left. now apply Rinv_0_lt_compat. }
      lra.
Qed.

Lemma xexp_nonpos (t : xreal) :
  nonpos_or_nan t -> unit_or_nan (xexp t).
Proof.
  intros [-> | [-> | (x & -> & Hx)]].
  - left; reflexivity.
  - right. exists 0. split; [reflexivity | lra].
  - rewrite xexp_fin by exact Hx. right. exists (exp32 x).
    split; [reflexivity|].
    pose proof (exp32_nonneg x). pose proof (exp32_le_1 x Hx). lra.
Qed.

Lemma one_minus_unit (v : xreal) :
  unit_or_nan v -> unit_or_nan (xsub (Fin 1) v).
Proof.
  intros [-> | (x & -> & Hx)]; simpl.
  - left; reflexivity.
  - right. exists (1 + - x). split; [reflexivity | lra].
Qed.

Lemma xmul_unit (a b : xreal) :
  unit_or_nan a -> unit_or_nan b -> unit_or_nan (xmul a b).
Proof.
  intros [-> | (x & -> & Hx)] [-> | (y & -> & Hy)]; simpl;
    try (left; reflexivity).
  right. exists (x * y). split; [reflexivity|]. nra.
Qed.

Lemma xmaximum_unit (a b : xreal) :
  unit_or_nan a -> unit_or_nan b -> unit_or_nan (xmaximum a b).
Proof.
  intros [-> | (x & -> & Hx)] [-> | (y & -> & Hy)];
    try (left; reflexivity).
  rewrite xmaximum_fin. right. exists (Rmax x y). split; [reflexivity|].
  unfold Rmax. destruct (Rle_dec x y); lra.
Qed.

Lemma denominator_nonneg (g : xreal) (eps : R) :
  0 <= eps ->
  let d := xadd (xmul (Fin 2) (xsquare g)) (Fin eps) in
  d = NaN \/ d = PInf \/ exists y, d = Fin y /\ 0 <= y.
Proof.
  intros Heps. destruct g as [x| | |]; simpl.
  - right; right. eexists. split; [reflexivity|].
    pose proof (sq_nonneg x). lra.
  - unfold inf_of_sign. rewrite Rltb_true by lra. right; left; reflexivity.
  - unfold inf_of_sign. rewrite Rltb_true by lra. right; left; reflexivity.
  - left; reflexivity.
Qed.

Lemma frangi_response_unit (r_a r_b s gamma_t : xreal) (alpha beta eps : R) :
  0 <= eps ->
  unit_or_nan (frangi_response r_a r_b s alpha beta gamma_t eps).
Proof.
  intros Heps. unfold frangi_response.
  apply xmul_unit; [apply xmul_unit|].
  - apply one_minus_unit, xexp_nonpos, xdiv_nonpos;
      [apply neg_square_nonpos|].
    right; right. simpl. eexists. split; [reflexivity|].
    pose proof (sq_nonneg alpha). lra.
  - apply xexp_nonpos, xdiv_nonpos; [apply neg_square_nonpos|].
    apply (denominator_nonneg (Fin beta) eps Heps).
  - apply one_minus_unit, xexp_nonpos, xdiv_nonpos;
      [apply neg_square_nonpos|].
    apply (denominator_nonneg gamma_t eps Heps).
Qed.

Lemma mapM_Forall {A B : Type} (P : B -> Prop) (f : A -> res B)
  (l : list A) (r : list B) :
  (forall a b, In a l -> f a = Ok b -> P b) ->
  mapM f l = Ok r -> Forall P r.
Proof.
  revert r. induction l as [|a l IH]; intros r Hf H; simpl in H.
  - inversion H. constructor.
  - apply bind_ok in H as (b & Hb & H).
    apply bind_ok in H as (bs & Hbs & H). inversion H; subst r.
    constructor.
    + apply (Hf a); [now left | exact Hb].
    + apply IH; [|exact Hbs]. intros a' b' Hin. apply Hf. now right.
Qed.

Lemma map2_any {A B C : Type} (P : C -> Prop) (f : A -> B -> C)
  (a : list A) (b : list B) :
  (forall x y, P (f x y)) -> Forall P (map2 f a b).
Proof.
  intros Hf. revert b. induction a as [|x a IH]; intros [|y b]; simpl;
    constructor; auto.
Qed.

Lemma frangi_scale_unit n eig alpha beta gamma eps r :
  0 <= eps ->
  frangi_scale n eig alpha beta gamma eps = Ok r ->
  Forall unit_or_nan (entries r).
Proof.
  intros Heps H. unfold frangi_scale in H.
  destruct (dims _) as [|d0 rest]; [discriminate|].
  destruct (d0 =? 0)%nat; [discriminate|].
  destruct (_ <? _)%nat; [discriminate|].
  destruct (_ <? _)%nat; [discriminate|].
  apply bind_ok in H as (g & _ & H). inversion H; subst r. cbn [entries].
  apply map2_any. intros [ra rb] s.
  now apply frangi_response_unit.
Qed.

Lemma zero_unit : unit_or_nan (Fin 0).
Proof. right. exists 0. split; [reflexivity | lra]. Qed.

Lemma nan_unit : unit_or_nan NaN.
Proof. now left. Qed.

Lemma fold_running_max_unit n image alpha beta gamma eps (l : list R) :
  0 <= eps ->
  forall fm r,
    Forall unit_or_nan (entries fm) ->
    fold_left (running_max n image alpha beta gamma eps) l (Ok fm) = Ok r ->
    Forall unit_or_nan (entries r).
Proof.
  intros Heps. induction l as [|s l IH]; intros fm r Hfm H.
  - inversion H; now subst.
  - cbn [fold_left] in H.
    destruct (running_max n image alpha beta gamma eps (Ok fm) s)
      as [fm1|e] eqn:E; [|now rewrite running_max_raise in H].
    apply (IH fm1 r); [|exact H].
    apply running_max_ok in E as (fm0 & res & E0 & Hr & Hm).
    inversion E0; subst fm0.
    unfold frangi_scale_at in Hr. apply bind_ok in Hr as (eig & _ & Hr).
    apply frangi_scale_unit in Hr; [|exact Heps].
    eapply broadcast2_entries; [| | | |exact Hm]; auto using nan_unit.
    apply xmaximum_unit.
Qed.

(** X12: for [eps >= 0], every entry of the tensor [frangi] returns is a
    number of [0, 1] or NaN: never negative, never above 1, never
    infinite, whatever the batch of images, the scales, alpha, beta and
    gamma. *)
Theorem frangi_unit_interval (n : nat) (image : batch n)
  (sigma_range : R * R) (scale_step : R) (sigmas : option (list R))
  (alpha beta : R) (gamma : option R) (eps : R) :
  0 <= eps ->
  match frangi n image sigma_range scale_step sigmas alpha beta gamma eps with
  | Ok r => Forall unit_or_nan (entries r)
  | Raise _ => True
  end.
Proof.
  intros Heps.
  destruct (frangi n image sigma_range scale_step sigmas alpha beta gamma eps)
    as [r|e] eqn:H; [|exact I].
  pose proof (frangi_ok_rank _ _ _ _ _ _ _ _ _ _ H) as Hn.
  rewrite frangi_fold in H by exact Hn.
  apply bind_ok in H as (l & _ & H).
  destruct (existsb _ l); [discriminate|].
  eapply fold_running_max_unit; [exact Heps | | exact H].
  unfold zeros_like. cbn [entries].
  apply Forall_forall. intros v Hv. apply repeat_spec in Hv. subst v.
  apply zero_unit.
Qed.

End FrangiRange.

(* ================================================================= *)
(** ** The dispatch on the rank *)

Section Dispatch.

Lemma hessian_components_rank n img sigma truncate mode :
  n <> 2%nat -> n <> 3%nat ->
  hessian_components n img sigma truncate mode
  = Raise (ValueError "img can only be 2D or 3D").
Proof.
  intros H2 H3. destruct n as [|[|[|[|n]]]]; try reflexivity; congruence.
Qed.

(** The matrix of one image has rows of as many channels as it has
    rows, 2 or 3. *)
Lemma hessian_matrix_rows n img sigma truncate mode h :
  hessian n img sigma true truncate mode = Ok h ->
  length (matrix_rows h) = n
  /\ (length (hd [] (matrix_rows h)) = 2%nat
      \/ length (hd [] (matrix_rows h)) = 3%nat).
Proof.
  unfold hessian. intros H. apply bind_ok in H as (comps & Hc & H).
  apply hessian_components_tuple in Hc
    as [(-> & xx & xy & yy & ->)
       | (-> & xx & xy & xz & yy & yz & zz & ->)];
    cbn in H; inversion H; subst h; cbn; auto.
Qed.

(** X13: called without [as_matrix], [hessian_eigenvalues] returns
    exactly when [hessian] returns on the batch, one tensor of
    eigenvalues for each image, and fails with the error of [hessian]
    otherwise (the ValueError of [hessian] when the images are neither 2D
    nor 3D): its own ValueError is never raised.  With [as_matrix = True]
    among its keywords and [hessian] returning on a batch of B images, it
    raises its own ValueError unless B is 3 or 6 (on one image it does);
    for B = 3 it raises the RuntimeError of [eigvalsh2], whose sum of 2 or
    3 and of 4 or 6 channels cannot broadcast; for B = 6 it returns a
    tensor whose first axis has the 2 or 3 rows of the matrices. *)
Theorem hessian_eigenvalues_fails_with_hessian (n : nat) (img : batch n)
  (sigma truncate : R) (mode : pad_mode) :
  match mapM (fun im => hessian n im sigma false truncate mode)
             (images img) with
  | Ok H =>
      (n = 2 \/ n = 3)%nat
      /\ exists eig,
           hessian_eigenvalues n img sigma false truncate mode = Ok eig
           /\ length eig = length (images img)
  | Raise e =>
      hessian_eigenvalues n img sigma false truncate mode = Raise e
      /\ (n <> 2%nat -> n <> 3%nat ->
          e = ValueError "img can only be 2D or 3D")
  end
  /\ match mapM (fun im => hessian n im sigma true truncate mode)
                (images img) with
     | Ok H =>
         (length (images img) <> 3%nat -> length (images img) <> 6%nat ->
          hessian_eigenvalues n img sigma true truncate mode
          = Raise (ValueError "Unrecognized number of upper triangular elements"))
         /\ (length (images img) = 3%nat ->
             hessian_eigenvalues n img sigma true truncate mode
             = Raise (RuntimeError "The size of tensor a must match the size of tensor b at non-singleton dimension 1"))
         /\ (length (images img) = 6%nat ->
             exists eig,
               hessian_eigenvalues n img sigma true truncate mode = Ok eig
               /\ length eig = n)
     | Raise e => hessian_eigenvalues n img sigma true truncate mode = Raise e
     end.
Proof.
  split.
  - rewrite hessian_eigenvalues_images. unfold hessian.
    rewrite mapM_map_ok.
    destruct (mapM (fun im => hessian_components n im sigma truncate mode)
                   (images img)) as [H|e] eqn:E; cbn [bind].
    + split.
      * unfold images in E. cbn [mapM] in E.
        apply bind_ok in E as (h & Hh & _).
        apply hessian_components_tuple in Hh as [[-> _] | [-> _]]; auto.
      * eexists. split; [reflexivity|].
        rewrite length_map. now apply mapM_length in E.
    + split; [reflexivity|]. intros H2 H3.
      unfold images in E. cbn [mapM] in E.
      rewrite hessian_components_rank in E by assumption.
      cbn [bind] in E. now inversion E.
  - unfold hessian_eigenvalues.
    destruct (mapM (fun im => hessian n im sigma true truncate mode)
                   (images img)) as [H|e] eqn:E; cbn [bind]; [|reflexivity].
    pose proof (mapM_length _ _ _ E) as Hl.
    rewrite length_map, Hl.
    assert (H0 : exists h H', H = h :: H'
                 /\ hessian n (first_image img) sigma true truncate mode
                    = Ok h).
    { unfold images in E. cbn [mapM] in E.
      apply bind_ok in E as (h & Hh & E). apply bind_ok in E as (H' & _ & E).
      inversion E. now exists h, H'. }
    destruct H0 as (h & H' & -> & Hh).
    apply hessian_matrix_rows in Hh as [Hrows Hch].
    split; [|split].
    + intros N3 N6.
      apply Nat.eqb_neq in N3, N6. now rewrite N3, N6.
    + intros E3. rewrite E3. cbn [Nat.eqb bind map nth].
      unfold eigvalsh2_on_blocks.
      destruct Hch as [-> | ->]; reflexivity.
    + intros E6. rewrite E6. cbn [Nat.eqb bind map nth].
      eexists. split; [reflexivity|].
      rewrite length_map. unfold eigvalsh3_on_blocks, at_block_pixels.
      rewrite length_map, length_seq. cbn [hd]. exact Hrows.
Qed.

End Dispatch.

(* ================================================================= *)
(** ** Shapes: what the filters accept and what they return *)

Section Shapes.

Lemma has_shape_amap {A B : Type} (f : A -> B) (n : nat) (sh : list nat)
  (x : arr A n) :
  has_shape n sh x -> has_shape n sh (amap f n x).
Proof.
  revert sh x. induction n as [|m IH]; intros sh x; simpl; [auto|].
  destruct sh as [|d sh']; [auto|]. intros [Hl Hall]. split.
  - now rewrite length_map.
  - apply Forall_map. eapply Forall_impl; [|exact Hall]. intros a. apply IH.
Qed.

Lemma map2_length_min {A B C : Type} (f : A -> B -> C) (a : list A)
  (b : list B) :
  length (map2 f a b) = Nat.min (length a) (length b).
Proof.
  revert b. induction a as [|x t IH]; intros [|y b]; simpl; auto.
Qed.

Lemma map2_Forall {A B C : Type} (P : A -> Prop) (Q : B -> Prop)
  (R : C -> Prop) (g : A -> B -> C) (x : list A) (y : list B) :
  (forall a b, P a -> Q b -> R (g a b)) ->
  Forall P x -> Forall Q y -> Forall R (map2 g x y).
Proof.
  intros Hg Hx. revert y. induction Hx as [|a x Ha Hx IH]; intros y Hy.
  - constructor.
  - destruct Hy as [|b y Hb Hy]; simpl; constructor; auto.
Qed.

Lemma has_shape_amap2 {A B C : Type} (f : A -> B -> C) (n : nat)
  (sh : list nat) (x : arr A n) (y : arr B n) :
  has_shape n sh x -> has_shape n sh y -> has_shape n sh (amap2 f n x y).
Proof.
  revert sh x y. induction n as [|m IH]; intros sh x y;
    cbn [has_shape amap2]; [auto|].
  destruct sh as [|d sh']; [auto|]. intros [Hx Hax] [Hy Hay]. split.
  - rewrite map2_length_min. lia.
  - eapply map2_Forall; [|exact Hax|exact Hay]. intros a b. apply IH.
Qed.

Lemma has_shape_ashape {A : Type} (n : nat) (sh : list nat) (x : arr A n) :
  has_shape n sh x -> positive sh -> ashape n x = sh.
Proof.
  revert sh x. induction n as [|m IH]; intros sh x; simpl.
  - now intros ->.
  - destruct sh as [|d sh']; [tauto|]. intros [Hl Hall] Hp.
    inversion Hp as [|? ? Hd Hp']; subst.
    destruct x as [|s x]; [simpl in Hd; lia|].
    inversion Hall; subst. f_equal. now apply IH.
Qed.

Lemma nth_Forall {A : Type} (P : A -> Prop) (l : list A) (d : A) (k : nat) :
  Forall P l -> P d -> P (nth k l d).
Proof.
  intros Hl Hd. destruct (Nat.lt_ge_cases k (length l)) as [H|H].
  - rewrite Forall_forall in Hl. apply Hl. now apply nth_In.
  - now rewrite nth_overflow.
Qed.

Lemma pad_list_spec {B : Type} (P : B -> Prop) mode l r (fill : B) xs ys :
  pad_list mode l r fill xs = Ok ys ->
  P fill -> Forall P xs ->
  pad_ok mode l r (length xs) = true
  /\ length ys = (l + length xs + r)%nat /\ Forall P ys.
Proof.
  unfold pad_list. destruct (pad_ok mode l r (length xs)); [|discriminate].
  intros H Hf Hxs. inversion H; subst ys. clear H.
  split; [reflexivity|]. split.
  - now rewrite length_map, length_seq.
  - apply Forall_map. apply Forall_forall. intros i _.
    destruct (pad_source _ _ _); [now apply nth_Forall | exact Hf].
Qed.

Lemma mapM_Forall2 {A B : Type} (P : A -> Prop) (Q : B -> Prop)
  (f : A -> res B) (l : list A) (r : list B) :
  (forall a b, P a -> f a = Ok b -> Q b) ->
  Forall P l -> mapM f l = Ok r -> Forall Q r.
Proof.
  intros Hf Hl. revert r. induction Hl as [|a l Ha Hl IH]; intros r H;
    simpl in H.
  - inversion H. constructor.
  - apply bind_ok in H as (b & Hb & H).
    apply bind_ok in H as (bs & Hbs & H). inversion H; subst r.
    constructor; [now apply (Hf a) | now apply IH].
Qed.

Lemma positive_padded (n : nat) (sh pad : list nat) :
  positive sh -> positive (padded n sh pad).
Proof.
  revert sh. induction n as [|m IH]; intros sh Hp; simpl; [constructor|].
  destruct sh as [|d sh']; [constructor|].
  inversion Hp; subst. constructor; [lia | now apply IH].
Qed.

(** [F.pad] grows every axis by its two pad entries. *)
Lemma F_pad_shape (n : nat) (sh pad : list nat) (mode : pad_mode)
  (x y : arr xreal n) :
  has_shape n sh x -> positive sh ->
  F_pad n x pad mode = Ok y ->
  has_shape n (padded n sh pad) y.
Proof.
  revert sh x y. induction n as [|m IH]; intros sh x y;
    cbn [has_shape padded F_pad].
  - intros -> _ _. reflexivity.
  - destruct sh as [|d sh']; [tauto|]. intros [Hl Hall] Hp H.
    inversion Hp as [|? ? Hd Hp']; subst.
    apply bind_ok in H as (xs & Hxs & H).
    assert (Hs : Forall (has_shape m (padded m sh' pad)) xs).
    { eapply mapM_Forall2; [|exact Hall|exact Hxs].
      intros a b Ha Hb. now apply (IH sh' a b). }
    pose proof (mapM_length _ _ _ Hxs) as Hlen.
    apply (pad_list_spec (has_shape m (padded m sh' pad))) in H
      as (_ & Hly & Hy).
    + split; [lia | exact Hy].
    + destruct xs as [|s xs]; [simpl in Hlen; lia|].
      inversion Hs; subst. now apply has_shape_amap.
    + exact Hs.
Qed.


Lemma mapM_id {A : Type} (f : A -> res A) (l : list A) :
  (forall a, In a l -> f a = Ok a) -> mapM f l = Ok l.
Proof.
  induction l as [|a l IH]; intros H; simpl; [reflexivity|].
  rewrite (H a) by now left. simpl.
  rewrite IH by (intros b Hb; apply H; now right). reflexivity.
Qed.

Lemma pad_list_zero {B : Type} (fill : B) (xs : list B) :
  pad_list Constant 0 0 fill xs = Ok xs.
Proof.
  unfold pad_list. cbn [pad_ok Nat.add]. rewrite Nat.add_0_r. f_equal.
  rewrite <- (map_nth_seq xs fill) at 2.
  apply map_ext_in. intros i Hi. apply in_seq in Hi.
  unfold pad_source. rewrite Z.sub_0_r.
  assert (E : ((0 <=? Z.of_nat i) && (Z.of_nat i <? Z.of_nat (length xs)))%Z
              = true).
  { apply andb_true_iff. split; [apply Z.leb_le | apply Z.ltb_lt]; lia. }
  rewrite E, Nat2Z.id. reflexivity.
Qed.

(** Zero padding in constant mode changes nothing. *)
Lemma F_pad_zero (n : nat) (x : arr xreal n) (pad : list nat) :
  (forall i, nth i pad 0%nat = 0%nat) -> F_pad n x pad Constant = Ok x.
Proof.
  intros Hpad. revert x. induction n as [|m IH]; intros x; cbn [F_pad].
  - reflexivity.
  - rewrite mapM_id by (intros a _; apply IH). cbn [bind].
    rewrite !Hpad. apply pad_list_zero.
Qed.

Lemma fold_amap2_shape (n : nat) (sh : list nat)
  (f : xreal -> xreal -> xreal) (ts : list (arr xreal n)) (t : arr xreal n) :
  has_shape n sh t -> Forall (has_shape n sh) ts ->
  has_shape n sh (fold_left (amap2 f n) ts t).
Proof.
  intros Ht Hts. revert t Ht.
  induction Hts as [|a ts Ha Hts IH]; intros t Ht; simpl; [exact Ht|].
  apply IH. now apply has_shape_amap2.
Qed.

Lemma asum_shape (n : nat) (sh : list nat) (ts : list (arr xreal n)) :
  ts <> [] -> Forall (has_shape n sh) ts -> has_shape n sh (asum n ts).
Proof.
  intros Hne Hts. destruct ts as [|t ts]; [congruence|].
  inversion Hts; subst. unfold asum. now apply fold_amap2_shape.
Qed.

(** The valid cross-correlation shrinks every axis by the kernel size
    minus one. *)
Lemma corr_shape (n : nat) (shw shx : list nat) (w x : arr xreal n) :
  has_shape n shw w -> has_shape n shx x -> positive shw ->
  has_shape n (map2 (fun d k => (d + 1 - k)%nat) shx shw) (corr n w x).
Proof.
  revert shw shx w x. induction n as [|m IH]; intros shw shx w x;
    cbn [has_shape corr].
  - intros -> -> _. reflexivity.
  - destruct shw as [|k shw']; [tauto|]. destruct shx as [|d shx']; [tauto|].
    intros [Hlw Hw] [Hlx Hx] Hp. inversion Hp as [|? ? Hk Hp']; subst.
    cbn [map2]. fold (arr xreal m) in *. split.
    + now rewrite length_map, length_seq.
    + apply Forall_map. apply Forall_forall. intros i Hi.
      apply in_seq in Hi. apply asum_shape.
      * destruct w as [|w0 w]; [simpl in Hk; lia | discriminate].
      * apply Forall_map. apply Forall_forall. intros a Ha.
        apply in_seq in Ha. rewrite Forall_forall in Hw, Hx.
        apply IH; [apply Hw, nth_In; lia | apply Hx, nth_In; lia
                  | exact Hp'].
Qed.

Lemma aconst_shape (m : nat) (v : xreal) :
  has_shape m (repeat 1%nat m) (aconst m v).
Proof.
  induction m as [|m IH]; cbn [has_shape aconst repeat]; [reflexivity|].
  split; [reflexivity|]. now constructor.
Qed.

Lemma view_axis_shape (n dim : nat) (k : list xreal) :
  has_shape n (kshape n dim (length k)) (view_axis n dim k).
Proof.
  revert dim. induction n as [|m IH]; intros dim;
    cbn [has_shape view_axis kshape]; [reflexivity|].
  destruct dim as [|d].
  - split; [apply length_map|]. apply Forall_map, Forall_forall.
    intros v _. apply aconst_shape.
  - split; [reflexivity|]. constructor; [apply IH | constructor].
Qed.

Lemma positive_kshape (n dim len : nat) :
  (1 <= len)%nat -> positive (kshape n dim len).
Proof.
  intros Hl. revert dim. induction n as [|m IH]; intros dim; cbn [kshape];
    [constructor|].
  destruct dim as [|d].
  - constructor; [exact Hl|].
    apply Forall_forall. intros v Hv. apply repeat_spec in Hv. lia.
  - constructor; [lia | apply IH].
Qed.

(** The convolution [_conv] calls: one input channel, one kernel, no
    padding. *)
Lemma F_conv_single (n : nat) (x : tensor n) (w : arr xreal n)
  (y : tensor n) :
  F_conv n x [[w]] (repeat 0%nat n) 1 = Ok y ->
  exists c, x = [c] /\ corr_checked n w c = Ok (corr n w c)
            /\ y = [corr n w c].
Proof.
  unfold F_conv. cbn [length]. rewrite Nat.div_1_r.
  destruct x as [|c [|c' x]]; cbn [length Nat.eqb forallb andb negb orb];
    try discriminate.
  cbn [Nat.modulo Nat.divmod snd fst Nat.sub Nat.eqb negb orb].
  cbn [mapM bind]. rewrite F_pad_zero.
  - cbn [bind seq mapM Nat.div Nat.divmod fst nth Nat.mul Nat.add].
      unfold corr_checked.
      destruct (forallb2 _ (ashape n w) (ashape n c)) eqn:E; cbn [bind];
        [|discriminate].
      intros H. inversion H. exists c. split; [reflexivity|].
      split; [now rewrite E | reflexivity].
  - intros i. clear.
      assert (H : Forall (fun v => v = 0%nat)
                         (flat_map (fun p => [p; p]) (rev (repeat 0%nat n)))).
      { apply Forall_flat_map. apply Forall_forall. intros p Hp.
        apply in_rev in Hp. apply repeat_spec in Hp. subst.
        repeat constructor. }
      now apply nth_Forall.
Qed.


Lemma has_shape_rank {A : Type} (n : nat) (sh : list nat) (x : arr A n) :
  has_shape n sh x -> positive sh -> length sh = n.
Proof.
  revert sh x. induction n as [|m IH]; intros sh x; cbn [has_shape].
  - now intros ->.
  - destruct sh as [|d sh']; [tauto|]. intros [Hl Hall] Hp.
    inversion Hp as [|? ? Hd Hp']; subst.
    destruct x as [|s x]; [simpl in Hd; lia|]. inversion Hall; subst.
    simpl. f_equal. now apply (IH sh' s).
Qed.

Lemma mapM_ok_In {A B : Type} (f : A -> res B) (l : list A) (r : list B) :
  mapM f l = Ok r -> forall a, In a l -> exists b, f a = Ok b.
Proof.
  revert r. induction l as [|x l IH]; intros r H a Ha; [destruct Ha|].
  simpl in H. apply bind_ok in H as (b & Hb & H).
  apply bind_ok in H as (bs & Hbs & _).
  destruct Ha as [<- | Ha]; [now exists b | now apply (IH bs)].
Qed.

Lemma mapM_all_ok {A B : Type} (f : A -> res B) (l : list A) :
  (forall a, In a l -> exists b, f a = Ok b) -> exists r, mapM f l = Ok r.
Proof.
  induction l as [|x l IH]; intros H; simpl; [now exists []|].
  destruct (H x) as (b & Hb); [now left|]. rewrite Hb. cbn [bind].
  destruct IH as (bs & Hbs); [intros a Ha; apply H; now right|].
  rewrite Hbs. cbn [bind]. now exists (b :: bs).
Qed.

(** [F.pad] succeeds exactly when every axis passes its size check. *)
Lemma F_pad_domain (n : nat) (sh pad : list nat) (mode : pad_mode)
  (x : arr xreal n) :
  has_shape n sh x -> positive sh ->
  ((exists y, F_pad n x pad mode = Ok y) <-> pad_fits mode n sh pad).
Proof.
  revert sh x. induction n as [|m IH]; intros sh x;
    cbn [has_shape pad_fits F_pad].
  - intros _ _. split; [auto | intros _; now exists x].
  - destruct sh as [|d sh']; [tauto|]. intros [Hl Hall] Hp.
    inversion Hp as [|? ? Hd Hp']; subst.
    fold (arr xreal m) in *. split.
    + intros (y & H). apply bind_ok in H as (xs & Hxs & H).
      pose proof (mapM_length _ _ _ Hxs) as Hlen.
      apply (pad_list_spec (fun _ => True)) in H as (Hok & _ & _);
        [|exact I | apply Forall_forall; auto].
      fold (arr xreal m) in Hok. rewrite Hlen in Hok. split; [exact Hok|].
      destruct x as [|s x]; [simpl in Hd; lia|]. inversion Hall; subst.
      apply (IH sh' s); [assumption | assumption|].
      apply (mapM_ok_In _ _ _ Hxs). now left.
    + intros [Hok Hfit].
      destruct (mapM_all_ok (fun s => F_pad m s pad mode) x) as (xs & Hxs).
      { intros a Ha. rewrite Forall_forall in Hall.
        apply (IH sh' a); auto. }
      rewrite Hxs. cbn [bind]. unfold pad_list.
      rewrite (mapM_length _ _ _ Hxs), Hok. eexists. reflexivity.
Qed.

Lemma pad_ok_fits (mode : pad_mode) (r d : nat) :
  (1 <= d)%nat -> (pad_ok mode r r d = true <-> mode_fits mode r d).
Proof.
  intros Hd. destruct mode; cbn [pad_ok mode_fits].
  - tauto.
  - rewrite andb_true_iff, !Nat.ltb_lt. tauto.
  - rewrite Nat.ltb_lt. split; [auto | intros _; lia].
  - rewrite andb_true_iff, !Nat.leb_le. tauto.
Qed.

Lemma pad_ok_none (mode : pad_mode) (d : nat) :
  (1 <= d)%nat -> pad_ok mode 0 0 d = true.
Proof.
  intros Hd. destruct mode; cbn [pad_ok]; try reflexivity.
  - apply andb_true_iff. split; apply Nat.ltb_lt; lia.
  - apply Nat.ltb_lt; lia.
Qed.


Lemma kernel_ok (sigma : R) (order : Z) (truncate : R) :
  (0 <= Zceil (sigma * truncate))%Z -> (0 <= order <= 2)%Z ->
  exists k, _gaussian_kernel_1d sigma order truncate = Ok k.
Proof.
  intros Hr Ho. unfold _gaussian_kernel_1d, arange_int.
  assert (E : (Zceil (sigma * truncate) + 1 <? - Zceil (sigma * truncate))%Z
              = false) by (apply Z.ltb_ge; lia).
  rewrite E. cbn [bind].
  destruct (order =? 0)%Z eqn:E0; [eexists; reflexivity|].
  destruct (order =? 1)%Z eqn:E1; [eexists; reflexivity|].
  destruct (order =? 2)%Z eqn:E2; [eexists; reflexivity|].
  apply Z.eqb_neq in E0, E1, E2. lia.
Qed.

Lemma _conv_inv n img sigma order truncate mode dim out :
  _conv n img sigma order truncate mode dim = Ok out ->
  exists c k xp,
    img = [c]
    /\ _gaussian_kernel_1d sigma order truncate = Ok k
    /\ F_pad n c (conv_pad n dim (length k / 2)) mode = Ok xp
    /\ out = [corr n (view_axis n dim k) xp].
Proof.
  unfold _conv. intros H. apply bind_ok in H as (k & Hk & H).
  apply bind_ok in H as (x & Hx & H).
  apply F_conv_single in H as (xp & -> & _ & ->).
  destruct img as [|c [|c' img]]; cbn [mapM] in Hx.
  - discriminate.
  - apply bind_ok in Hx as (b & Hb & Hx). cbn [bind] in Hx.
    inversion Hx; subst b. now exists c, k, xp.
  - apply bind_ok in Hx as (b & _ & Hx).
    apply bind_ok in Hx as (bs & Hbs & Hx).
    apply bind_ok in Hbs as (b' & _ & Hbs).
    apply bind_ok in Hbs as (bs' & _ & Hbs).
    inversion Hbs; subst bs. discriminate.
Qed.

Lemma F_conv_single_ok (n : nat) (c w : arr xreal n) :
  corr_checked n w c = Ok (corr n w c) ->
  F_conv n [c] [[w]] (repeat 0%nat n) 1 = Ok [corr n w c].
Proof.
  intros H. unfold F_conv.
  cbn [length Nat.eqb forallb andb negb orb Nat.modulo Nat.divmod snd fst
       Nat.sub Nat.div mapM bind].
  rewrite F_pad_zero.
  - cbn [bind seq mapM Nat.div Nat.divmod fst nth Nat.mul Nat.add].
    rewrite H. reflexivity.
  - intros i.
    assert (H0 : Forall (fun v => v = 0%nat)
                        (flat_map (fun p => [p; p]) (rev (repeat 0%nat n)))).
    { apply Forall_flat_map. apply Forall_forall. intros p Hp.
      apply in_rev in Hp. apply repeat_spec in Hp. subst.
      repeat constructor. }
    now apply nth_Forall.
Qed.

(** The arithmetic of [_conv] on the ranks that have a [conv{n}d]. *)
Lemma conv_shape_arith (n dim : nat) (sh : list nat) (r : nat) :
  (1 <= n <= 3)%nat -> (dim < n)%nat -> length sh = n ->
  map2 (fun d k => (d + 1 - k)%nat) (padded n sh (conv_pad n dim r))
       (kshape n dim (2 * r + 1)) = sh.
Proof.
  intros Hn Hd Hl.
  destruct n as [|[|[|[|n]]]]; try lia;
    destruct dim as [|[|[|dim]]]; try lia;
    destruct sh as [|d0 [|d1 [|d2 [|d3 sh]]]]; try discriminate;
    cbn; repeat (f_equal; try lia).
Qed.

Lemma conv_pad_fits (mode : pad_mode) (n dim : nat) (sh : list nat)
  (r : nat) :
  (1 <= n <= 3)%nat -> (dim < n)%nat -> length sh = n -> positive sh ->
  (pad_fits mode n sh (conv_pad n dim r)
   <-> mode_fits mode r (nth dim sh 0%nat)).
Proof.
  intros Hn Hd Hl Hp.
  destruct n as [|[|[|[|n]]]]; try lia;
    destruct dim as [|[|[|dim]]]; try lia;
    destruct sh as [|d0 [|d1 [|d2 [|d3 sh]]]]; try discriminate;
    unfold positive in Hp;
    repeat match goal with
           | H : Forall _ (_ :: _) |- _ =>
               let H1 := fresh "Hd" in
               apply Forall_cons_iff in H as [H1 H]
           end;
    cbn [pad_fits conv_pad seq fold_left repeat list_set rev app nth
         Nat.mul Nat.add];
    rewrite ?pad_ok_none by assumption;
    rewrite ?pad_ok_fits by assumption; tauto.
Qed.

Lemma conv_check (n dim : nat) (sh : list nat) (r : nat) :
  (1 <= n <= 3)%nat -> (dim < n)%nat -> length sh = n -> positive sh ->
  forallb2 (fun k d => (1 <=? k)%nat && (k <=? d)%nat)
           (kshape n dim (2 * r + 1)) (padded n sh (conv_pad n dim r)) = true.
Proof.
  intros Hn Hd Hl Hp.
  destruct n as [|[|[|[|n]]]]; try lia;
    destruct dim as [|[|[|dim]]]; try lia;
    destruct sh as [|d0 [|d1 [|d2 [|d3 sh]]]]; try discriminate;
    unfold positive in Hp;
    repeat match goal with
           | H : Forall _ (_ :: _) |- _ =>
               let H1 := fresh "Hd" in
               apply Forall_cons_iff in H as [H1 H]
           end;
    cbn [forallb2 kshape padded conv_pad seq fold_left repeat list_set rev
         app nth Nat.mul Nat.add];
    repeat (apply andb_true_iff; split); try reflexivity;
    apply Nat.leb_le; lia.
Qed.

(** One pass of [_conv] that succeeds. *)
Lemma _conv_ok_inv n sh img sigma order truncate mode dim out :
  (1 <= n <= 3)%nat -> (dim < n)%nat -> positive sh ->
  Forall (has_shape n sh) img ->
  _conv n img sigma order truncate mode dim = Ok out ->
  (exists c c', img = [c] /\ out = [c'] /\ has_shape n sh c')
  /\ (0 <= Zceil (sigma * truncate))%Z
  /\ mode_fits mode (Z.to_nat (Zceil (sigma * truncate))) (nth dim sh 0%nat).
Proof.
  intros Hn Hd Hp Himg H.
  apply _conv_inv in H as (c & k & xp & -> & Hk & Hpad & ->).
  apply kernel_length in Hk as (Hr & Hlen & Hhalf). rewrite Hhalf in Hpad.
  inversion Himg as [|? ? Hc _]; subst.
  pose proof (has_shape_rank _ _ _ Hc Hp) as Hrank.
  split; [|split; [exact Hr|]].
  - exists c. eexists. split; [reflexivity|]. split; [reflexivity|].
    pose proof (F_pad_shape _ _ _ _ _ _ Hc Hp Hpad) as Hxp.
    pose proof (view_axis_shape n dim k) as Hw.
    pose proof (corr_shape _ _ _ _ _ Hw Hxp) as Hcorr.
    rewrite Hlen in Hcorr.
    rewrite conv_shape_arith in Hcorr by assumption.
    apply Hcorr. apply positive_kshape. lia.
  - apply (conv_pad_fits mode n dim sh); try assumption.
    apply (F_pad_domain n sh _ mode c Hc Hp). now exists xp.
Qed.

Lemma _conv_ok n sh c sigma order truncate mode dim :
  (1 <= n <= 3)%nat -> (dim < n)%nat -> positive sh -> has_shape n sh c ->
  (0 <= Zceil (sigma * truncate))%Z -> (0 <= order <= 2)%Z ->
  mode_fits mode (Z.to_nat (Zceil (sigma * truncate))) (nth dim sh 0%nat) ->
  exists out, _conv n [c] sigma order truncate mode dim = Ok out.
Proof.
  intros Hn Hd Hp Hc Hr Ho Hfit.
  destruct (kernel_ok sigma order truncate Hr Ho) as (k & Hk).
  pose proof (kernel_length _ _ _ _ Hk) as (_ & Hlen & Hhalf).
  pose proof (has_shape_rank _ _ _ Hc Hp) as Hrank.
  unfold _conv. rewrite Hk. cbn [bind mapM].
  fold (conv_pad n dim (length k / 2)).
  rewrite Hhalf.
  set (r := Z.to_nat (Zceil (sigma * truncate))) in *.
  destruct (proj2 (F_pad_domain n sh (conv_pad n dim r) mode c Hc Hp))
    as (xp & Hpad).
  { now apply conv_pad_fits. }
  rewrite Hpad. cbn [bind].
  eexists. apply F_conv_single_ok.
  unfold corr_checked.
  pose proof (F_pad_shape _ _ _ _ _ _ Hc Hp Hpad) as Hxp.
  rewrite (has_shape_ashape _ _ _ Hxp) by now apply positive_padded.
  rewrite (has_shape_ashape _ _ _ (view_axis_shape n dim k))
    by (apply positive_kshape; lia).
  rewrite Hlen. fold r. rewrite conv_check by assumption. reflexivity.
Qed.


Lemma gaussian_filter_fold n img sigma order mode truncate :
  gaussian_filter n img sigma (inr order) mode truncate
  = if (length order =? n)%nat
    then fold_left (conv_step n sigma truncate mode)
                   (combine (seq 0 (length order)) order) (Ok img)
    else Raise (AssertionError "Specify the Gaussian derivative order for each dim").
Proof.
  unfold gaussian_filter. destruct (length order =? n)%nat; reflexivity.
Qed.

Lemma gaussian_filter_scalar_order n img sigma (o : Z) mode truncate :
  gaussian_filter n img sigma (inl o) mode truncate
  = gaussian_filter n img sigma (inr (repeat o n)) mode truncate.
Proof.
  unfold gaussian_filter. rewrite repeat_length, Nat.eqb_refl. reflexivity.
Qed.

Lemma conv_fold_raise n sigma truncate mode steps e :
  fold_left (conv_step n sigma truncate mode) steps (Raise e) = Raise e.
Proof.
  induction steps as [|[dim o] steps IH]; [reflexivity | exact IH].
Qed.

Lemma conv_fold_inv n sh sigma truncate mode steps :
  (1 <= n <= 3)%nat -> positive sh ->
  Forall (fun p => (fst p < n)%nat) steps ->
  forall img out,
    Forall (has_shape n sh) img ->
    fold_left (conv_step n sigma truncate mode) steps (Ok img) = Ok out ->
    Forall (has_shape n sh) out
    /\ (steps <> [] ->
        (exists c c', img = [c] /\ out = [c'])
        /\ (0 <= Zceil (sigma * truncate))%Z)
    /\ Forall (fun p => mode_fits mode (Z.to_nat (Zceil (sigma * truncate)))
                                  (nth (fst p) sh 0%nat)) steps.
Proof.
  intros Hn Hp Hsteps.
  induction Hsteps as [|[dim o] steps Hd Hsteps IH]; intros img out Himg H.
  - cbn [fold_left] in H. inversion H; subst out.
    split; [exact Himg|]. split; [congruence | constructor].
  - cbn [fold_left conv_step bind] in H.
    destruct (_conv n img sigma o truncate mode dim) as [img1|e] eqn:E;
      [|rewrite conv_fold_raise in H; discriminate].
    destruct (_conv_ok_inv n sh img sigma o truncate mode dim img1
                Hn Hd Hp Himg E) as ((c & c1 & -> & -> & Hc1) & Hr & Hfit).
    destruct (IH [c1] out) as (Hout & Hne & Hall);
      [now constructor | exact H |].
    split; [exact Hout|]. split.
    + intros _. split; [|exact Hr]. exists c.
      destruct steps as [|s steps].
      * cbn [fold_left] in H. inversion H. now exists c1.
      * destruct Hne as ((c2 & c' & E2 & ->) & _); [discriminate|].
        now exists c'.
    + constructor; [exact Hfit | exact Hall].
Qed.

Lemma conv_fold_ok n sh sigma truncate mode steps :
  (1 <= n <= 3)%nat -> positive sh ->
  (0 <= Zceil (sigma * truncate))%Z ->
  Forall (fun p => (fst p < n)%nat /\ (0 <= snd p <= 2)%Z) steps ->
  Forall (fun p => mode_fits mode (Z.to_nat (Zceil (sigma * truncate)))
                             (nth (fst p) sh 0%nat)) steps ->
  forall c, has_shape n sh c ->
    exists out,
      fold_left (conv_step n sigma truncate mode) steps (Ok [c]) = Ok out.
Proof.
  intros Hn Hp Hr Hsteps.
  induction Hsteps as [|[dim o] steps [Hd Ho] Hsteps IH]; intros Hfit c Hc.
  - now exists [c].
  - inversion Hfit as [|? ? Hf Hfit']; subst.
    cbn [fold_left conv_step bind]. cbn [fst snd] in *.
    destruct (_conv_ok n sh c sigma o truncate mode dim Hn Hd Hp Hc Hr Ho Hf)
      as (img1 & E).
    rewrite E.
    destruct (_conv_ok_inv n sh [c] sigma o truncate mode dim img1
                Hn Hd Hp (Forall_cons _ Hc (Forall_nil _)) E)
      as ((c0 & c1 & _ & -> & Hc1) & _ & _).
    now apply IH.
Qed.

Lemma steps_in_range (n : nat) (order : list Z) :
  length order = n ->
  Forall (fun p : nat * Z => (fst p < n)%nat)
         (combine (seq 0 (length order)) order).
Proof.
  intros Hl. apply Forall_forall. intros [dim o] Hin.
  apply in_combine_l in Hin. apply in_seq in Hin. cbn [fst]. lia.
Qed.

Lemma steps_cover (P : nat -> Prop) (n : nat) (sh : list nat)
  (order : list Z) :
  (n <= 3)%nat -> length sh = n -> length order = n ->
  (Forall (fun p : nat * Z => P (nth (fst p) sh 0%nat))
          (combine (seq 0 (length order)) order)
   <-> Forall P sh).
Proof.
  intros Hn Hs Ho.
  destruct n as [|[|[|[|n]]]]; try lia;
    destruct sh as [|d0 [|d1 [|d2 [|d3 sh]]]]; try discriminate;
    destruct order as [|o0 [|o1 [|o2 [|o3 order]]]]; try discriminate;
    cbn [length seq combine];
    rewrite ?Forall_cons_iff, ?Forall_nil_iff; cbn [fst nth]; tauto.
Qed.

Lemma gaussian_filter_inv n sh img sigma order mode truncate out :
  (1 <= n <= 3)%nat -> positive sh -> Forall (has_shape n sh) img ->
  gaussian_filter n img sigma order mode truncate = Ok out ->
  (exists c c', img = [c] /\ out = [c'] /\ has_shape n sh c')
  /\ (0 <= Zceil (sigma * truncate))%Z
  /\ Forall (mode_fits mode (Z.to_nat (Zceil (sigma * truncate)))) sh.
Proof.
  intros Hn Hp Himg.
  assert (Hgen : forall l,
             gaussian_filter n img sigma (inr l) mode truncate = Ok out ->
             (exists c c', img = [c] /\ out = [c'] /\ has_shape n sh c')
             /\ (0 <= Zceil (sigma * truncate))%Z
             /\ Forall (mode_fits mode (Z.to_nat (Zceil (sigma * truncate))))
                       sh).
  { intros l. rewrite gaussian_filter_fold.
    destruct (length l =? n)%nat eqn:El; [|discriminate].
    apply Nat.eqb_eq in El. intros E.
    destruct (conv_fold_inv n sh sigma truncate mode _ Hn Hp
                (steps_in_range n l El) img out Himg E)
      as (Hout & Hne & Hfit).
    destruct Hne as ((c & c' & -> & ->) & Hr).
    { destruct l as [|o l]; [simpl in El; lia | discriminate]. }
    pose proof (Forall_inv Himg) as Hc.
    split; [|split; [exact Hr|]].
    - exists c, c'. pose proof (Forall_inv Hout). auto.
    - apply (steps_cover _ n sh l); try assumption; try lia.
      now apply (has_shape_rank n sh c). }
  destruct order as [o|l]; [|apply Hgen].
  rewrite gaussian_filter_scalar_order. apply Hgen.
Qed.

Lemma gaussian_filter_ok n sh c sigma order mode truncate :
  (1 <= n <= 3)%nat -> positive sh -> has_shape n sh c ->
  length order = n -> Forall (fun o => (0 <= o <= 2)%Z) order ->
  (0 <= Zceil (sigma * truncate))%Z ->
  Forall (mode_fits mode (Z.to_nat (Zceil (sigma * truncate)))) sh ->
  exists out, gaussian_filter n [c] sigma (inr order) mode truncate = Ok out.
Proof.
  intros Hn Hp Hc Hl Ho Hr Hfit.
  pose proof (has_shape_rank _ _ _ Hc Hp) as Hrank.
  rewrite gaussian_filter_fold.
  replace (length order =? n)%nat with true
    by (symmetry; apply Nat.eqb_eq; exact Hl).
  apply (steps_cover _ n sh order (proj2 Hn) Hrank Hl) in Hfit.
  apply (conv_fold_ok n sh sigma truncate mode _ Hn Hp Hr); try assumption.
  apply Forall_forall. intros [dim o] Hin. cbn [fst snd]. split.
  - apply in_combine_l in Hin. apply in_seq in Hin. lia.
  - apply in_combine_r in Hin. rewrite Forall_forall in Ho. now apply Ho.
Qed.

(** X14: [gaussian_filter] keeps the shape ("pad such that the image size
    remains the same"): when it returns on an image of rank 1 to 3 whose
    channels have the shape [sh], no axis empty, the image has exactly one
    channel and the result is one channel of the shape [sh]. *)
Theorem gaussian_filter_preserves_shape (n : nat) (sh : list nat)
  (img : tensor n) (sigma : R) (order : Z + list Z) (mode : pad_mode)
  (truncate : R) :
  (1 <= n <= 3)%nat -> positive sh -> Forall (has_shape n sh) img ->
  match gaussian_filter n img sigma order mode truncate with
  | Ok out => exists c c', img = [c] /\ out = [c'] /\ has_shape n sh c'
  | Raise _ => True
  end.
Proof.
  intros Hn Hp Himg.
  destruct (gaussian_filter n img sigma order mode truncate) as [out|e] eqn:E;
    [|exact I].
  now apply (gaussian_filter_inv n sh img sigma order mode truncate out).
Qed.

(** X15: the images [gaussian_filter] accepts: on a one-channel image of
    rank 1 to 3 with no empty axis, with orders in 0..2 and a radius
    ceil(sigma * truncate) >= 0, it returns exactly when every axis passes
    the size check of the padding mode: longer than the radius in reflect
    mode, at least the radius in circular mode, always in constant and
    replicate mode. *)
Theorem gaussian_filter_domain (n : nat) (sh : list nat) (c : arr xreal n)
  (sigma : R) (order : list Z) (mode : pad_mode) (truncate : R) :
  (1 <= n <= 3)%nat -> positive sh -> has_shape n sh c ->
  length order = n -> Forall (fun o => (0 <= o <= 2)%Z) order ->
  (0 <= Zceil (sigma * truncate))%Z ->
  ((exists out, gaussian_filter n [c] sigma (inr order) mode truncate = Ok out)
   <-> Forall (mode_fits mode (Z.to_nat (Zceil (sigma * truncate)))) sh).
Proof.
  intros Hn Hp Hc Hl Ho Hr. split.
  - intros (out & E).
    apply (gaussian_filter_inv n sh [c] sigma (inr order) mode truncate out);
      try assumption.
    now constructor.
  - now apply gaussian_filter_ok.
Qed.

End Shapes.

(* ================================================================= *)
(** ** Shapes through the Hessian *)

Section HessianShapes.

Lemma _hessian_2d_inv sh img sigma truncate mode H :
  positive sh -> Forall (has_shape 2 sh) img ->
  _hessian_2d 2 img sigma truncate mode = Ok H ->
  (exists c xx xy yy,
      img = [c] /\ H = [[xx]; [xy]; [yy]]
      /\ has_shape 2 sh xx /\ has_shape 2 sh xy /\ has_shape 2 sh yy)
  /\ (0 <= Zceil (sigma * truncate))%Z
  /\ Forall (mode_fits mode (Z.to_nat (Zceil (sigma * truncate)))) sh.
Proof.
  intros Hp Himg E. unfold _hessian_2d in E.
  assert (Hn : (1 <= 2 <= 3)%nat) by lia.
  apply bind_ok in E as (xx & Hxx & E).
  apply bind_ok in E as (yy & Hyy & E).
  apply bind_ok in E as (xy & Hxy & E).
  apply (gaussian_filter_inv 2 sh) in Hxx
    as ((c & xx' & -> & -> & Sxx) & Hr & Hfit); try assumption.
  apply (gaussian_filter_inv 2 sh) in Hyy
    as ((c1 & yy' & _ & -> & Syy) & _ & _); try assumption.
  apply (gaussian_filter_inv 2 sh) in Hxy
    as ((c2 & xy' & _ & -> & Sxy) & _ & _); try assumption.
  inversion E; subst H.
  split; [|split; assumption].
  exists c, xx', xy', yy'. auto.
Qed.

Lemma _hessian_2d_ok sh c sigma truncate mode :
  positive sh -> has_shape 2 sh c ->
  (0 <= Zceil (sigma * truncate))%Z ->
  Forall (mode_fits mode (Z.to_nat (Zceil (sigma * truncate)))) sh ->
  exists H, _hessian_2d 2 [c] sigma truncate mode = Ok H.
Proof.
  intros Hp Hc Hr Hfit. unfold _hessian_2d.
  assert (Hn : (1 <= 2 <= 3)%nat) by lia.
  assert (Hord : forall a b : Z, (0 <= a <= 2)%Z -> (0 <= b <= 2)%Z ->
             exists out, gaussian_filter 2 [c] sigma (inr [a; b]) mode truncate
                         = Ok out).
  { intros a b Ha Hb.
    apply (gaussian_filter_ok 2 sh); try assumption; [reflexivity|].
    repeat constructor; lia. }
  destruct (Hord 0 2)%Z as (xx & ->); try lia.
  destruct (Hord 2 0)%Z as (yy & ->); try lia.
  destruct (Hord 1 1)%Z as (xy & ->); try lia.
  cbn [bind]. eexists. reflexivity.
Qed.


Lemma mapM_ext_in {A B : Type} (f g : A -> res B) (l : list A) :
  (forall a, In a l -> f a = g a) -> mapM f l = mapM g l.
Proof.
  induction l as [|a l IH]; intros H; simpl; [reflexivity|].
  rewrite (H a) by now left.
  rewrite IH by (intros b Hb; apply H; now right). reflexivity.
Qed.

Lemma pad_fits_constant (n : nat) (sh pad : list nat) :
  pad_fits Constant n sh pad.
Proof.
  revert sh. induction n as [|m IH]; intros sh; cbn [pad_fits]; [exact I|].
  destruct sh as [|d sh']; [exact I|]. split; [reflexivity | apply IH].
Qed.

Lemma corr_checked_iff (n : nat) (shw shx : list nat) (w x : arr xreal n) :
  has_shape n shw w -> has_shape n shx x -> positive shw -> positive shx ->
  ((exists t, corr_checked n w x = Ok t)
   <-> forallb2 (fun k d => (1 <=? k)%nat && (k <=? d)%nat) shw shx = true).
Proof.
  intros Hw Hx Hpw Hpx. unfold corr_checked.
  rewrite (has_shape_ashape _ _ _ Hw Hpw), (has_shape_ashape _ _ _ Hx Hpx).
  destruct (forallb2 _ shw shx); split; intros H;
    try reflexivity; try discriminate.
  - eexists. reflexivity.
  - destruct H as (t & H). discriminate.
Qed.

Lemma corr_checked_value (n : nat) (w x t : arr xreal n) :
  corr_checked n w x = Ok t -> t = corr n w x.
Proof.
  unfold corr_checked. destruct (forallb2 _ _ _); [|discriminate].
  now intros H; inversion H.
Qed.

(** One of the three grouped convolutions of [_hessian_3d]: six channels,
    six groups, channel [o] filtered by kernel [o] laid along axis [ax]. *)
Section Depthwise.

Variables (sh : list nat) (ax len : nat) (padding : list nat).
Variables (x : tensor 3) (gs : list (list xreal)).

Hypothesis Hp : positive sh.
Hypothesis Hlen : (1 <= len)%nat.
Hypothesis Hx : Forall (has_shape 3 sh) x.
Hypothesis Hx6 : length x = 6%nat.
Hypothesis Hgs : Forall (fun g => length g = len) gs.
Hypothesis Hgs6 : length gs = 6%nat.

Lemma depthwise_weights_ok :
  forallb (fun w : list (arr xreal 3) => (length w =? 1)%nat)
          (map (fun g => [view_axis 3 ax g]) gs) = true.
Proof.
  apply forallb_forall. intros w Hw. apply in_map_iff in Hw as (g & <- & _).
  reflexivity.
Qed.

Lemma depthwise_padded :
  exists xp,
    mapM (fun c => F_pad 3 c (conv_padding padding) Constant) x = Ok xp
    /\ length xp = 6%nat
    /\ Forall (has_shape 3 (padded 3 sh (conv_padding padding))) xp.
Proof.
  destruct (mapM_all_ok
              (fun c => F_pad 3 c (conv_padding padding) Constant) x)
    as (xp & Hxp).
  { intros c Hc. rewrite Forall_forall in Hx.
    apply (F_pad_domain 3 sh (conv_padding padding) Constant c (Hx c Hc) Hp).
    apply pad_fits_constant. }
  exists xp. split; [exact Hxp|]. split.
  - rewrite (mapM_length _ _ _ Hxp). exact Hx6.
  - eapply mapM_Forall2; [|exact Hx|exact Hxp].
    intros c p Hc Hcp.
    now apply (F_pad_shape 3 sh (conv_padding padding) Constant c p).
Qed.

Lemma depthwise_unfold (xp : tensor 3) :
  mapM (fun c => F_pad 3 c (conv_padding padding) Constant) x = Ok xp ->
  F_conv 3 x (map (fun g => [view_axis 3 ax g]) gs) padding 6
  = mapM (fun o => corr_checked 3 (view_axis 3 ax (nth o gs []))
                                (nth o xp (adefault 3)))
         (seq 0 6).
Proof.
  intros Hxp. unfold F_conv. rewrite length_map, Hx6, Hgs6.
  change (6 / 6)%nat with 1%nat. change (6 mod 6)%nat with 0%nat.
  rewrite depthwise_weights_ok.
  cbn [Nat.eqb negb orb]. fold (conv_padding padding). rewrite Hxp. cbn [bind].
  apply mapM_ext_in. intros o Ho. apply in_seq in Ho.
  cbv zeta. cbn [seq mapM]. rewrite Nat.div_1_r, Nat.mul_1_r, Nat.add_0_r.
  rewrite (nth_indep _ [] ((fun g => [view_axis 3 ax g]) []))
    by (rewrite length_map; lia).
  rewrite (map_nth (fun g => [view_axis 3 ax g]) gs [] o). cbn [nth].
  destruct (corr_checked 3 _ _); reflexivity.
Qed.

Lemma depthwise_inv (y : tensor 3) :
  F_conv 3 x (map (fun g => [view_axis 3 ax g]) gs) padding 6 = Ok y ->
  length y = 6%nat
  /\ Forall (has_shape 3 (conv_out 3 sh (conv_padding padding)
                                   (kshape 3 ax len))) y
  /\ conv_fits 3 sh (conv_padding padding) (kshape 3 ax len) = true.
Proof.
  destruct depthwise_padded as (xp & Hxp & Hxp6 & Hsh).
  rewrite (depthwise_unfold xp Hxp). intros H.
  assert (Hw : forall o, (o < 6)%nat ->
             has_shape 3 (kshape 3 ax len) (view_axis 3 ax (nth o gs []))).
  { intros o Ho. rewrite Forall_forall in Hgs.
    rewrite <- (Hgs (nth o gs [])) by (apply nth_In; lia).
    apply view_axis_shape. }
  assert (Hpk : positive (kshape 3 ax len)) by now apply positive_kshape.
  assert (Hpp : positive (padded 3 sh (conv_padding padding)))
    by now apply positive_padded.
  split; [|split].
  - rewrite (mapM_length _ _ _ H). reflexivity.
  - eapply mapM_Forall; [|exact H]. intros o t Ho Ht. apply in_seq in Ho.
    apply corr_checked_value in Ht. subst t.
    apply corr_shape; [apply Hw; lia | | exact Hpk].
    rewrite Forall_forall in Hsh. apply Hsh, nth_In. lia.
  - destruct (mapM_ok_In _ _ _ H 0%nat) as (t & Ht); [now left|].
    apply (corr_checked_iff 3 (kshape 3 ax len)
             (padded 3 sh (conv_padding padding))
             (view_axis 3 ax (nth 0 gs [])) (nth 0 xp (adefault 3)));
      try assumption; [apply Hw; lia | | now exists t].
    rewrite Forall_forall in Hsh. apply Hsh, nth_In. lia.
Qed.

Lemma depthwise_ok :
  conv_fits 3 sh (conv_padding padding) (kshape 3 ax len) = true ->
  exists y, F_conv 3 x (map (fun g => [view_axis 3 ax g]) gs) padding 6 = Ok y.
Proof.
  intros Hfits.
  destruct depthwise_padded as (xp & Hxp & Hxp6 & Hsh).
  rewrite (depthwise_unfold xp Hxp).
  apply mapM_all_ok. intros o Ho. apply in_seq in Ho.
  apply (corr_checked_iff 3 (kshape 3 ax len)
           (padded 3 sh (conv_padding padding))); try assumption.
  - rewrite Forall_forall in Hgs.
    rewrite <- (Hgs (nth o gs [])) by (apply nth_In; lia).
    apply view_axis_shape.
  - rewrite Forall_forall in Hsh. apply Hsh, nth_In. lia.
  - now apply positive_kshape.
  - now apply positive_padded.
Qed.


End Depthwise.


Lemma expand_channels_shape (sh : list nat) (img x : tensor 3) :
  Forall (has_shape 3 sh) img -> expand_channels 3 6 img = Ok x ->
  Forall (has_shape 3 sh) x /\ length x = 6%nat
  /\ (length img = 1%nat \/ length img = 6%nat).
Proof.
  intros Himg. unfold expand_channels.
  destruct img as [|c [|c' img]].
  - discriminate.
  - intros H. inversion H; subst x. pose proof (Forall_inv Himg).
    split; [repeat constructor; assumption|]. split; [reflexivity | now left].
  - destruct (length (c :: c' :: img) =? 6)%nat eqn:E; [|discriminate].
    apply Nat.eqb_eq in E. intros H. inversion H; subst x. auto.
Qed.

Ltac peel_positive H :=
  unfold positive in H;
  repeat match type of H with
         | Forall _ (_ :: _) =>
             let H1 := fresh "Hd" in apply Forall_cons_iff in H as [H1 H]
         end.

Ltac stage_norm H :=
  cbn [conv_out conv_fits conv_padding map2 padded kshape flat_map rev app
       nth Nat.mul Nat.add repeat forallb2] in H.

Lemma _hessian_3d_inv sh img sigma truncate mode H :
  positive sh -> Forall (has_shape 3 sh) img ->
  _hessian_3d img sigma truncate mode = Ok H ->
  (exists xx xy xz yy yz zz,
      H = [[xx]; [xy]; [xz]; [yy]; [yz]; [zz]]
      /\ Forall (has_shape 3 sh) [xx; xy; xz; yy; yz; zz])
  /\ (length img = 1%nat \/ length img = 6%nat)
  /\ (0 <= Zceil (sigma * truncate))%Z
  /\ (2 * Z.to_nat (Zceil (sigma * truncate)) < nth 2 sh 0)%nat.
Proof.
  intros Hp Himg E. unfold _hessian_3d in E.
  apply bind_ok in E as (g0 & Hg0 & E).
  apply bind_ok in E as (g1 & Hg1 & E).
  apply bind_ok in E as (g2 & Hg2 & E).
  apply bind_ok in E as (x0 & Hx0 & E).
  apply bind_ok in E as (x1 & Hx1 & E).
  apply bind_ok in E as (x2 & Hx2 & E).
  apply bind_ok in E as (x3 & Hx3 & E).
  apply kernel_length in Hg0 as (Hr & L0 & Hhalf).
  apply kernel_length in Hg1 as (_ & L1 & _).
  apply kernel_length in Hg2 as (_ & L2 & _).
  rewrite Hhalf in Hx1, Hx2, Hx3.
  set (r := Z.to_nat (Zceil (sigma * truncate))) in *.
  apply (expand_channels_shape sh) in Hx0 as (S0 & N0 & Hch); [|exact Himg].
  assert (Hrank : length sh = 3%nat).
  { destruct x0 as [|c x0]; [discriminate|].
    apply (has_shape_rank 3 sh c); [now apply (Forall_inv S0) | exact Hp]. }
  destruct sh as [|d0 [|d1 [|d2 [|d3 sh]]]]; try discriminate.
  pose proof Hp as Hp'. peel_positive Hp'.
  assert (Hlen : (1 <= 2 * r + 1)%nat) by lia.
  assert (Gx : Forall (fun g : list xreal => length g = (2 * r + 1)%nat)
                      [g2; g1; g1; g0; g0; g0])
    by (repeat constructor; assumption).
  assert (Gy : Forall (fun g : list xreal => length g = (2 * r + 1)%nat)
                      [g0; g1; g0; g2; g1; g0])
    by (repeat constructor; assumption).
  assert (Gz : Forall (fun g : list xreal => length g = (2 * r + 1)%nat)
                      [g0; g0; g1; g0; g1; g2])
    by (repeat constructor; assumption).
  destruct (depthwise_inv [d0; d1; d2] 2 (2 * r + 1) [r; 0; 0]%nat x0
              [g2; g1; g1; g0; g0; g0] Hp Hlen S0 N0 Gx eq_refl x1 Hx1)
    as (N1 & S1 & F1).
  stage_norm S1. stage_norm F1.
  apply andb_true_iff in F1 as [_ F1]. apply andb_true_iff in F1 as [_ F1].
  apply andb_true_iff in F1 as [F1 _]. apply andb_true_iff in F1 as [_ F1].
  apply Nat.leb_le in F1.
  match type of S1 with Forall (has_shape 3 ?s) _ =>
    assert (P1 : positive s) by (repeat constructor; lia) end.
  destruct (depthwise_inv _ 1 (2 * r + 1) [0; r; 0]%nat x1
              [g0; g1; g0; g2; g1; g0] P1 Hlen S1 N1 Gy eq_refl x2 Hx2)
    as (N2 & S2 & _).
  stage_norm S2.
  match type of S2 with Forall (has_shape 3 ?s) _ =>
    assert (P2 : positive s) by (repeat constructor; lia) end.
  destruct (depthwise_inv _ 0 (2 * r + 1) [0; 0; r]%nat x2
              [g0; g0; g1; g0; g1; g2] P2 Hlen S2 N2 Gz eq_refl x3 Hx3)
    as (N3 & S3 & _).
  stage_norm S3.
  match type of S3 with Forall (has_shape 3 ?s) _ =>
    replace s with [d0; d1; d2] in S3 by (repeat (f_equal; try lia)) end.
  inversion E; subst H.
  destruct x3 as [|a [|b [|c [|d [|e [|f [|? ?]]]]]]]; try discriminate.
  split; [|split; [exact Hch | split; [exact Hr|]]].
  - exists a, b, c, d, e, f. split; [reflexivity | exact S3].
  - cbn [nth]. lia.
Qed.


Lemma _hessian_3d_ok d0 d1 d2 c sigma truncate mode :
  positive [d0; d1; d2] -> has_shape 3 [d0; d1; d2] c ->
  (0 <= Zceil (sigma * truncate))%Z ->
  (2 * Z.to_nat (Zceil (sigma * truncate)) < d2)%nat ->
  exists H, _hessian_3d [c] sigma truncate mode = Ok H.
Proof.
  intros Hp Hc Hr Hfit. unfold _hessian_3d.
  destruct (kernel_ok sigma 0 truncate Hr) as (g0 & Hg0); [lia|].
  destruct (kernel_ok sigma 1 truncate Hr) as (g1 & Hg1); [lia|].
  destruct (kernel_ok sigma 2 truncate Hr) as (g2 & Hg2); [lia|].
  rewrite Hg0, Hg1, Hg2. cbv zeta. cbn [bind expand_channels repeat].
  apply kernel_length in Hg0 as (_ & L0 & Hhalf).
  apply kernel_length in Hg1 as (_ & L1 & _).
  apply kernel_length in Hg2 as (_ & L2 & _).
  rewrite Hhalf.
  set (r := Z.to_nat (Zceil (sigma * truncate))) in *.
  pose proof Hp as Hp'. peel_positive Hp'.
  assert (Hlen : (1 <= 2 * r + 1)%nat) by lia.
  assert (Gx : Forall (fun g : list xreal => length g = (2 * r + 1)%nat)
                      [g2; g1; g1; g0; g0; g0])
    by (repeat constructor; assumption).
  assert (Gy : Forall (fun g : list xreal => length g = (2 * r + 1)%nat)
                      [g0; g1; g0; g2; g1; g0])
    by (repeat constructor; assumption).
  assert (Gz : Forall (fun g : list xreal => length g = (2 * r + 1)%nat)
                      [g0; g0; g1; g0; g1; g2])
    by (repeat constructor; assumption).
  assert (S0 : Forall (has_shape 3 [d0; d1; d2]) [c; c; c; c; c; c])
    by (repeat (apply Forall_cons; [exact Hc|]); apply Forall_nil).
  assert (Hle : forall a b, (a <= b)%nat -> (a <=? b)%nat = true)
    by (intros; now apply Nat.leb_le).
  destruct (depthwise_ok [d0; d1; d2] 2 (2 * r + 1) [r; 0; 0]%nat
              [c; c; c; c; c; c] [g2; g1; g1; g0; g0; g0]
              Hp Hlen S0 eq_refl Gx eq_refl) as (x1 & Hx1).
  { cbn [conv_out conv_fits conv_padding map2 padded kshape flat_map rev
         app nth Nat.mul Nat.add repeat forallb2].
    rewrite !Hle by lia. reflexivity. }
  rewrite Hx1. cbn [bind].
  destruct (depthwise_inv [d0; d1; d2] 2 (2 * r + 1) [r; 0; 0]%nat
              [c; c; c; c; c; c] [g2; g1; g1; g0; g0; g0]
              Hp Hlen S0 eq_refl Gx eq_refl x1 Hx1) as (N1 & S1 & _).
  stage_norm S1.
  match type of S1 with Forall (has_shape 3 ?s) _ =>
    assert (P1 : positive s) by (repeat constructor; lia) end.
  destruct (depthwise_ok _ 1 (2 * r + 1) [0; r; 0]%nat x1
              [g0; g1; g0; g2; g1; g0] P1 Hlen S1 N1 Gy eq_refl)
    as (x2 & Hx2).
  { cbn [conv_out conv_fits conv_padding map2 padded kshape flat_map rev
         app nth Nat.mul Nat.add repeat forallb2].
    rewrite !Hle by lia. reflexivity. }
  rewrite Hx2. cbn [bind].
  destruct (depthwise_inv _ 1 (2 * r + 1) [0; r; 0]%nat x1
              [g0; g1; g0; g2; g1; g0] P1 Hlen S1 N1 Gy eq_refl x2 Hx2)
    as (N2 & S2 & _).
  stage_norm S2.
  match type of S2 with Forall (has_shape 3 ?s) _ =>
    assert (P2 : positive s) by (repeat constructor; lia) end.
  destruct (depthwise_ok _ 0 (2 * r + 1) [0; 0; r]%nat x2
              [g0; g0; g1; g0; g1; g2] P2 Hlen S2 N2 Gz eq_refl)
    as (x3 & Hx3).
  { cbn [conv_out conv_fits conv_padding map2 padded kshape flat_map rev
         app nth Nat.mul Nat.add repeat forallb2].
    rewrite !Hle by lia. reflexivity. }
  rewrite Hx3. cbn [bind]. eexists. reflexivity.
Qed.

End HessianShapes.

(* ================================================================= *)
(** ** What hessian and frangi accept *)

Section HessianDomain.

Lemma hessian_components_inv n sh img sigma truncate mode H :
  positive sh -> Forall (has_shape n sh) img ->
  hessian_components n img sigma truncate mode = Ok H ->
  Forall (fun t => exists c, t = [c] /\ has_shape n sh c) H
  /\ (length H = 3%nat \/ length H = 6%nat)
  /\ (0 <= Zceil (sigma * truncate))%Z
  /\ hessian_fits n mode (Z.to_nat (Zceil (sigma * truncate))) sh.
Proof.
  intros Hp Himg E.
  destruct n as [|[|[|[|n]]]]; cbn [hessian_components] in E;
    try discriminate.
  - apply (_hessian_2d_inv sh) in E
      as ((c & xx & xy & yy & _ & -> & Sxx & Sxy & Syy) & Hr & Hfit);
      try assumption.
    split; [|split; [now left | split; assumption]].
    repeat (apply Forall_cons; [eexists; split; [reflexivity | assumption]|]).
    apply Forall_nil.
  - apply (_hessian_3d_inv sh) in E
      as ((xx & xy & xz & yy & yz & zz & -> & S) & _ & Hr & Hfit);
      try assumption.
    split; [|split; [now right | split; assumption]].
    rewrite !Forall_cons_iff in S.
    repeat (apply Forall_cons; [eexists; split; [reflexivity | tauto]|]).
    apply Forall_nil.
Qed.

Lemma hessian_components_ok n sh c sigma truncate mode :
  positive sh -> has_shape n sh c ->
  (0 <= Zceil (sigma * truncate))%Z ->
  hessian_fits n mode (Z.to_nat (Zceil (sigma * truncate))) sh ->
  exists H, hessian_components n [c] sigma truncate mode = Ok H.
Proof.
  intros Hp Hc Hr Hfit.
  destruct n as [|[|[|[|n]]]]; cbn [hessian_fits] in Hfit; try tauto;
    cbn [hessian_components].
  - now apply (_hessian_2d_ok sh).
  - pose proof (has_shape_rank _ _ _ Hc Hp) as Hrank.
    destruct sh as [|d0 [|d1 [|d2 [|d3 sh]]]]; try discriminate.
    cbn [nth] in Hfit. now apply (_hessian_3d_ok d0 d1 d2).
Qed.

(** X16: the components [hessian] returns (3 in 2D, 6 in 3D) are
    one-channel tensors of the shape of the image. *)
Theorem hessian_preserves_shape (n : nat) (sh : list nat) (img : tensor n)
  (sigma truncate : R) (mode : pad_mode) :
  positive sh -> Forall (has_shape n sh) img ->
  match hessian n img sigma false truncate mode with
  | Ok (Components H) =>
      Forall (fun t => exists c, t = [c] /\ has_shape n sh c) H
  | Ok (Matrix _) => False
  | Raise _ => True
  end.
Proof.
  intros Hp Himg. unfold hessian.
  destruct (hessian_components n img sigma truncate mode) as [H|e] eqn:E;
    cbn [bind]; [|exact I].
  now apply (hessian_components_inv n sh img sigma truncate mode H).
Qed.

(** X17: the images [hessian] accepts, for a radius
    ceil(sigma * truncate) >= 0 and a one-channel image with no empty
    axis.  In 2D it returns exactly when every axis passes the size check
    of the padding mode for the radius.  In 3D the mode plays no part: it
    returns exactly when the LAST axis is longer than twice the radius (the
    first convolution runs along the last axis while its zero padding goes
    to the first), and the first two axes may have any size. *)
Theorem hessian_domain (n : nat) (sh : list nat) (c : arr xreal n)
  (sigma truncate : R) (as_matrix : bool) (mode : pad_mode) :
  positive sh -> has_shape n sh c ->
  (0 <= Zceil (sigma * truncate))%Z ->
  ((exists H, hessian n [c] sigma as_matrix truncate mode = Ok H)
   <-> hessian_fits n mode (Z.to_nat (Zceil (sigma * truncate))) sh).
Proof.
  intros Hp Hc Hr. unfold hessian. split.
  - intros (H & E). apply bind_ok in E as (Hc' & E & _).
    apply (hessian_components_inv n sh [c] sigma truncate mode Hc');
      try assumption.
    now constructor.
  - intros Hfit.
    destruct (hessian_components_ok n sh c sigma truncate mode Hp Hc Hr Hfit)
      as (H & E).
    rewrite E. cbn [bind]. destruct as_matrix; [|eexists; reflexivity].
    destruct (hessian_components_inv n sh [c] sigma truncate mode H Hp
                (Forall_cons _ Hc (Forall_nil _)) E) as (_ & [L | L] & _).
    + destruct H as [|a [|b [|d [|? ?]]]]; try discriminate.
      eexists. reflexivity.
    + destruct H as [|a [|b [|d [|e [|f [|g [|? ?]]]]]]]; try discriminate.
      eexists. reflexivity.
Qed.

End HessianDomain.

Section FrangiDomain.

Lemma pixels_shape (n : nat) (sh : list nat) (t : tensor n) :
  t <> [] -> Forall (has_shape n sh) t -> has_shape n sh (pixels n t).
Proof.
  intros Hne Ht. induction Ht as [|c rest Hc Hrest IH]; [congruence|].
  cbn [pixels]. destruct rest as [|c' rest].
  - now apply has_shape_amap.
  - apply has_shape_amap2; [exact Hc | apply IH; discriminate].
Qed.

Lemma Zceil_nonneg (x : R) : 0 <= x -> (0 <= Zceil x)%Z.
Proof.
  intros [H | <-].
  - pose proof (Zceil_pos x H). lia.
  - change 0 with (IZR 0). rewrite Zceil_IZR. lia.
Qed.

Lemma positive_of_large (sh : list nat) :
  Forall (fun d => (2 <= d)%nat) sh -> positive sh.
Proof. apply Forall_impl. intros d Hd. lia. Qed.

(** What [hessian_eigenvalues] returns on one one-channel image: one
    tensor of the shape of the image, with the 2 or 3 eigenvalues of every
    pixel. *)
Lemma hessian_eigenvalues_inv n sh c sigma truncate mode E :
  positive sh -> has_shape n sh c ->
  hessian_eigenvalues n (single [c]) sigma false truncate mode = Ok E ->
  (exists eig, E = [eig] /\ has_shape n sh eig
               /\ Forall (fun px => length px = n) (aflat n eig))
  /\ (0 <= Zceil (sigma * truncate))%Z
  /\ hessian_fits n mode (Z.to_nat (Zceil (sigma * truncate))) sh.
Proof.
  intros Hp Hc E0. rewrite hessian_eigenvalues_images in E0.
  cbn [images single first_image other_images mapM] in E0.
  destruct (hessian_components n [c] sigma truncate mode) as [H|e] eqn:HH;
    cbn [bind map] in E0; [|discriminate].
  inversion E0; subst E. clear E0.
  pose proof (unsorted_eigenvalues_length _ _ _ _ _ _ HH) as Hlen.
  apply (hessian_components_inv n sh) in HH as (HS & HL & Hr & Hfit);
    try assumption; [|now constructor].
  split; [|split; assumption].
  eexists. split; [reflexivity|]. split.
  - apply has_shape_amap. unfold unsorted_eigenvalues, at_pixels.
    apply has_shape_amap. apply pixels_shape.
    + destruct H as [|t H]; [destruct HL; discriminate|].
      destruct (Forall_inv HS) as (c' & -> & _). discriminate.
    + apply Forall_concat. eapply Forall_impl; [|exact HS].
      intros t (c' & -> & Hc'). now constructor.
  - rewrite aflat_amap. apply Forall_map.
    eapply Forall_impl; [|exact Hlen]. intros px Hpx.
    now rewrite (Permutation_length (sort_by_abs_perm px)).
Qed.

Lemma hessian_eigenvalues_ok n sh c sigma truncate mode :
  positive sh -> has_shape n sh c ->
  (0 <= Zceil (sigma * truncate))%Z ->
  hessian_fits n mode (Z.to_nat (Zceil (sigma * truncate))) sh ->
  exists E, hessian_eigenvalues n (single [c]) sigma false truncate mode
            = Ok E.
Proof.
  intros Hp Hc Hr Hfit. rewrite hessian_eigenvalues_images.
  cbn [images single first_image other_images mapM].
  destruct (hessian_components_ok n sh c sigma truncate mode Hp Hc Hr Hfit)
    as (H & ->).
  cbn [bind]. eexists. reflexivity.
Qed.

Lemma hessian_eigenvalues_length n image sigma truncate mode E :
  hessian_eigenvalues n image sigma false truncate mode = Ok E ->
  length E = length (images image).
Proof.
  rewrite hessian_eigenvalues_images. intros H.
  apply bind_ok in H as (Hs & HH & H). inversion H; subst E.
  rewrite length_map. now apply mapM_length in HH.
Qed.

Lemma aflat_nonempty {A : Type} (n : nat) (sh : list nat) (x : arr A n) :
  has_shape n sh x -> positive sh -> aflat n x <> [].
Proof.
  revert sh x. induction n as [|m IH]; intros sh x; cbn [has_shape aflat].
  - discriminate.
  - destruct sh as [|d sh']; [tauto|]. intros [Hl Hall] Hp.
    inversion Hp as [|? ? Hd Hp']; subst.
    destruct x as [|s x]; [simpl in Hd; lia|].
    cbn [flat_map]. intros E. apply app_eq_nil in E as [E _].
    revert E. apply (IH sh'); [now apply (Forall_inv Hall) | exact Hp'].
Qed.

(** The shape of the eigenvalue tensor of one one-channel image, and what
    [squeeze] leaves of it when no axis of the image has size 1. *)
Lemma eig_tensor_dims n sh eig :
  positive sh -> has_shape n sh eig ->
  Forall (fun px => length px = n) (aflat n eig) ->
  dims (eig_tensor n [eig]) = (1 :: n :: sh)%nat.
Proof.
  intros Hp He Hpx. unfold eig_tensor. cbn [dims length].
  rewrite (has_shape_ashape _ _ _ He) by exact Hp.
  pose proof (aflat_nonempty n sh eig He Hp) as Hne.
  destruct (aflat n eig) as [|px l]; [congruence|].
  cbn [hd]. now rewrite (Forall_inv Hpx).
Qed.

Lemma filter_large (sh : list nat) :
  Forall (fun d => (2 <= d)%nat) sh ->
  filter (fun d => negb (d =? 1)%nat) sh = sh.
Proof.
  induction 1 as [|d sh Hd _ IH]; [reflexivity|].
  cbn [filter]. rewrite IH.
  now replace (d =? 1)%nat with false by (symmetry; apply Nat.eqb_neq; lia).
Qed.

Lemma squeeze_eig_tensor n sh eig :
  (n = 2 \/ n = 3)%nat -> positive sh -> has_shape n sh eig ->
  Forall (fun px => length px = n) (aflat n eig) ->
  dims (squeeze (eig_tensor n [eig]))
  = n :: filter (fun d => negb (d =? 1)%nat) sh.
Proof.
  intros Hn Hsh He Hpx. unfold squeeze. cbn [dims].
  rewrite (eig_tensor_dims n sh) by assumption.
  cbn [filter Nat.eqb negb].
  now destruct Hn as [-> | ->].
Qed.

Lemma numel_squeezed (sh : list nat) :
  positive sh -> (0 < numel (filter (fun d => negb (d =? 1)%nat) sh))%nat.
Proof.
  intros Hp. apply numel_pos. apply Forall_forall. intros d Hd.
  apply filter_In in Hd as [Hd _].
  unfold positive in Hp. rewrite Forall_forall in Hp.
  specialize (Hp d Hd). lia.
Qed.

(** One scale of the loop returns once the squeezed eigenvalue tensor has
    the 2 (2D) or 3 (3D) eigenvalues along its first axis and no empty
    axis; the result has the other axes. *)
Lemma frangi_scale_returns n E alpha beta gamma eps rest :
  (n = 2 \/ n = 3)%nat ->
  dims (squeeze (eig_tensor n E)) = n :: rest ->
  (0 < numel rest)%nat ->
  exists r, frangi_scale n E alpha beta gamma eps = Ok r
            /\ dims r = rest /\ length (entries r) = numel rest.
Proof.
  intros Hn Hd Hm. unfold frangi_scale. rewrite Hd.
  assert (Hchk : ((n =? 0) = false
                  /\ (n - 1 <? (if n =? 2 then 1 else 2)) = false
                  /\ ((if n =? 2 then 1 else 2) <? n - 1) = false)%nat)
    by (destruct Hn as [-> | ->]; repeat split; reflexivity).
  destruct Hchk as (-> & -> & ->).
  destruct (numel rest) as [|m] eqn:Em; [lia|].
  assert (Hg : exists g,
             match gamma with
             | Some g' => Ok (Fin g')
             | None =>
                 m0 <- tensor_max
                         (map (fun e => xsqrt (xsum (map xsquare e)))
                              (map sort_by_abs
                                 (map (fun j =>
                                         map (fun i =>
                                                nth (i * S m + j)
                                                    (entries
                                                       (squeeze
                                                          (eig_tensor n E)))
                                                    NaN)
                                             (seq 0 n))
                                      (seq 0 (S m))))) ;;
                 Ok (if xeqb (xdiv m0 (Fin 2)) (Fin 0) then Fin 1
                     else xdiv m0 (Fin 2))
             end = Ok g).
  { destruct gamma as [g|]; [now eexists|].
    cbn [seq map tensor_max bind]. eexists. reflexivity. }
  destruct Hg as (g & ->). cbn [bind].
  eexists. split; [reflexivity|]. split; [reflexivity|].
  cbn [entries]. rewrite map2_length_min, !length_map, length_seq.
  apply Nat.min_id.
Qed.

(** The response of one scale on one one-channel image has the spatial
    axes that are not of size 1. *)
Lemma frangi_scale_at_squeezed n sh c alpha beta gamma eps s :
  (n = 2 \/ n = 3)%nat -> positive sh -> has_shape n sh c -> 0 <= s ->
  hessian_fits n default_mode (Z.to_nat (Zceil (s * default_truncate))) sh ->
  exists r, frangi_scale_at n (single [c]) alpha beta gamma eps s = Ok r
            /\ dims r = filter (fun d => negb (d =? 1)%nat) sh
            /\ length (entries r)
               = numel (filter (fun d => negb (d =? 1)%nat) sh).
Proof.
  intros Hn Hp Hc Hs Hfit.
  assert (Hr : (0 <= Zceil (s * default_truncate))%Z).
  { apply Zceil_nonneg. unfold default_truncate. lra. }
  destruct (hessian_eigenvalues_ok n sh c s default_truncate default_mode
              Hp Hc Hr Hfit) as (E & HE).
  unfold frangi_scale_at. rewrite HE. cbn [bind].
  apply (hessian_eigenvalues_inv n sh) in HE
    as ((eig & -> & He & Hpx) & _); try assumption.
  apply frangi_scale_returns; [exact Hn | now apply squeeze_eig_tensor |].
  now apply numel_squeezed.
Qed.

Lemma frangi_scale_at_returns n sh c alpha beta gamma eps s :
  (n = 2 \/ n = 3)%nat -> Forall (fun d => (2 <= d)%nat) sh ->
  has_shape n sh c -> 0 <= s ->
  hessian_fits n default_mode (Z.to_nat (Zceil (s * default_truncate))) sh ->
  exists r, frangi_scale_at n (single [c]) alpha beta gamma eps s = Ok r
            /\ dims r = sh /\ length (entries r) = numel sh.
Proof.
  intros Hn Hsh Hc Hs Hfit.
  pose proof (positive_of_large sh Hsh) as Hp.
  destruct (frangi_scale_at_squeezed n sh c alpha beta gamma eps s Hn Hp Hc
              Hs Hfit) as (r & Hr & Hd & Hl).
  rewrite filter_large in Hd, Hl by exact Hsh.
  now exists r.
Qed.

Lemma frangi_scale_at_dims n sh c alpha beta gamma eps s r :
  (n = 2 \/ n = 3)%nat -> Forall (fun d => (2 <= d)%nat) sh ->
  has_shape n sh c ->
  frangi_scale_at n (single [c]) alpha beta gamma eps s = Ok r ->
  dims r = sh /\ length (entries r) = numel sh.
Proof.
  intros Hn Hsh Hc H.
  pose proof (positive_of_large sh Hsh) as Hp.
  unfold frangi_scale_at in H. apply bind_ok in H as (E & HE & H).
  apply (hessian_eigenvalues_inv n sh) in HE
    as ((eig & -> & He & Hpx) & _); try assumption.
  destruct (frangi_scale_returns n [eig] alpha beta gamma eps sh Hn)
    as (r' & Hr' & Hdims);
    [rewrite (squeeze_eig_tensor n sh) by assumption;
     now rewrite filter_large
    |now apply numel_pos|].
  congruence.
Qed.

Lemma broadcast_dims_same (d : list nat) : broadcast_dims d d = Some d.
Proof.
  induction d as [|x d IH]; [reflexivity|].
  cbn [broadcast_dims]. now rewrite IH, Nat.eqb_refl.
Qed.

(** A tensor of the spatial shape broadcasts to the shape [1, 1, *spatial]
    of the image. *)
Lemma broadcast_shapes_image (sh : list nat) :
  broadcast_shapes (1 :: 1 :: sh)%nat sh = Some (1 :: 1 :: sh)%nat.
Proof.
  unfold broadcast_shapes, unsqueeze_to. cbn [length].
  rewrite Nat.max_l by lia. rewrite Nat.sub_diag.
  replace (S (S (length sh)) - length sh)%nat with 2%nat by lia.
  cbn [repeat app]. apply broadcast_dims_same.
Qed.

Lemma torch_maximum_image (sh : list nat) (fm result : shaped) :
  dims fm = (1 :: 1 :: sh)%nat -> dims result = sh ->
  exists r, torch_maximum fm result = Ok r
            /\ dims r = (1 :: 1 :: sh)%nat
            /\ length (entries r) = numel sh.
Proof.
  intros Hfm Hres. unfold torch_maximum, broadcast2.
  rewrite Hfm, Hres, broadcast_shapes_image.
  eexists. split; [reflexivity|]. split; [reflexivity|].
  cbn [entries]. rewrite length_map, indices_length. simpl. lia.
Qed.

Lemma zeros_like_image n sh c :
  positive sh -> has_shape n sh c ->
  dims (zeros_like n (single [c])) = (1 :: 1 :: sh)%nat
  /\ length (entries (zeros_like n (single [c]))) = numel sh.
Proof.
  intros Hp Hc. unfold zeros_like, batch_dims.
  cbn [dims entries images single first_image other_images length].
  rewrite (has_shape_ashape _ _ _ Hc) by exact Hp.
  split; [reflexivity|]. rewrite repeat_length. simpl. lia.
Qed.

Lemma fold_running_max_dims n sh c alpha beta gamma eps (l : list R) :
  (n = 2 \/ n = 3)%nat -> Forall (fun d => (2 <= d)%nat) sh ->
  has_shape n sh c ->
  forall fm r,
    dims fm = (1 :: 1 :: sh)%nat -> length (entries fm) = numel sh ->
    fold_left (running_max n (single [c]) alpha beta gamma eps) l (Ok fm)
    = Ok r ->
    dims r = (1 :: 1 :: sh)%nat /\ length (entries r) = numel sh.
Proof.
  intros Hn Hsh Hc. induction l as [|s l IH]; intros fm r Hfm Hlen H.
  - inversion H; subst. now split.
  - cbn [fold_left] in H.
    destruct (running_max n (single [c]) alpha beta gamma eps (Ok fm) s)
      as [fm1|e] eqn:E; [|now rewrite running_max_raise in H].
    apply running_max_ok in E as (fm0 & res & E0 & Hr & Hm).
    inversion E0; subst fm0.
    apply (frangi_scale_at_dims n sh) in Hr as [Hd _]; try assumption.
    destruct (torch_maximum_image sh fm res Hfm Hd) as (r' & Hr' & D & L).
    rewrite Hr' in Hm. inversion Hm; subst r'.
    now apply (IH fm1 r).
Qed.

Lemma fold_running_max_In n image alpha beta gamma eps (l : list R) :
  forall fm r,
    fold_left (running_max n image alpha beta gamma eps) l (Ok fm) = Ok r ->
    forall s, In s l ->
      exists res, frangi_scale_at n image alpha beta gamma eps s = Ok res.
Proof.
  induction l as [|a l IH]; intros fm r H s Hs; [contradiction|].
  cbn [fold_left] in H.
  destruct (running_max n image alpha beta gamma eps (Ok fm) a)
    as [fm1|e] eqn:E; [|now rewrite running_max_raise in H].
  destruct Hs as [-> | Hs].
  - apply running_max_ok in E as (fm0 & res & _ & Hr & _). now exists res.
  - now apply (IH fm1 r).
Qed.

Lemma fold_running_max_returns n sh image alpha beta gamma eps (l : list R) :
  Forall (fun s =>
            exists res, frangi_scale_at n image alpha beta gamma eps s = Ok res
                        /\ dims res = sh) l ->
  forall fm,
    dims fm = (1 :: 1 :: sh)%nat ->
    exists r, fold_left (running_max n image alpha beta gamma eps) l (Ok fm)
              = Ok r.
Proof.
  induction 1 as [|s l (res & Hres & Hd) _ IH]; intros fm Hfm.
  - now exists fm.
  - cbn [fold_left]. unfold running_max at 2. cbn [bind]. rewrite Hres.
    cbn [bind].
    destruct (torch_maximum_image sh fm res Hfm Hd) as (r' & -> & D & _).
    now apply IH.
Qed.

(** X18: on one one-channel image with no axis of size 1, [frangi] returns
    a tensor of the shape [1, 1, *spatial] of the image: [squeeze] removes
    the batch axis only, and the result of each scale, of the spatial
    shape, broadcasts to the shape of the image in the running maximum. *)
Theorem frangi_preserves_shape (n : nat) (sh : list nat) (c : arr xreal n)
  (sigma_range : R * R) (scale_step : R) (sigmas : option (list R))
  (alpha beta : R) (gamma : option R) (eps : R) :
  Forall (fun d => (2 <= d)%nat) sh -> has_shape n sh c ->
  match frangi n (single [c]) sigma_range scale_step sigmas
               alpha beta gamma eps with
  | Ok r => dims r = (1 :: 1 :: sh)%nat /\ length (entries r) = numel sh
  | Raise _ => True
  end.
Proof.
  intros Hsh Hc.
  destruct (frangi n (single [c]) sigma_range scale_step sigmas
                   alpha beta gamma eps) as [r|e] eqn:H; [|exact I].
  pose proof (frangi_ok_rank _ _ _ _ _ _ _ _ _ _ H) as Hn.
  pose proof (positive_of_large sh Hsh) as Hp.
  rewrite frangi_fold in H by exact Hn.
  apply bind_ok in H as (l & _ & H).
  destruct (existsb _ l); [discriminate|].
  destruct (zeros_like_image n sh c Hp Hc) as [Hd0 Hl0].
  eapply (fold_running_max_dims n sh c); eassumption.
Qed.

(** When [frangi] returns on a one-channel image with no empty axis, the
    image is 2D or 3D, no sigma is negative and the Hessian accepts the
    image at every scale. *)
Lemma frangi_returns_fits (n : nat) (sh : list nat) (c : arr xreal n)
  (sigma_range : R * R) (scale_step : R) (l : list R)
  (alpha beta : R) (gamma : option R) (eps : R) (r : shaped) :
  positive sh -> has_shape n sh c ->
  frangi n (single [c]) sigma_range scale_step (Some l)
         alpha beta gamma eps = Ok r ->
  (n = 2 \/ n = 3)%nat
  /\ Forall (fun s =>
               0 <= s
               /\ hessian_fits n default_mode
                    (Z.to_nat (Zceil (s * default_truncate))) sh) l.
Proof.
  intros Hp Hc H.
  pose proof (frangi_ok_rank _ _ _ _ _ _ _ _ _ _ H) as Hn.
  split; [exact Hn|].
  rewrite frangi_fold in H by exact Hn. cbn [scale_sigmas bind] in H.
  destruct (existsb (fun s => Rltb s 0) l) eqn:Ex; [discriminate|].
  apply Forall_forall. intros s Hs. split.
  - assert (Hs0 : Rltb s 0 = false).
    { destruct (Rltb s 0) eqn:E; [|reflexivity].
      assert (existsb (fun s => Rltb s 0) l = true)
        by (apply existsb_exists; now exists s).
      congruence. }
    unfold Rltb in Hs0. destruct (Rlt_dec s 0); [discriminate | lra].
  - destruct (fold_running_max_In _ _ _ _ _ _ _ _ _ H s Hs) as (res & Hres).
    unfold frangi_scale_at in Hres.
    apply bind_ok in Hres as (eig & He & _).
    now apply (hessian_eigenvalues_inv n sh) in He as (_ & _ & Hfit).
Qed.

Lemma frangi_fits_returns (n : nat) (sh : list nat) (c : arr xreal n)
  (sigma_range : R * R) (scale_step : R) (l : list R)
  (alpha beta : R) (gamma : option R) (eps : R) :
  Forall (fun d => (2 <= d)%nat) sh -> has_shape n sh c ->
  (n = 2 \/ n = 3)%nat ->
  Forall (fun s =>
            0 <= s
            /\ hessian_fits n default_mode
                 (Z.to_nat (Zceil (s * default_truncate))) sh) l ->
  exists r, frangi n (single [c]) sigma_range scale_step (Some l)
                   alpha beta gamma eps = Ok r.
Proof.
  intros Hsh Hc Hn Hl.
  pose proof (positive_of_large sh Hsh) as Hp.
  rewrite frangi_fold by exact Hn. cbn [scale_sigmas bind].
  assert (Ex : existsb (fun s => Rltb s 0) l = false).
  { apply not_true_is_false. intros E.
    apply existsb_exists in E as (s & Hs & E).
    rewrite Forall_forall in Hl. destruct (Hl s Hs) as (H0 & _).
    rewrite Rltb_false in E by exact H0. discriminate. }
  rewrite Ex.
  apply (fold_running_max_returns n sh); [|now apply zeros_like_image].
  eapply Forall_impl; [|exact Hl]. intros s (Hs & Hfit).
  destruct (frangi_scale_at_returns n sh c alpha beta gamma eps s)
    as (res & Hres & Hd & _); try assumption.
  now exists res.
Qed.

(** X19: the scale lists [frangi] accepts on one one-channel image with
    no axis of size 1 (so that [squeeze] removes the batch axis only): it
    returns exactly when the image is 2D or 3D, no sigma is negative, and
    for every sigma the Hessian accepts the image with the radius
    ceil(4 * sigma) in reflect mode: in 2D every axis longer than the
    radius, in 3D the last axis longer than twice the radius. *)
Theorem frangi_domain (n : nat) (sh : list nat) (c : arr xreal n)
  (sigma_range : R * R) (scale_step : R) (l : list R)
  (alpha beta : R) (gamma : option R) (eps : R) :
  Forall (fun d => (2 <= d)%nat) sh -> has_shape n sh c ->
  ((exists r, frangi n (single [c]) sigma_range scale_step (Some l)
                     alpha beta gamma eps = Ok r)
   <-> (n = 2 \/ n = 3)%nat
       /\ Forall (fun s =>
                    0 <= s
                    /\ hessian_fits n default_mode
                         (Z.to_nat (Zceil (s * default_truncate))) sh) l).
Proof.
  intros Hsh Hc. split.
  - intros (r & H).
    apply (frangi_returns_fits n sh c sigma_range scale_step l
             alpha beta gamma eps r);
      [now apply positive_of_large | exact Hc | exact H].
  - intros (Hn & Hl). now apply (frangi_fits_returns n sh).
Qed.

Lemma default_sigmas :
  scale_sigmas default_sigma_range default_scale_step None
  = Ok [1; 3; 5; 7; 9].
Proof.
  unfold scale_sigmas, default_sigma_range, default_scale_step, torch_arange.
  cbn [fst snd].
  rewrite Reqb_false by lra.
  rewrite (Rltb_false 10 1) by lra. rewrite (Rltb_false 2 0) by lra.
  rewrite andb_false_r. cbn [andb orb].
  rewrite (Zceil_eq 5) by (simpl; lra).
  change (Z.to_nat 5) with 5%nat. cbn [seq map].
  apply f_equal.
  repeat (apply f_equal2; [simpl; lra|]). reflexivity.
Qed.

(** X20: with its default [sigma_range] and [scale_step], [frangi] runs
    on the scales 1, 3, 5, 7, 9 (the end 10 of the range is excluded). *)
Theorem frangi_default_scales (n : nat) (image : batch n)
  (alpha beta : R) (gamma : option R) (eps : R) :
  frangi n image default_sigma_range default_scale_step None
         alpha beta gamma eps
  = frangi n image default_sigma_range default_scale_step
           (Some [1; 3; 5; 7; 9]) alpha beta gamma eps.
Proof.
  unfold frangi, frangi_run. rewrite default_sigmas. reflexivity.
Qed.

Lemma hessian_fits_mono (n : nat) (r r' : nat) (sh : list nat) :
  (r <= r')%nat -> hessian_fits n Reflect r' sh -> hessian_fits n Reflect r sh.
Proof.
  intros Hr. destruct n as [|[|[|[|n]]]]; cbn [hessian_fits]; try tauto.
  - apply Forall_impl. intros d. cbn [mode_fits]. lia.
  - lia.
Qed.

Lemma Zceil_times_4 (z : Z) : Zceil (IZR z * default_truncate) = (z * 4)%Z.
Proof.
  unfold default_truncate. rewrite <- mult_IZR. apply Zceil_IZR.
Qed.

(** X21: with its default scales, the largest being 9 and its radius 36,
    [frangi] returns on one one-channel image with no empty axis, and in
    3D no axis of size 1, exactly when, in 2D, every axis is longer than
    36, and in 3D, the last axis is longer than 72. *)
Theorem frangi_default_domain (n : nat) (sh : list nat) (c : arr xreal n)
  (alpha beta : R) (gamma : option R) (eps : R) :
  positive sh -> has_shape n sh c ->
  (n = 3%nat -> Forall (fun d => (2 <= d)%nat) sh) ->
  ((exists r, frangi n (single [c]) default_sigma_range default_scale_step
                     None alpha beta gamma eps = Ok r)
   <-> hessian_fits n Reflect 36 sh).
Proof.
  intros Hp Hc H3.
  assert (E : frangi n (single [c]) default_sigma_range default_scale_step
                     None alpha beta gamma eps
              = frangi n (single [c]) default_sigma_range default_scale_step
                       (Some [1; 3; 5; 7; 9]) alpha beta gamma eps).
  { unfold frangi, frangi_run. rewrite default_sigmas. reflexivity. }
  rewrite E. split.
  - intros (r & H).
    apply (frangi_returns_fits n sh c) in H as (_ & H); try assumption.
    rewrite !Forall_cons_iff, !Zceil_times_4 in H.
    destruct H as (_ & _ & _ & _ & (_ & H) & _). exact H.
  - intros H.
    assert (Hn : (n = 2 \/ n = 3)%nat)
      by (destruct n as [|[|[|[|n]]]]; cbn [hessian_fits] in H;
          try tauto; auto).
    apply (frangi_fits_returns n sh); try assumption.
    + destruct Hn as [-> | ->]; [|now apply H3].
      cbn [hessian_fits] in H. eapply Forall_impl; [|exact H].
      intros d. cbn [mode_fits]. lia.
    + rewrite !Forall_cons_iff, Forall_nil_iff, !Zceil_times_4.
      unfold default_mode.
      repeat (split;
              [split; [lra|];
               apply (hessian_fits_mono n _ 36); [|exact H];
               apply Nat.leb_le; reflexivity|]).
      exact I.
Qed.

(** With more than one image in the batch, [squeeze] keeps the batch
    axis, and the first axis of the eigenvalue tensor is the batch. *)
Lemma frangi_scale_unpack n E alpha beta gamma eps :
  (n = 2 \/ n = 3)%nat -> (2 <= length E)%nat -> length E <> n ->
  frangi_scale n E alpha beta gamma eps
  = Raise (ValueError (if (length E <? n)%nat
                       then "not enough values to unpack"
                       else "too many values to unpack")).
Proof.
  intros Hn HB Hne. unfold frangi_scale.
  destruct E as [|e E']; [simpl in HB; lia|].
  unfold squeeze, eig_tensor. cbn [dims filter entries].
  replace (length (e :: E') =? 1)%nat with false
    by (symmetry; apply Nat.eqb_neq; lia).
  cbn [negb].
  replace (length (e :: E') =? 0)%nat with false
    by (symmetry; apply Nat.eqb_neq; lia).
  destruct Hn as [-> | ->]; cbn [Nat.eqb].
  - replace (length (e :: E') - 1 <? 1)%nat with false
      by (symmetry; apply Nat.ltb_ge; lia).
    replace (1 <? length (e :: E') - 1)%nat with true
      by (symmetry; apply Nat.ltb_lt; lia).
    replace (length (e :: E') <? 2)%nat with false
      by (symmetry; apply Nat.ltb_ge; lia).
    reflexivity.
  - destruct (length (e :: E') <? 3)%nat eqn:L.
    + apply Nat.ltb_lt in L.
      replace (length (e :: E') - 1 <? 2)%nat with true
        by (symmetry; apply Nat.ltb_lt; lia).
      reflexivity.
    + apply Nat.ltb_ge in L.
      replace (length (e :: E') - 1 <? 2)%nat with false
        by (symmetry; apply Nat.ltb_ge; lia).
      replace (2 <? length (e :: E') - 1)%nat with true
        by (symmetry; apply Nat.ltb_lt; lia).
      reflexivity.
Qed.

(** X25: on a batch of B >= 2 images [frangi] fails at its first scale
    unless B is the number of eigenvalues (2 in 2D, 3 in 3D): [squeeze]
    keeps the batch axis, the eigenvalue tensor is indexed and unpacked
    along the batch, and [eigenvalues[1:]] has B - 1 entries where 1 (2D)
    or 2 (3D) are unpacked.  When [hessian_eigenvalues] returns at the
    first sigma, the ValueError of the unpacking is raised: too many
    values for a 2D batch of 3 or more and a 3D batch of 4 or more, not
    enough for a 3D batch of 2. *)
Theorem frangi_batch_unpack (n : nat) (image : batch n)
  (sigma_range : R * R) (scale_step : R) (s : R) (l : list R)
  (alpha beta : R) (gamma : option R) (eps : R) :
  (n = 2 \/ n = 3)%nat ->
  (2 <= length (images image))%nat -> length (images image) <> n ->
  Forall (fun s => 0 <= s) (s :: l) ->
  frangi n image sigma_range scale_step (Some (s :: l))
         alpha beta gamma eps
  = match hessian_eigenvalues n image s false default_truncate
                              default_mode with
    | Ok _ =>
        Raise (ValueError (if (length (images image) <? n)%nat
                           then "not enough values to unpack"
                           else "too many values to unpack"))
    | Raise e => Raise e
    end.
Proof.
  intros Hn HB Hne Hl. rewrite frangi_fold by exact Hn.
  cbn [scale_sigmas bind].
  assert (Ex : existsb (fun s => Rltb s 0) (s :: l) = false).
  { apply not_true_is_false. intros E.
    apply existsb_exists in E as (x & Hx & E).
    rewrite Forall_forall in Hl.
    rewrite Rltb_false in E by now apply Hl. discriminate. }
  rewrite Ex. cbn [fold_left]. unfold running_max at 2. cbn [bind].
  unfold frangi_scale_at.
  destruct (hessian_eigenvalues n image s false default_truncate
                                default_mode) as [E|e] eqn:HE; cbn [bind].
  - pose proof (hessian_eigenvalues_length _ _ _ _ _ _ HE) as HL.
    rewrite frangi_scale_unpack by (rewrite ?HL; assumption).
    cbn [bind]. rewrite HL. apply running_max_raise.
  - apply running_max_raise.
Qed.

Lemma Zceil_zero_4 : Zceil (0 * default_truncate) = 0%Z.
Proof. unfold default_truncate. apply Zceil_eq. simpl. lra. Qed.

(** X26: an axis of size 1 in the image changes what [frangi] returns.
    On a 3D image of shape [1, 1, 2, 1, 3] and the scale 1/4, [squeeze]
    removes the middle axis with the batch axis, the response has the
    shape [2, 3], and the running maximum broadcasts it against the zeros
    of shape [1, 1, 2, 1, 3]: the result has the shape [1, 1, 2, 2, 3],
    not that of the image.  On a 3D image of shape [1, 1, 2, 3, 1] and the
    scale 0 the response, of shape [2, 3], does not broadcast against
    [1, 1, 2, 3, 1], and [torch.maximum] raises its RuntimeError. *)
Theorem frangi_unit_axis (c c' : arr xreal 3)
  (sigma_range : R * R) (scale_step : R) (alpha beta : R)
  (gamma : option R) (eps : R) :
  has_shape 3 [2; 1; 3]%nat c -> has_shape 3 [2; 3; 1]%nat c' ->
  (exists r, frangi 3 (single [c]) sigma_range scale_step (Some [1 / 4])
                    alpha beta gamma eps = Ok r
             /\ dims r = [1; 1; 2; 2; 3]%nat)
  /\ frangi 3 (single [c']) sigma_range scale_step (Some [0])
            alpha beta gamma eps
     = Raise (RuntimeError "The size of tensor a must match the size of tensor b at non-singleton dimension").
Proof.
  intros Hc Hc'.
  assert (Hp : positive [2; 1; 3]%nat) by (repeat constructor).
  assert (Hp' : positive [2; 3; 1]%nat) by (repeat constructor).
  split.
  - rewrite frangi_fold by now right. cbn [scale_sigmas bind existsb orb].
    rewrite Rltb_false by lra. cbn [fold_left].
    unfold running_max. cbn [bind].
    destruct (frangi_scale_at_squeezed 3 [2; 1; 3]%nat c alpha beta gamma
                eps (1 / 4)) as (res & -> & Hd & _);
      [now right | exact Hp | exact Hc | lra
      | unfold default_truncate; rewrite Zceil_quarter_4; cbn; lia |].
    cbn [bind]. unfold torch_maximum, broadcast2.
    rewrite (proj1 (zeros_like_image 3 _ c Hp Hc)), Hd.
    eexists. split; reflexivity.
  - rewrite frangi_fold by now right. cbn [scale_sigmas bind existsb orb].
    rewrite Rltb_false by lra. cbn [fold_left].
    unfold running_max. cbn [bind].
    destruct (frangi_scale_at_squeezed 3 [2; 3; 1]%nat c' alpha beta gamma
                eps 0) as (res & -> & Hd & _);
      [now right | exact Hp' | exact Hc' | lra
      | rewrite Zceil_zero_4; cbn; lia |].
    cbn [bind]. unfold torch_maximum, broadcast2.
    rewrite (proj1 (zeros_like_image 3 _ c' Hp' Hc')), Hd.
    reflexivity.
Qed.

End FrangiDomain.

(* ================================================================= *)
(** ** Constant images *)

Section ConstantImages.

Lemma afill_shape {A : Type} (n : nat) (sh : list nat) (v : A) :
  length sh = n -> has_shape n sh (afill n sh v).
Proof.
  revert sh. induction n as [|m IH]; intros sh Hl; cbn [has_shape afill].
  - now destruct sh.
  - destruct sh as [|d sh']; [discriminate|]. split.
    + apply repeat_length.
    + apply Forall_forall. intros a Ha. apply repeat_spec in Ha. subst a.
      apply IH. simpl in Hl. lia.
Qed.

Lemma map2_repeat {A B C : Type} (f : A -> B -> C) (a : A) (b : B) (d : nat) :
  map2 f (repeat a d) (repeat b d) = repeat (f a b) d.
Proof.
  induction d as [|d IH]; [reflexivity|]. cbn [repeat map2]. now rewrite IH.
Qed.

Lemma amap2_fill {A B C : Type} (f : A -> B -> C) (n : nat) (sh : list nat)
  (a : A) (b : B) :
  amap2 f n (afill n sh a) (afill n sh b) = afill n sh (f a b).
Proof.
  revert sh. induction n as [|m IH]; intros sh; cbn [amap2 afill];
    [reflexivity|].
  destruct sh as [|d sh']; [reflexivity|].
  rewrite map2_repeat. now rewrite IH.
Qed.

Lemma mapM_repeat {A B : Type} (f : A -> res B) (a : A) (b : B) (d : nat) :
  f a = Ok b -> mapM f (repeat a d) = Ok (repeat b d).
Proof.
  intros H. induction d as [|d IH]; [reflexivity|].
  cbn [repeat mapM]. rewrite H, IH. reflexivity.
Qed.

Lemma map_const_seq {B : Type} (f : nat -> B) (b : B) (s d : nat) :
  (forall i, (s <= i < s + d)%nat -> f i = b) ->
  map f (seq s d) = repeat b d.
Proof.
  revert s. induction d as [|d IH]; intros s H; [reflexivity|].
  cbn [seq map repeat]. rewrite H by lia.
  rewrite IH by (intros i Hi; apply H; lia). reflexivity.
Qed.

Lemma nth_repeat_lt {B : Type} (a fill : B) (d k : nat) :
  (k < d)%nat -> nth k (repeat a d) fill = a.
Proof.
  intros H. rewrite (nth_indep _ fill a) by now rewrite repeat_length.
  apply nth_repeat.
Qed.

(** In the modes that read the image, every padded position reads a
    position of the axis. *)
Lemma pad_source_range (mode : pad_mode) (l r len i : nat) :
  mode <> Constant -> pad_ok mode l r len = true ->
  (i < l + len + r)%nat ->
  exists k, pad_source mode len (Z.of_nat i - Z.of_nat l) = Some k
            /\ (k < len)%nat.
Proof.
  intros Hm Hok Hi. unfold pad_source.
  destruct ((0 <=? Z.of_nat i - Z.of_nat l)
            && (Z.of_nat i - Z.of_nat l <? Z.of_nat len))%Z eqn:E.
  - apply andb_true_iff in E as [E1 E2].
    apply Z.leb_le in E1. apply Z.ltb_lt in E2.
    eexists. split; [reflexivity | lia].
  - apply andb_false_iff in E.
    destruct mode; [congruence | | |]; cbn [pad_ok] in Hok.
    + apply andb_true_iff in Hok as [H1 H2].
      apply Nat.ltb_lt in H1, H2. eexists. split; [reflexivity|].
      destruct (Z.of_nat i - Z.of_nat l <? 0)%Z eqn:E0.
      * apply Z.ltb_lt in E0. lia.
      * apply Z.ltb_ge in E0.
        destruct E as [E | E];
          [apply Z.leb_gt in E | apply Z.ltb_ge in E]; lia.
    + apply Nat.ltb_lt in Hok. eexists. split; [reflexivity|].
      destruct (Z.of_nat i - Z.of_nat l <? 0)%Z; lia.
    + apply andb_true_iff in Hok as [H1 H2].
      apply Nat.leb_le in H1, H2. eexists. split; [reflexivity|].
      assert (Hlen : (0 < Z.of_nat len)%Z) by lia.
      pose proof (Z.mod_pos_bound (Z.of_nat i - Z.of_nat l) (Z.of_nat len)
                    Hlen).
      lia.
Qed.

Lemma pad_list_repeat {B : Type} (mode : pad_mode) (l r : nat) (fill a : B)
  (d : nat) :
  mode <> Constant -> pad_ok mode l r d = true ->
  pad_list mode l r fill (repeat a d) = Ok (repeat a (l + d + r)).
Proof.
  intros Hm Hok. unfold pad_list. rewrite repeat_length, Hok. f_equal.
  apply map_const_seq. intros i Hi.
  destruct (pad_source_range mode l r d i Hm Hok) as (k & -> & Hk); [lia|].
  now apply nth_repeat_lt.
Qed.

(** Padding a constant image in a mode that reads the image gives a
    constant image. *)
Lemma F_pad_fill (n : nat) (sh pad : list nat) (mode : pad_mode) (v : xreal) :
  mode <> Constant -> length sh = n -> pad_fits mode n sh pad ->
  F_pad n (afill n sh v) pad mode = Ok (afill n (padded n sh pad) v).
Proof.
  intros Hm. revert sh. induction n as [|m IH]; intros sh Hl Hfit;
    cbn [F_pad afill padded pad_fits] in *.
  - reflexivity.
  - destruct sh as [|d sh']; [discriminate|]. destruct Hfit as [Hok Hfit].
    rewrite (mapM_repeat _ _ (afill m (padded m sh' pad) v))
      by (apply IH; [simpl in Hl; lia | exact Hfit]).
    cbn [bind]. now apply pad_list_repeat.
Qed.


Lemma corr_aconst (m : nat) (sh : list nat) (v w : xreal) :
  length sh = m ->
  corr m (aconst m w) (afill m sh v) = afill m sh (xmul v w).
Proof.
  revert sh. induction m as [|m IH]; intros sh Hl; cbn [corr aconst afill].
  - reflexivity.
  - destruct sh as [|d sh']; [discriminate|].
    rewrite repeat_length. cbn [length seq map nth].
    replace (d + 1 - 1)%nat with d by lia.
    apply map_const_seq. intros i Hi.
    rewrite Nat.add_0_r, nth_repeat_lt by lia.
    unfold asum. cbn [fold_left]. apply IH. simpl in Hl. lia.
Qed.

Lemma fold_fill_sum (m : nat) (sh : list nat) (f : nat -> R) (l : list nat)
  (x : R) :
  fold_left (amap2 xadd m) (map (fun a => afill m sh (Fin (f a))) l)
            (afill m sh (Fin x))
  = afill m sh (Fin (x + Rsum (map f l))).
Proof.
  revert x. induction l as [|a l IH]; intros x; cbn [map fold_left].
  - rewrite Rsum_nil. f_equal. f_equal. lra.
  - rewrite amap2_fill. cbn [xadd]. rewrite IH, Rsum_cons.
    f_equal. f_equal. lra.
Qed.

Lemma Rsum_map_mult (c : R) (l : list R) :
  Rsum (map (Rmult c) l) = c * Rsum l.
Proof.
  induction l as [|a t IH].
  - simpl. rewrite Rsum_nil. lra.
  - cbn [map]. rewrite !Rsum_cons, IH. lra.
Qed.

(** A constant image correlated with a finite kernel along one axis is the
    constant image of the value times the sum of the kernel. *)
Lemma corr_fill (n dim : nat) (kr : list R) (sh : list nat) (c : R) :
  length sh = n -> (dim < n)%nat -> kr <> [] ->
  corr n (view_axis n dim (map Fin kr)) (afill n sh (Fin c))
  = afill n (shrink dim (length kr) sh) (Fin (c * Rsum kr)).
Proof.
  intros Hl Hd Hk. revert dim sh Hl Hd.
  induction n as [|m IH]; intros dim sh Hl Hd; [lia|].
  destruct sh as [|d sh']; [discriminate|].
  assert (Hl' : length sh' = m) by (simpl in Hl; lia).
  cbn [corr view_axis afill shrink]. destruct dim as [|dim].
  - rewrite repeat_length, !length_map.
    apply map_const_seq. intros i Hi.
    rewrite (map_ext_in _ (fun a => afill m sh' (Fin (c * nth a kr 0)))).
    2:{ intros a Ha. apply in_seq in Ha.
        rewrite nth_repeat_lt by lia.
        rewrite (nth_indep _ (adefault m) (aconst m (Fin 0)))
          by (rewrite !length_map; lia).
        rewrite (map_nth (aconst m) (map Fin kr) (Fin 0) a).
        rewrite (map_nth Fin kr 0 a).
        now rewrite corr_aconst. }
    destruct kr as [|k0 kr]; [congruence|].
    cbn [length seq map]. unfold asum.
    rewrite <- seq_shift, map_map.
    rewrite (fold_fill_sum m sh' (fun a => c * nth (S a) (k0 :: kr) 0)).
    f_equal. f_equal. cbn [nth].
    rewrite <- (map_map (fun a => nth a kr 0) (Rmult c)).
    rewrite map_nth_seq, Rsum_map_mult, Rsum_cons. lra.
  - rewrite repeat_length. cbn [length seq map nth].
    replace (d + 1 - 1)%nat with d by lia.
    apply map_const_seq. intros i Hi.
    rewrite Nat.add_0_r, nth_repeat_lt by lia.
    unfold asum. cbn [fold_left]. apply IH; [exact Hl' | lia].
Qed.


Lemma shrink_padded (n dim : nat) (sh : list nat) (r : nat) :
  (1 <= n <= 3)%nat -> (dim < n)%nat -> length sh = n ->
  shrink dim (2 * r + 1) (padded n sh (conv_pad n dim r)) = sh.
Proof.
  intros Hn Hd Hl.
  destruct n as [|[|[|[|n]]]]; try lia;
    destruct dim as [|[|[|dim]]]; try lia;
    destruct sh as [|d0 [|d1 [|d2 [|d3 sh]]]]; try discriminate;
    cbn; repeat (f_equal; try lia).
Qed.

(** One pass of [_conv] over a constant image. *)
Lemma _conv_fill n sh c sigma order truncate mode dim kr :
  (1 <= n <= 3)%nat -> (dim < n)%nat -> length sh = n -> positive sh ->
  mode <> Constant ->
  mode_fits mode (Z.to_nat (Zceil (sigma * truncate))) (nth dim sh 0%nat) ->
  _gaussian_kernel_1d sigma order truncate = Ok (map Fin kr) ->
  _conv n [afill n sh (Fin c)] sigma order truncate mode dim
  = Ok [afill n sh (Fin (c * Rsum kr))].
Proof.
  intros Hn Hd Hl Hp Hm Hfit Hk.
  pose proof (kernel_length _ _ _ _ Hk) as (Hr & Hlen & Hhalf).
  set (r := Z.to_nat (Zceil (sigma * truncate))) in *.
  unfold _conv. rewrite Hk. cbn [bind mapM].
  fold (conv_pad n dim (length (map Fin kr) / 2)). rewrite Hhalf.
  rewrite F_pad_fill; [|exact Hm | exact Hl | now apply conv_pad_fits].
  cbn [bind].
  assert (Hxp : has_shape n (padded n sh (conv_pad n dim r))
                          (afill n (padded n sh (conv_pad n dim r)) (Fin c))).
  { apply afill_shape.
    pose proof (afill_shape n sh (Fin c) Hl) as Hc.
    pose proof (F_pad_domain n sh (conv_pad n dim r) mode _ Hc Hp) as [_ Hok].
    destruct Hok as (y & Hy); [now apply conv_pad_fits|].
    pose proof (F_pad_shape _ _ _ _ _ _ Hc Hp Hy) as Hys.
    apply (has_shape_rank n _ y Hys). now apply positive_padded. }
  rewrite F_conv_single_ok.
  - rewrite length_map in Hlen.
    rewrite corr_fill; try assumption.
    + now rewrite Hlen, shrink_padded.
    + now apply (has_shape_rank n _ _ Hxp), positive_padded.
    + destruct kr; [simpl in Hlen; lia | discriminate].
  - unfold corr_checked.
    rewrite (has_shape_ashape _ _ _ Hxp) by now apply positive_padded.
    rewrite (has_shape_ashape _ _ _ (view_axis_shape n dim (map Fin kr)))
      by (apply positive_kshape; lia).
    rewrite Hlen. rewrite conv_check by assumption. reflexivity.
Qed.

Lemma conv_fold_fill n sh sigma truncate mode steps ks :
  (1 <= n <= 3)%nat -> length sh = n -> positive sh -> mode <> Constant ->
  Forall2 (fun (p : nat * Z) kr =>
             (fst p < n)%nat
             /\ mode_fits mode (Z.to_nat (Zceil (sigma * truncate)))
                          (nth (fst p) sh 0%nat)
             /\ _gaussian_kernel_1d sigma (snd p) truncate = Ok (map Fin kr))
          steps ks ->
  forall c,
    fold_left (conv_step n sigma truncate mode) steps
              (Ok [afill n sh (Fin c)])
    = Ok [afill n sh (Fin (fold_left (fun acc kr => acc * Rsum kr) ks c))].
Proof.
  intros Hn Hl Hp Hm H.
  induction H as [|[dim o] kr steps ks (Hd & Hfit & Hk) _ IH]; intros c.
  - reflexivity.
  - cbn [fold_left conv_step bind fst snd] in *.
    rewrite (_conv_fill n sh c sigma o truncate mode dim kr); try assumption.
    apply IH.
Qed.

Lemma steps_kernels (P : nat -> Z -> list R -> Prop) (orders : list Z)
  (ks : list (list R)) (s : nat) :
  Forall2 (fun o kr => forall dim, In dim (seq s (length orders)) ->
                                   P dim o kr) orders ks ->
  Forall2 (fun (p : nat * Z) kr => P (fst p) (snd p) kr)
          (combine (seq s (length orders)) orders) ks.
Proof.
  intros H. revert s ks H.
  induction orders as [|o orders IH]; intros s ks H; inversion H; subst.
  - constructor.
  - cbn [length seq combine]. constructor.
    + cbn [fst snd]. match goal with Hx : forall dim, _ -> P dim o _ |- _ =>
        apply Hx end. now left.
    + apply IH. eapply Forall2_impl; [|eassumption].
      intros o' kr' Hx dim Hin. apply Hx. cbn [length seq]. now right.
Qed.

Lemma gaussian_filter_of_constant_fold (n : nat) (sh : list nat) (c sigma : R)
  (orders : list Z) (ks : list (list R)) (mode : pad_mode) (truncate : R) :
  (1 <= n <= 3)%nat -> length sh = n -> positive sh ->
  length orders = n -> mode <> Constant ->
  Forall (mode_fits mode (Z.to_nat (Zceil (sigma * truncate)))) sh ->
  Forall2 (fun o kr => _gaussian_kernel_1d sigma o truncate = Ok (map Fin kr))
          orders ks ->
  gaussian_filter n [afill n sh (Fin c)] sigma (inr orders) mode truncate
  = Ok [afill n sh (Fin (fold_left (fun acc kr => acc * Rsum kr) ks c))].
Proof.
  intros Hn Hl Hp Ho Hm Hfit Hk.
  rewrite gaussian_filter_fold.
  replace (length orders =? n)%nat with true
    by (symmetry; apply Nat.eqb_eq; exact Ho).
  apply conv_fold_fill; try assumption.
  apply (steps_kernels
           (fun dim o kr =>
              (dim < n)%nat
              /\ mode_fits mode (Z.to_nat (Zceil (sigma * truncate)))
                           (nth dim sh 0%nat)
              /\ _gaussian_kernel_1d sigma o truncate = Ok (map Fin kr))).
  eapply Forall2_impl; [|exact Hk].
  intros o kr Hkr dim Hin. apply in_seq in Hin.
  split; [lia|]. split; [|exact Hkr].
  rewrite Forall_forall in Hfit. apply Hfit, nth_In. lia.
Qed.

(** X22: a constant image stays constant under [gaussian_filter] in the
    modes that read the image (reflect, replicate, circular): with finite
    kernels, the value is multiplied by the sum of the kernel of each
    axis. *)
Theorem gaussian_filter_of_constant (n : nat) (sh : list nat) (c sigma : R)
  (orders : list Z) (ks : list (list R)) (mode : pad_mode) (truncate : R) :
  (1 <= n <= 3)%nat -> length sh = n -> positive sh ->
  length orders = n -> mode <> Constant ->
  Forall (mode_fits mode (Z.to_nat (Zceil (sigma * truncate)))) sh ->
  Forall2 (fun o kr => _gaussian_kernel_1d sigma o truncate = Ok (map Fin kr))
          orders ks ->
  gaussian_filter n [afill n sh (Fin c)] sigma (inr orders) mode truncate
  = Ok [afill n sh (Fin (fold_left (fun acc kr => acc * Rsum kr) ks c))].
Proof.
  intros. now apply gaussian_filter_of_constant_fold.
Qed.


Lemma Rmean_zero_sum (l : list R) : l <> [] -> Rmean l = 0 -> Rsum l = 0.
Proof.
  intros Hne H. unfold Rmean in H.
  assert (Hn : INR (length l) <> 0).
  { destruct l; [congruence|]. apply not_0_INR. simpl. lia. }
  apply (Rmult_eq_reg_r (/ INR (length l))).
  - unfold Rdiv in H. lra.
  - now apply Rinv_neq_0_compat.
Qed.

Lemma normalise_length (d : R) (raw y : list R) :
  length (normalise d raw y) = length raw.
Proof. unfold normalise. now rewrite !length_map. Qed.

(** The derivative kernels sum to zero. *)
Lemma kernel1_sum (sigma truncate : R) (k1 : list R) :
  0 < sigma -> (1 <= Zceil (sigma * truncate))%Z ->
  _gaussian_kernel_1d sigma 1 truncate = Ok (map Fin k1) -> Rsum k1 = 0.
Proof.
  intros Hs Hr Hk.
  set (X := samples (Zceil (sigma * truncate))).
  assert (HX : X <> []) by (apply samples_nonempty; lia).
  destruct (gauss_nonneg sigma 1 Hs) as [Hg | Hg].
  - rewrite kernel_order1 in Hk by assumption.
    inversion Hk as [E]. apply map_Fin_inj in E. rewrite <- E. fold X.
    assert (Hraw : map (raw1 sigma) X <> []).
    { intros E'. now apply map_eq_nil in E'. }
    apply Rmean_zero_sum.
    + intros E'. apply (f_equal (@length R)) in E'.
      rewrite normalise_length in E'. destruct (map (raw1 sigma) X);
        [congruence | discriminate].
    + apply normalise_moments; [lra | exact Hraw |].
      now apply order1_divisor.
  - rewrite kernel_order1_underflow in Hk by (try assumption; lia || auto).
    fold X in Hk. inversion Hk as [E].
    destruct X as [|x X']; [congruence|].
    destruct k1; discriminate.
Qed.

Lemma kernel2_sum (sigma truncate : R) (k2 : list R) :
  0 < sigma -> (0 <= Zceil (sigma * truncate))%Z ->
  _gaussian_kernel_1d sigma 2 truncate = Ok (map Fin k2) -> Rsum k2 = 0.
Proof.
  intros Hs Hr Hk. apply kernel_order2 in Hk as [Hc ->]; try assumption.
  set (X := samples (Zceil (sigma * truncate))) in *.
  assert (Hraw : map (raw2 sigma) X <> []).
  { intros E. apply map_eq_nil in E. revert E.
    now apply samples_nonempty. }
  apply Rmean_zero_sum.
  - intros E. apply (f_equal (@length R)) in E.
    rewrite normalise_length in E. destruct (map (raw2 sigma) X);
      [congruence | discriminate].
  - apply normalise_moments; [lra | exact Hraw | exact Hc].
Qed.

Lemma hessian_2d_fill sh c sigma truncate mode k1 k2 :
  length sh = 2%nat -> positive sh -> mode <> Constant ->
  0 < sigma -> 0 < truncate ->
  Forall (mode_fits mode (Z.to_nat (Zceil (sigma * truncate)))) sh ->
  _gaussian_kernel_1d sigma 1 truncate = Ok (map Fin k1) ->
  _gaussian_kernel_1d sigma 2 truncate = Ok (map Fin k2) ->
  _hessian_2d 2 [afill 2 sh (Fin c)] sigma truncate mode
  = Ok [[afill 2 sh (Fin 0)]; [afill 2 sh (Fin 0)]; [afill 2 sh (Fin 0)]].
Proof.
  intros Hl Hp Hm Hs Ht Hfit Hk1 Hk2.
  assert (Hr : (1 <= Zceil (sigma * truncate))%Z) by (apply Zceil_pos; nra).
  pose proof (kernel_order0 sigma truncate Hs ltac:(lia)) as Hk0.
  pose proof (kernel1_sum sigma truncate k1 Hs Hr Hk1) as S1.
  pose proof (kernel2_sum sigma truncate k2 Hs ltac:(lia) Hk2) as S2.
  set (k0 := map (gauss sigma) (samples (Zceil (sigma * truncate)))) in *.
  assert (Hn : (1 <= 2 <= 3)%nat) by lia.
  unfold _hessian_2d.
  rewrite (gaussian_filter_of_constant_fold 2 sh c sigma [0; 2]%Z [k0; k2]);
    try assumption; try reflexivity;
    [|repeat constructor; assumption].
  rewrite (gaussian_filter_of_constant_fold 2 sh c sigma [2; 0]%Z [k2; k0]);
    try assumption; try reflexivity;
    [|repeat constructor; assumption].
  rewrite (gaussian_filter_of_constant_fold 2 sh c sigma [1; 1]%Z [k1; k1]);
    try assumption; try reflexivity;
    [|repeat constructor; assumption].
  cbn [bind fold_left]. rewrite S1, S2.
  replace (c * Rsum k0 * 0) with 0 by ring.
  replace (c * 0 * Rsum k0) with 0 by ring.
  replace (c * 0 * 0) with 0 by ring.
  reflexivity.
Qed.


(** X23: the Hessian of a constant 2D image vanishes, in the modes that
    read the image and whenever the order-1 and the order-2 kernels are
    finite (the order-1 kernel is NaN when exp(-1 / (2 sigma^2)) underflows
    to 0, the order-2 kernel when its divisor is 0). *)
Theorem hessian_of_constant (sh : list nat) (c sigma truncate : R)
  (mode : pad_mode) (k1 k2 : list R) :
  length sh = 2%nat -> positive sh -> mode <> Constant ->
  0 < sigma -> 0 < truncate ->
  Forall (mode_fits mode (Z.to_nat (Zceil (sigma * truncate)))) sh ->
  _gaussian_kernel_1d sigma 1 truncate = Ok (map Fin k1) ->
  _gaussian_kernel_1d sigma 2 truncate = Ok (map Fin k2) ->
  hessian 2 [afill 2 sh (Fin c)] sigma false truncate mode
  = Ok (Components [[afill 2 sh (Fin 0)]; [afill 2 sh (Fin 0)];
                    [afill 2 sh (Fin 0)]]).
Proof.
  intros Hl Hp Hm Hs Ht Hfit Hk1 Hk2. unfold hessian.
  cbn [hessian_components].
  now rewrite (hessian_2d_fill sh c sigma truncate mode k1 k2).
Qed.

End ConstantImages.

(* ================================================================= *)
(** ** The further properties on small images *)

Section Instances.

Lemma ridge_positive : positive [2; 2; 3]%nat.
Proof. repeat constructor. Qed.

Lemma ridge_large : Forall (fun d => (2 <= d)%nat) [2; 2; 3]%nat.
Proof. repeat constructor. Qed.

Lemma ridge_shape : Forall (has_shape 3 [2; 2; 3]%nat) ridge.
Proof.
  unfold ridge. constructor; [|constructor].
  cbn [has_shape length].
  repeat first [ split | apply Forall_cons | apply Forall_nil | reflexivity ].
Qed.

Lemma Zceil_eighth_4 : Zceil (1 / 8 * default_truncate) = 1%Z.
Proof. unfold default_truncate. apply Zceil_eq. simpl. lra. Qed.

Lemma Zceil_quarter_default : Zceil (1 / 4 * default_truncate) = 1%Z.
Proof. unfold default_truncate. apply Zceil_eq. simpl. lra. Qed.

Lemma ridge_accepts (l : list R) :
  Forall (fun s => s = 1 / 4 \/ s = 1 / 8) l ->
  exists r, frangi 3 (single ridge) default_sigma_range default_scale_step
                   (Some l) default_alpha default_beta None default_eps
            = Ok r.
Proof.
  intros Hl. unfold ridge.
  apply (frangi_fits_returns 3 [2; 2; 3]%nat);
    [exact ridge_large | exact (Forall_inv ridge_shape) | now right |].
  eapply Forall_impl; [|exact Hl]. intros s [-> | ->]; (split; [lra|]).
  - rewrite Zceil_quarter_default. cbn. lia.
  - rewrite Zceil_eighth_4. cbn. lia.
Qed.

Lemma frangi_append_scale_witness :
  exists r,
    frangi 3 (single ridge) default_sigma_range default_scale_step
           (Some [1 / 4]) default_alpha default_beta None default_eps = Ok r
    /\ frangi 3 (single ridge) default_sigma_range default_scale_step
              (Some ([1 / 4] ++ [1 / 8]))
              default_alpha default_beta None default_eps
       = if Rltb (1 / 8) 0 then Raise sigma_error
         else (result <- frangi_scale_at 3 (single ridge) default_alpha
                                         default_beta None default_eps
                                         (1 / 8) ;;
               torch_maximum r result).
Proof.
  destruct (ridge_accepts [1 / 4]) as (r & Hr).
  { apply Forall_cons; [now left | apply Forall_nil]. }
  exists r. split; [exact Hr|].
  exact (frangi_append_scale 3 (single ridge) default_sigma_range
           default_scale_step [1 / 4] (1 / 8) default_alpha default_beta None default_eps r Hr).
Defined.

Lemma frangi_order_independent_witness :
  exists r,
    frangi 3 (single ridge) default_sigma_range default_scale_step
           (Some [1 / 4; 1 / 8])
           default_alpha default_beta None default_eps = Ok r
    /\ frangi 3 (single ridge) default_sigma_range default_scale_step
              (Some [1 / 8; 1 / 4])
              default_alpha default_beta None default_eps = Ok r.
Proof.
  destruct (ridge_accepts [1 / 4; 1 / 8]) as (r & Hr).
  { apply Forall_cons; [now left|].
    apply Forall_cons; [now right | apply Forall_nil]. }
  exists r. split; [exact Hr|].
  exact (frangi_order_independent 3 (single ridge) default_sigma_range
           default_scale_step [1 / 4; 1 / 8] [1 / 8; 1 / 4]
           default_alpha default_beta None default_eps r
           (perm_swap (1 / 8) (1 / 4) []) Hr).
Defined.

Lemma frangi_unit_interval_witness :
  match frangi 3 (single ridge) default_sigma_range default_scale_step
               (Some [1 / 4; 1 / 8])
               default_alpha default_beta None default_eps with
  | Ok r => Forall unit_or_nan (entries r)
  | Raise _ => True
  end.
Proof.
  apply (frangi_unit_interval 3 (single ridge)).
  left. exact default_eps_pos.
Defined.

Lemma gaussian_filter_preserves_shape_witness :
  match gaussian_filter 3 ridge 1 (inr [0; 0; 2]%Z) Constant 1 with
  | Ok out => exists c c', ridge = [c] /\ out = [c']
                           /\ has_shape 3 [2; 2; 3]%nat c'
  | Raise _ => True
  end.
Proof.
  apply (gaussian_filter_preserves_shape 3 [2; 2; 3]%nat ridge).
  - lia.
  - exact ridge_positive.
  - exact ridge_shape.
Defined.

Lemma gaussian_filter_domain_witness :
  (exists out, gaussian_filter 3 ridge 1 (inr [0; 0; 2]%Z) Reflect 1 = Ok out)
  <-> Forall (mode_fits Reflect (Z.to_nat (Zceil (1 * 1)))) [2; 2; 3]%nat.
Proof.
  apply (gaussian_filter_domain 3 [2; 2; 3]%nat).
  - lia.
  - exact ridge_positive.
  - exact (Forall_inv ridge_shape).
  - reflexivity.
  - repeat constructor; lia.
  - rewrite Zceil_1_1. lia.
Defined.

Lemma hessian_preserves_shape_witness :
  match hessian 3 ridge 1 false 1 Reflect with
  | Ok (Components H) =>
      Forall (fun t => exists c, t = [c] /\ has_shape 3 [2; 2; 3]%nat c) H
  | Ok (Matrix _) => False
  | Raise _ => True
  end.
Proof.
  apply (hessian_preserves_shape 3 [2; 2; 3]%nat ridge).
  - exact ridge_positive.
  - exact ridge_shape.
Defined.

Lemma hessian_domain_witness :
  (exists H, hessian 3 ridge 1 true 1 Reflect = Ok H)
  <-> hessian_fits 3 Reflect (Z.to_nat (Zceil (1 * 1))) [2; 2; 3]%nat.
Proof.
  apply (hessian_domain 3 [2; 2; 3]%nat).
  - exact ridge_positive.
  - exact (Forall_inv ridge_shape).
  - rewrite Zceil_1_1. lia.
Defined.

Lemma frangi_preserves_shape_witness :
  match frangi 3 (single ridge) default_sigma_range default_scale_step
               (Some [1 / 4; 1 / 8])
               default_alpha default_beta None default_eps with
  | Ok r => dims r = [1; 1; 2; 2; 3]%nat
            /\ length (entries r) = numel [2; 2; 3]%nat
  | Raise _ => True
  end.
Proof.
  unfold ridge. apply (frangi_preserves_shape 3 [2; 2; 3]%nat).
  - exact ridge_large.
  - exact (Forall_inv ridge_shape).
Defined.

Lemma frangi_domain_witness :
  (exists r, frangi 3 (single ridge) default_sigma_range default_scale_step
                    (Some [1 / 4; 1]) default_alpha default_beta None
                    default_eps = Ok r)
  <-> (3 = 2 \/ 3 = 3)%nat
      /\ Forall (fun s =>
                   0 <= s
                   /\ hessian_fits 3 default_mode
                        (Z.to_nat (Zceil (s * default_truncate)))
                        [2; 2; 3]%nat)
                [1 / 4; 1].
Proof.
  unfold ridge. apply (frangi_domain 3 [2; 2; 3]%nat).
  - exact ridge_large.
  - exact (Forall_inv ridge_shape).
Defined.

Lemma frangi_default_domain_witness :
  (exists r, frangi 3 (single ridge) default_sigma_range default_scale_step
                    None default_alpha default_beta None default_eps = Ok r)
  <-> hessian_fits 3 Reflect 36 [2; 2; 3]%nat.
Proof.
  unfold ridge. apply (frangi_default_domain 3 [2; 2; 3]%nat).
  - exact ridge_positive.
  - exact (Forall_inv ridge_shape).
  - intros _. exact ridge_large.
Defined.

Lemma square_positive : positive [2; 2]%nat.
Proof. repeat constructor. Qed.

Lemma square_fits :
  Forall (mode_fits Reflect (Z.to_nat (Zceil (1 * 1)))) [2; 2]%nat.
Proof. rewrite Zceil_1_1. repeat constructor. Qed.

Lemma gaussian_filter_of_constant_witness :
  gaussian_filter 2 [afill 2 [2; 2]%nat (Fin 5)] 1 (inr [2; 2]%Z) Reflect 1
  = Ok [afill 2 [2; 2]%nat
              (Fin (fold_left (fun acc kr => acc * Rsum kr)
                              [[1; -2; 1]; [1; -2; 1]] 5))].
Proof.
  apply (gaussian_filter_of_constant 2 [2; 2]%nat 5 1 [2; 2]%Z
           [[1; -2; 1]; [1; -2; 1]] Reflect 1).
  - lia.
  - reflexivity.
  - exact square_positive.
  - reflexivity.
  - discriminate.
  - exact square_fits.
  - repeat constructor; exact kernel2_unit.
Defined.

Lemma hessian_of_constant_witness :
  hessian 2 [afill 2 [2; 2]%nat (Fin 5)] 1 false 1 Reflect
  = Ok (Components [[afill 2 [2; 2]%nat (Fin 0)];
                    [afill 2 [2; 2]%nat (Fin 0)];
                    [afill 2 [2; 2]%nat (Fin 0)]]).
Proof.
  apply (hessian_of_constant [2; 2]%nat 5 1 1 Reflect
           (normalise (-1) (map (raw1 1) (samples (Zceil (1 * 1))))
                      (samples (Zceil (1 * 1))))
           [1; -2; 1]).
  - reflexivity.
  - exact square_positive.
  - discriminate.
  - lra.
  - lra.
  - exact square_fits.
  - apply kernel_order1; [lra | rewrite Zceil_1_1; lia |].
    apply gauss_pos_near; lra.
  - exact kernel2_unit.
Defined.

Lemma frangi_batch_unpack_witness :
  frangi 2 (Batch (pixel_image 1) [pixel_image 1; pixel_image 1])
         default_sigma_range default_scale_step (Some [0])
         default_alpha default_beta None default_eps
  = match hessian_eigenvalues
            2 (Batch (pixel_image 1) [pixel_image 1; pixel_image 1]) 0
            false default_truncate default_mode with
    | Ok _ =>
        Raise (ValueError
                 (if (length (images (Batch (pixel_image 1)
                                            [pixel_image 1; pixel_image 1]))
                      <? 2)%nat
                  then "not enough values to unpack"
                  else "too many values to unpack"))
    | Raise e => Raise e
    end.
Proof.
  apply (frangi_batch_unpack 2).
  - now left.
  - simpl. lia.
  - simpl. lia.
  - apply Forall_cons; [lra | apply Forall_nil].
Defined.

Lemma frangi_unit_axis_witness :
  (exists r, frangi 3 (single [afill 3 [2; 1; 3]%nat (Fin 1)])
                    default_sigma_range default_scale_step (Some [1 / 4])
                    default_alpha default_beta None default_eps = Ok r
             /\ dims r = [1; 1; 2; 2; 3]%nat)
  /\ frangi 3 (single [afill 3 [2; 3; 1]%nat (Fin 1)])
            default_sigma_range default_scale_step (Some [0])
            default_alpha default_beta None default_eps
     = Raise (RuntimeError "The size of tensor a must match the size of tensor b at non-singleton dimension").
Proof.
  apply (frangi_unit_axis (afill 3 [2; 1; 3]%nat (Fin 1))
                          (afill 3 [2; 3; 1]%nat (Fin 1))).
  - now apply afill_shape.
  - now apply afill_shape.
Defined.

End Instances.
